(** * Field arithmetic over GF(p751) and GF(p751^2): a shallow embedding of fpx.c

    Digits are 64-bit machine words, modelled as [Z] with the wrap-around
    written out; a field element is a little-endian array of [NWORDS_FIELD]
    digits, modelled as a [list Z]. *)

From Stdlib Require Import ZArith List Lia Bool Znumtheory Field.
From Stdlib Require Import Zmod.Zmod.
From Bignums Require Import BigZ.
Import ListNotations.
Local Open Scope Z_scope.

(* ================================================================== *)
(** * Part I: the embedding                                            *)
(* ================================================================== *)

(** ** Data model *)

(** Modelled from the spec: the header SIDH_internal.h with [RADIX],
    [NWORDS_FIELD] and the types [digit_t], [felm_t], [dfelm_t] and [f2elm_t]
    is missing; the spec gives a digit as a 64-bit machine word, a field
    element as 12 digits in little-endian order, a double-width element as
    24 digits and an element of GF(p751^2) as a pair [a0 + a1*i]. *)
Definition RADIX : Z := 64.
Definition NWORDS_FIELD : nat := 12.

Definition digit_t := Z.
Definition felm_t := list digit_t.
Definition dfelm_t := list digit_t.
Definition f2elm_t := (felm_t * felm_t)%type.

(** The radix [2^RADIX] of one digit. *)
Definition wB : Z := 2 ^ RADIX.

(** Truncation of a C value to [digit_t], and to [unsigned int] (32 bits). *)
Definition to_digit (v : Z) : digit_t := v mod wB.
Definition to_uint (v : Z) : Z := v mod 2 ^ 32.

(** The unsigned integer held by a little-endian digit array. *)
Fixpoint val (x : list digit_t) : Z :=
  match x with
  | [] => 0
  | d :: r => d + wB * val r
  end.

(** The [n] low digits of [v], little-endian. *)
Fixpoint to_digits (n : nat) (v : Z) : list digit_t :=
  match n with
  | O => []
  | S n' => v mod wB :: to_digits n' (v / wB)
  end.

(** Every digit of the array is a machine word. *)
Definition digits_ok (x : list digit_t) : Prop :=
  Forall (fun d => 0 <= d < wB) x.

(** Array read [a[i]] and array write [a[i] = v]. *)
Definition rd (a : list digit_t) (i : nat) : digit_t := nth i a 0.

Fixpoint upd {T : Type} (a : list T) (i : nat) (v : T) : list T :=
  match a, i with
  | [], _ => []
  | _ :: r, O => v :: r
  | x :: r, S i' => x :: upd r i' v
  end.

(** [for (i = lo; i < lo + count; i++) body] as state passing. *)
Fixpoint for_from {S : Type} (lo count : nat) (body : nat -> S -> S) (s : S) : S :=
  match count with
  | O => s
  | Datatypes.S c => for_from (Datatypes.S lo) c body (body lo s)
  end.

(** [for (i = 0; i < n; i++) body]. *)
Definition for_lt {S : Type} (n : nat) (body : nat -> S -> S) (s : S) : S :=
  for_from 0 n body s.

(** [for (i = n - 1; i >= 0; i--) body]. *)
Fixpoint for_down {S : Type} (n : nat) (body : nat -> S -> S) (s : S) : S :=
  match n with
  | O => s
  | Datatypes.S i => for_down i body (body i s)
  end.

(** ** Global constants *)

Definition p751 : felm_t :=
  [ 0xFFFFFFFFFFFFFFFF; 0xFFFFFFFFFFFFFFFF; 0xFFFFFFFFFFFFFFFF;
    0xFFFFFFFFFFFFFFFF; 0xFFFFFFFFFFFFFFFF; 0xEEAFFFFFFFFFFFFF;
    0xE3EC968549F878A8; 0xDA959B1A13F7CC76; 0x084E9867D6EBE876;
    0x8562B5045CB25748; 0x0E12909F97BADC66; 0x00006FE5D541F71C ].

Definition p751p1 : felm_t :=
  [ 0x0000000000000000; 0x0000000000000000; 0x0000000000000000;
    0x0000000000000000; 0x0000000000000000; 0xEEB0000000000000;
    0xE3EC968549F878A8; 0xDA959B1A13F7CC76; 0x084E9867D6EBE876;
    0x8562B5045CB25748; 0x0E12909F97BADC66; 0x00006FE5D541F71C ].

Definition Montgomery_R2 : felm_t :=
  [ 0x233046449DAD4058; 0xDB010161A696452A; 0x5E36941472E3FD8E;
    0xF40BFE2082A2E706; 0x4932CCA8904F8751; 0x1F735F1F1EE7FC81;
    0xA24F4D80C1048E18; 0xB56C383CCDB607C5; 0x441DD47B735F9C90;
    0x5673ED2C6A6AC82A; 0x06C905261132294B; 0x000041AD830F1F35 ].

(** The prime as an integer, and the Montgomery radix [R = 2^(12*64)]. *)
Definition p751z : Z := Eval vm_compute in val p751.
Definition Mont_R : Z := wB ^ Z.of_nat NWORDS_FIELD.

(** A field element: [NWORDS_FIELD] machine words holding a value below
    the prime. *)
Definition felm_ok (x : felm_t) : Prop :=
  length x = NWORDS_FIELD /\ digits_ok x /\ val x < p751z.

Definition f2elm_ok (a : f2elm_t) : Prop :=
  felm_ok (fst a) /\ felm_ok (snd a).

(** ** Macros of SIDH_internal.h *)

(** Modelled from the spec: the header SIDH_internal.h with the macro
    [ADDC(carryIn, addend1, addend2, carryOut, sumOut)] is missing; the spec
    describes digit addition as ripple-carry addition whose carry is a
    boolean.  The pair is [(carryOut, sumOut)]. *)
Definition ADDC (carryIn addend1 addend2 : Z) : Z * digit_t :=
  let s := addend1 + addend2 + carryIn in
  (s / wB, s mod wB).

(** Modelled from the spec: the macro
    [SUBC(borrowIn, minuend, subtrahend, borrowOut, differenceOut)] of the
    missing header; ripple-borrow subtraction, the borrow says that the
    minuend was the smaller one.  The pair is [(borrowOut, differenceOut)]. *)
Definition SUBC (borrowIn minuend subtrahend : Z) : Z * digit_t :=
  let d := minuend - subtrahend - borrowIn in
  ((if d <? 0 then 1 else 0), d mod wB).

(** Modelled from the spec: the macro [CT_LT(x, y)] of the missing header, the
    constant-time-style digit comparison; 1 when [x < y], 0 otherwise. *)
Definition CT_LT (x y : digit_t) : Z :=
  if x <? y then 1 else 0.

(** ** Field arithmetic functions: digit layer *)

Definition fpcopy751 (a c : felm_t) : felm_t :=
  for_lt NWORDS_FIELD (fun i c => upd c i (rd a i)) c.

Definition fpzero751 (a : felm_t) : felm_t :=
  for_lt NWORDS_FIELD (fun i a => upd a i 0) a.

(** [r] is an [unsigned int]: the 64-bit value of [r | (x[i] ^ 0)] is
    truncated when it is stored back. *)
Definition is_felm_zero (x : felm_t) : Z :=
  for_lt NWORDS_FIELD
    (fun i r => to_uint (Z.lor r (Z.lxor (rd x i) 0))) 0.

Definition is_felm_even (x : felm_t) : Z :=
  to_uint (Z.lxor (Z.land (rd x 0) 1) 1).

(** [r] is an [int] that starts at 0 and grows by at most 1 per digit, so it
    never leaves the range of [int]. *)
Definition is_felm_lt (x y : felm_t) : Z :=
  for_down NWORDS_FIELD
    (fun i r => r + Z.land (CT_LT (rd x i) (rd y i)) 1) 0.

(** [mp_sub] and [mp_add] return [(borrow, c)] and [(carry, c)].  The C
    callers may pass [c] aliased to [a] or [b]; digit [i] of the inputs is
    read before digit [i] of [c] is written and never again, so the aliased
    call reads the same digits as this one. *)
Definition mp_sub (a b c : list digit_t) (nwords : nat) : Z * list digit_t :=
  for_lt nwords
    (fun i '(borrow, c) =>
       let '(borrow', d) := SUBC borrow (rd a i) (rd b i) in
       (borrow', upd c i d))
    (0, c).

Definition mp_add (a b c : list digit_t) (nwords : nat) : Z * list digit_t :=
  for_lt nwords
    (fun i '(carry, c) =>
       let '(carry', s) := ADDC carry (rd a i) (rd b i) in
       (carry', upd c i s))
    (0, c).

(** ** Montgomery base-field layer *)

(** The inverse of [R = 2^768] modulo the prime: [p751 + 1 = 2^372 * 3^239],
    so [2^768 * (2^348 * 3^717) = (p751 + 1)^3]. *)
Definition Montgomery_Rinv : Z := Eval vm_compute in (2 ^ 348 * 3 ^ 717) mod p751z.

(** Modelled from the spec: [mp_mul] lives in the missing generic kernel file;
    the spec gives it as the full double-width integer multiply of two
    [nwords]-digit operands. *)
Definition mp_mul (a b : list digit_t) (nwords : nat) : dfelm_t :=
  to_digits (2 * nwords) (val a * val b).

(** Modelled from the spec: [rdc_mont] lives in the missing generic kernel
    file; the spec gives it as the reduction of a double-width value modulo
    the prime using the Montgomery constant, [mc = ma * R^-1 mod p751],
    returning a value below the prime. *)
Definition rdc_mont (ma : dfelm_t) : felm_t :=
  to_digits NWORDS_FIELD ((val ma * Montgomery_Rinv) mod p751z).

(** Modelled from the spec: [fpadd751] lives in the missing generic kernel
    file; the spec gives it as base-field addition modulo the prime, on
    reduced inputs and with a reduced output. *)
Definition fpadd751 (a b : felm_t) : felm_t :=
  to_digits NWORDS_FIELD ((val a + val b) mod p751z).

(** Modelled from the spec: [fpsub751] lives in the missing generic kernel
    file; the spec gives it as base-field subtraction modulo the prime, on
    reduced inputs and with a reduced output. *)
Definition fpsub751 (a b : felm_t) : felm_t :=
  to_digits NWORDS_FIELD ((val a - val b) mod p751z).

(** Modelled from the spec: [fpneg751] lives in the missing generic kernel
    file; the spec gives it as base-field negation modulo the prime, with a
    reduced output. *)
Definition fpneg751 (a : felm_t) : felm_t :=
  to_digits NWORDS_FIELD ((- val a) mod p751z).

(** Modelled from the spec: [fpdiv2_751] lives in the missing generic kernel
    file; the spec gives it as halving in the base field, with a reduced
    output: multiplication by the inverse [(p751 + 1) / 2] of 2. *)
Definition fpdiv2_751 (a : felm_t) : felm_t :=
  to_digits NWORDS_FIELD ((val a * ((p751z + 1) / 2)) mod p751z).

Definition fpmul751_mont (ma mb : felm_t) : felm_t :=
  let temp := mp_mul ma mb NWORDS_FIELD in
  rdc_mont temp.

Definition fpsqr751_mont (ma : felm_t) : felm_t :=
  let temp := mp_mul ma ma NWORDS_FIELD in
  rdc_mont temp.

Definition to_mont (a : felm_t) : felm_t :=
  fpmul751_mont a Montgomery_R2.

Definition from_mont (ma : felm_t) : felm_t :=
  let one := repeat 0 NWORDS_FIELD in
  let one := upd one 0%nat 1 in
  fpmul751_mont ma one.

(** ** Field inversion by the fixed addition chain

    [fpinv751_mont] only calls [fpsqr751_mont], [fpmul751_mont] and
    [fpcopy751] on its local variables [a], [tt] and [t[0..26]].  The body
    is written once over an interface of these three operations, as a
    state-passing program on the frame of local variables; every call of
    [fpsqr751_mont] and [fpmul751_mont] is recorded in the frame with
    the variables it reads and writes. *)

Class FpOps (T : Type) : Type := {
  op_fpmul751_mont : T -> T -> T;
  op_fpsqr751_mont : T -> T;
  op_fpcopy751 : T -> T -> T;
  (* the contents of a local array before it is written *)
  op_uninit : T
}.

(** A local variable of [fpinv751_mont]. *)
Inductive loc : Type :=
| Va
| Vtt
| Vt (i : nat).

(** A recorded call: the operation with its source and destination
    variables. *)
Inductive call : Type :=
| Call_fpsqr (src dst : loc)
| Call_fpmul (src1 src2 dst : loc).

Record frame (T : Type) : Type := mkFrame {
  fr_a : T;
  fr_tt : T;
  fr_t : list T;
  fr_calls : list call
}.
Arguments mkFrame {T}.
Arguments fr_a {T}.
Arguments fr_tt {T}.
Arguments fr_t {T}.
Arguments fr_calls {T}.

Definition seq_ {S : Type} (p q : S -> S) : S -> S := fun s => q (p s).
Notation "p ;; q" := (seq_ p q) (at level 61, right associativity).

(** [for (i = lo; i <= hi; i++) body]. *)
Definition for_le {S : Type} (lo hi : nat) (body : nat -> S -> S) : S -> S :=
  for_from lo (hi + 1 - lo) body.

Section Inversion.
Context {T : Type} {ops : FpOps T}.

Definition load (l : loc) (f : frame T) : T :=
  match l with
  | Va => fr_a f
  | Vtt => fr_tt f
  | Vt i => nth i (fr_t f) op_uninit
  end.

Definition store (l : loc) (v : T) (f : frame T) : frame T :=
  match l with
  | Va => mkFrame v (fr_tt f) (fr_t f) (fr_calls f)
  | Vtt => mkFrame (fr_a f) v (fr_t f) (fr_calls f)
  | Vt i => mkFrame (fr_a f) (fr_tt f) (upd (fr_t f) i v) (fr_calls f)
  end.

Definition record (c : call) (f : frame T) : frame T :=
  mkFrame (fr_a f) (fr_tt f) (fr_t f) (fr_calls f ++ [c]).

(** [fpsqr751_mont(src, dst)] *)
Definition call_fpsqr751_mont (src dst : loc) (f : frame T) : frame T :=
  record (Call_fpsqr src dst) (store dst (op_fpsqr751_mont (load src f)) f).

(** [fpmul751_mont(src1, src2, dst)] *)
Definition call_fpmul751_mont (src1 src2 dst : loc) (f : frame T) : frame T :=
  record (Call_fpmul src1 src2 dst)
    (store dst (op_fpmul751_mont (load src1 f) (load src2 f)) f).

(** [fpcopy751(src, dst)] *)
Definition call_fpcopy751 (src dst : loc) (f : frame T) : frame T :=
  store dst (op_fpcopy751 (load src f) (load dst f)) f.

(** The frame on entry: [felm_t t[27], tt;] are not yet written. *)
Definition enter (a : T) : frame T :=
  mkFrame a op_uninit (repeat op_uninit 27) [].

Definition fpinv751_mont_body : frame T -> frame T :=
(* Precomputed table *)
call_fpsqr751_mont Va Vtt ;;
call_fpmul751_mont Va Vtt (Vt 0) ;;
call_fpmul751_mont (Vt 0) Vtt (Vt 1) ;;
call_fpmul751_mont (Vt 1) Vtt (Vt 2) ;;
call_fpmul751_mont (Vt 2) Vtt (Vt 3) ;;
call_fpmul751_mont (Vt 3) Vtt (Vt 3) ;;
for_le 3 8 (fun i => call_fpmul751_mont (Vt i) Vtt (Vt (i + 1))) ;;
call_fpmul751_mont (Vt 9) Vtt (Vt 9) ;;
for_le 9 20 (fun i => call_fpmul751_mont (Vt i) Vtt (Vt (i + 1))) ;;
call_fpmul751_mont (Vt 21) Vtt (Vt 21) ;;
for_le 21 24 (fun i => call_fpmul751_mont (Vt i) Vtt (Vt (i + 1))) ;;
call_fpmul751_mont (Vt 25) Vtt (Vt 25) ;;
call_fpmul751_mont (Vt 25) Vtt (Vt 26) ;;
call_fpcopy751 Va Vtt ;;
for_lt 6 (fun i => call_fpsqr751_mont Vtt Vtt) ;;
call_fpmul751_mont (Vt 20) Vtt Vtt ;;
for_lt 6 (fun i => call_fpsqr751_mont Vtt Vtt) ;;
call_fpmul751_mont (Vt 24) Vtt Vtt ;;
for_lt 6 (fun i => call_fpsqr751_mont Vtt Vtt) ;;
call_fpmul751_mont (Vt 11) Vtt Vtt ;;
for_lt 6 (fun i => call_fpsqr751_mont Vtt Vtt) ;;
call_fpmul751_mont (Vt 8) Vtt Vtt ;;
for_lt 8 (fun i => call_fpsqr751_mont Vtt Vtt) ;;
call_fpmul751_mont (Vt 2) Vtt Vtt ;;
for_lt 6 (fun i => call_fpsqr751_mont Vtt Vtt) ;;
call_fpmul751_mont (Vt 23) Vtt Vtt ;;
for_lt 6 (fun i => call_fpsqr751_mont Vtt Vtt) ;;
call_fpmul751_mont (Vt 2) Vtt Vtt ;;
for_lt 9 (fun i => call_fpsqr751_mont Vtt Vtt) ;;
call_fpmul751_mont (Vt 2) Vtt Vtt ;;
for_lt 10 (fun i => call_fpsqr751_mont Vtt Vtt) ;;
call_fpmul751_mont (Vt 15) Vtt Vtt ;;
for_lt 8 (fun i => call_fpsqr751_mont Vtt Vtt) ;;
call_fpmul751_mont (Vt 13) Vtt Vtt ;;
for_lt 8 (fun i => call_fpsqr751_mont Vtt Vtt) ;;
call_fpmul751_mont (Vt 26) Vtt Vtt ;;
for_lt 8 (fun i => call_fpsqr751_mont Vtt Vtt) ;;
call_fpmul751_mont (Vt 20) Vtt Vtt ;;
for_lt 6 (fun i => call_fpsqr751_mont Vtt Vtt) ;;
call_fpmul751_mont (Vt 11) Vtt Vtt ;;
for_lt 6 (fun i => call_fpsqr751_mont Vtt Vtt) ;;
call_fpmul751_mont (Vt 10) Vtt Vtt ;;
for_lt 6 (fun i => call_fpsqr751_mont Vtt Vtt) ;;
call_fpmul751_mont (Vt 14) Vtt Vtt ;;
for_lt 6 (fun i => call_fpsqr751_mont Vtt Vtt) ;;
call_fpmul751_mont (Vt 4) Vtt Vtt ;;
for_lt 10 (fun i => call_fpsqr751_mont Vtt Vtt) ;;
call_fpmul751_mont (Vt 18) Vtt Vtt ;;
for_lt 6 (fun i => call_fpsqr751_mont Vtt Vtt) ;;
call_fpmul751_mont (Vt 1) Vtt Vtt ;;
for_lt 7 (fun i => call_fpsqr751_mont Vtt Vtt) ;;
call_fpmul751_mont (Vt 22) Vtt Vtt ;;
for_lt 10 (fun i => call_fpsqr751_mont Vtt Vtt) ;;
call_fpmul751_mont (Vt 6) Vtt Vtt ;;
for_lt 7 (fun i => call_fpsqr751_mont Vtt Vtt) ;;
call_fpmul751_mont (Vt 24) Vtt Vtt ;;
for_lt 6 (fun i => call_fpsqr751_mont Vtt Vtt) ;;
call_fpmul751_mont (Vt 9) Vtt Vtt ;;
for_lt 8 (fun i => call_fpsqr751_mont Vtt Vtt) ;;
call_fpmul751_mont (Vt 18) Vtt Vtt ;;
for_lt 6 (fun i => call_fpsqr751_mont Vtt Vtt) ;;
call_fpmul751_mont (Vt 17) Vtt Vtt ;;
for_lt 8 (fun i => call_fpsqr751_mont Vtt Vtt) ;;
call_fpmul751_mont Va Vtt Vtt ;;
for_lt 10 (fun i => call_fpsqr751_mont Vtt Vtt) ;;
call_fpmul751_mont (Vt 16) Vtt Vtt ;;
for_lt 6 (fun i => call_fpsqr751_mont Vtt Vtt) ;;
call_fpmul751_mont (Vt 7) Vtt Vtt ;;
for_lt 6 (fun i => call_fpsqr751_mont Vtt Vtt) ;;
call_fpmul751_mont (Vt 0) Vtt Vtt ;;
for_lt 7 (fun i => call_fpsqr751_mont Vtt Vtt) ;;
call_fpmul751_mont (Vt 12) Vtt Vtt ;;
for_lt 7 (fun i => call_fpsqr751_mont Vtt Vtt) ;;
call_fpmul751_mont (Vt 19) Vtt Vtt ;;
for_lt 6 (fun i => call_fpsqr751_mont Vtt Vtt) ;;
call_fpmul751_mont (Vt 22) Vtt Vtt ;;
for_lt 6 (fun i => call_fpsqr751_mont Vtt Vtt) ;;
call_fpmul751_mont (Vt 25) Vtt Vtt ;;
for_lt 7 (fun i => call_fpsqr751_mont Vtt Vtt) ;;
call_fpmul751_mont (Vt 2) Vtt Vtt ;;
for_lt 6 (fun i => call_fpsqr751_mont Vtt Vtt) ;;
call_fpmul751_mont (Vt 10) Vtt Vtt ;;
for_lt 7 (fun i => call_fpsqr751_mont Vtt Vtt) ;;
call_fpmul751_mont (Vt 22) Vtt Vtt ;;
for_lt 8 (fun i => call_fpsqr751_mont Vtt Vtt) ;;
call_fpmul751_mont (Vt 18) Vtt Vtt ;;
for_lt 6 (fun i => call_fpsqr751_mont Vtt Vtt) ;;
call_fpmul751_mont (Vt 4) Vtt Vtt ;;
for_lt 6 (fun i => call_fpsqr751_mont Vtt Vtt) ;;
call_fpmul751_mont (Vt 14) Vtt Vtt ;;
for_lt 7 (fun i => call_fpsqr751_mont Vtt Vtt) ;;
call_fpmul751_mont (Vt 13) Vtt Vtt ;;
for_lt 6 (fun i => call_fpsqr751_mont Vtt Vtt) ;;
call_fpmul751_mont (Vt 5) Vtt Vtt ;;
for_lt 6 (fun i => call_fpsqr751_mont Vtt Vtt) ;;
call_fpmul751_mont (Vt 23) Vtt Vtt ;;
for_lt 6 (fun i => call_fpsqr751_mont Vtt Vtt) ;;
call_fpmul751_mont (Vt 21) Vtt Vtt ;;
for_lt 6 (fun i => call_fpsqr751_mont Vtt Vtt) ;;
call_fpmul751_mont (Vt 2) Vtt Vtt ;;
for_lt 7 (fun i => call_fpsqr751_mont Vtt Vtt) ;;
call_fpmul751_mont (Vt 23) Vtt Vtt ;;
for_lt 8 (fun i => call_fpsqr751_mont Vtt Vtt) ;;
call_fpmul751_mont (Vt 12) Vtt Vtt ;;
for_lt 6 (fun i => call_fpsqr751_mont Vtt Vtt) ;;
call_fpmul751_mont (Vt 9) Vtt Vtt ;;
for_lt 6 (fun i => call_fpsqr751_mont Vtt Vtt) ;;
call_fpmul751_mont (Vt 3) Vtt Vtt ;;
for_lt 7 (fun i => call_fpsqr751_mont Vtt Vtt) ;;
call_fpmul751_mont (Vt 13) Vtt Vtt ;;
for_lt 7 (fun i => call_fpsqr751_mont Vtt Vtt) ;;
call_fpmul751_mont (Vt 17) Vtt Vtt ;;
for_lt 8 (fun i => call_fpsqr751_mont Vtt Vtt) ;;
call_fpmul751_mont (Vt 26) Vtt Vtt ;;
for_lt 8 (fun i => call_fpsqr751_mont Vtt Vtt) ;;
call_fpmul751_mont (Vt 5) Vtt Vtt ;;
for_lt 8 (fun i => call_fpsqr751_mont Vtt Vtt) ;;
call_fpmul751_mont (Vt 8) Vtt Vtt ;;
for_lt 8 (fun i => call_fpsqr751_mont Vtt Vtt) ;;
call_fpmul751_mont (Vt 11) Vtt Vtt ;;
for_lt 6 (fun i => call_fpsqr751_mont Vtt Vtt) ;;
call_fpmul751_mont (Vt 22) Vtt Vtt ;;
for_lt 7 (fun i => call_fpsqr751_mont Vtt Vtt) ;;
for_lt 61 (fun j =>
  call_fpmul751_mont (Vt 26) Vtt Vtt ;;
  for_lt 6 (fun i => call_fpsqr751_mont Vtt Vtt)) ;;
call_fpmul751_mont (Vt 25) Vtt Va.

End Inversion.

#[export] Instance Fp751 : FpOps felm_t := {
  op_fpmul751_mont := fpmul751_mont;
  op_fpsqr751_mont := fpsqr751_mont;
  op_fpcopy751 := fpcopy751;
  op_uninit := repeat 0 NWORDS_FIELD
}.

(** [fpinv751_mont(a)]: the value left in [a], and the recorded calls. *)
Definition fpinv751_mont (a : felm_t) : felm_t :=
  fr_a (fpinv751_mont_body (enter a)).

Definition fpinv751_mont_calls (a : felm_t) : list call :=
  fr_calls (fpinv751_mont_body (enter a)).

(** ** GF(p751^2) functions *)

(** An array that is declared but not yet written. *)
Definition uninit (nwords : nat) : list digit_t := repeat 0 nwords.

Definition fp2copy751 (a c : f2elm_t) : f2elm_t :=
  (fpcopy751 (fst a) (fst c), fpcopy751 (snd a) (snd c)).

Definition fp2zero751 (a : f2elm_t) : f2elm_t :=
  (fpzero751 (fst a), fpzero751 (snd a)).

Definition fp2neg751 (a : f2elm_t) : f2elm_t :=
  (fpneg751 (fst a), fpneg751 (snd a)).

Definition fp2add751 (a b : f2elm_t) : f2elm_t :=
  (fpadd751 (fst a) (fst b), fpadd751 (snd a) (snd b)).

Definition fp2sub751 (a b : f2elm_t) : f2elm_t :=
  (fpsub751 (fst a) (fst b), fpsub751 (snd a) (snd b)).

Definition fp2div2_751 (a : f2elm_t) : f2elm_t :=
  (fpdiv2_751 (fst a), fpdiv2_751 (snd a)).

Definition fp2sqr751_mont (a : f2elm_t) : f2elm_t :=
  let t1 := snd (mp_add (fst a) (snd a) (uninit NWORDS_FIELD) NWORDS_FIELD) in
  let t2 := fpsub751 (fst a) (snd a) in
  let t3 := snd (mp_add (fst a) (fst a) (uninit NWORDS_FIELD) NWORDS_FIELD) in
  let c0 := fpmul751_mont t1 t2 in
  let c1 := fpmul751_mont t3 (snd a) in
  (c0, c1).

Definition fp2mul751_mont (a b : f2elm_t) : f2elm_t :=
  let tt1 := mp_mul (fst a) (fst b) NWORDS_FIELD in
  let tt2 := mp_mul (snd a) (snd b) NWORDS_FIELD in
  let t1 := snd (mp_add (fst a) (snd a) (uninit NWORDS_FIELD) NWORDS_FIELD) in
  let t2 := snd (mp_add (fst b) (snd b) (uninit NWORDS_FIELD) NWORDS_FIELD) in
  let '(borrow, tt3) :=
    mp_sub tt1 tt2 (uninit (2 * NWORDS_FIELD)) (2 * NWORDS_FIELD) in
  let mask := to_digit (0 - borrow) in
  let borrow := 0 in
  let '(borrow, tt3) :=
    for_lt NWORDS_FIELD
      (fun i '(borrow, tt3) =>
         let '(borrow', s) :=
           ADDC borrow (rd tt3 (NWORDS_FIELD + i))
                (Z.land (rd p751 i) mask) in
         (borrow', upd tt3 (NWORDS_FIELD + i) s))
      (borrow, tt3) in
  let c0 := rdc_mont tt3 in
  let tt1 := snd (mp_add tt1 tt2 tt1 (2 * NWORDS_FIELD)) in
  let tt2 := mp_mul t1 t2 NWORDS_FIELD in
  let tt2 := snd (mp_sub tt2 tt1 tt2 (2 * NWORDS_FIELD)) in
  let c1 := rdc_mont tt2 in
  (c0, c1).

Definition to_fp2mont (a : f2elm_t) : f2elm_t :=
  (to_mont (fst a), to_mont (snd a)).

Definition from_fp2mont (ma : f2elm_t) : f2elm_t :=
  (from_mont (fst ma), from_mont (snd ma)).

Definition fp2inv751_mont (a : f2elm_t) : f2elm_t :=
  let t10 := fpsqr751_mont (fst a) in
  let t11 := fpsqr751_mont (snd a) in
  let t10 := fpadd751 t10 t11 in
  let t10 := fpinv751_mont t10 in
  let a1 := fpneg751 (snd a) in
  let a0 := fpmul751_mont (fst a) t10 in
  let a1 := fpmul751_mont a1 t10 in
  (a0, a1).

(** ** Constant-time selection and swap *)

(** Modelled from the spec: the types [point_basefield_proj_t] and
    [point_proj_t] are declared in the missing header; the spec gives a
    projective point as a pair of coordinates [(X : Z)], each a field element
    (base field) or an element of GF(p751^2). *)
Record point_basefield_proj : Type := mkPointBF {
  bX : felm_t;
  bZ : felm_t
}.

Record point_proj : Type := mkPoint {
  pX : f2elm_t;
  pZ : f2elm_t
}.

(** The all-one mask [0xFF...FF]. *)
Definition mask_ones : digit_t := wB - 1.

Definition swap_points_basefield (P Q : point_basefield_proj) (option : digit_t)
  : point_basefield_proj * point_basefield_proj :=
  for_lt NWORDS_FIELD
    (fun i '(P, Q) =>
       let temp := Z.land option (Z.lxor (rd (bX P) i) (rd (bX Q) i)) in
       let P := mkPointBF (upd (bX P) i (Z.lxor temp (rd (bX P) i))) (bZ P) in
       let Q := mkPointBF (upd (bX Q) i (Z.lxor temp (rd (bX Q) i))) (bZ Q) in
       let temp := Z.land option (Z.lxor (rd (bZ P) i) (rd (bZ Q) i)) in
       let P := mkPointBF (bX P) (upd (bZ P) i (Z.lxor temp (rd (bZ P) i))) in
       let Q := mkPointBF (bX Q) (upd (bZ Q) i (Z.lxor temp (rd (bZ Q) i))) in
       (P, Q))
    (P, Q).

(** Writes of one limb of a point: [P->X[0][i] = v] and the like. *)
Definition set_X0 (P : point_proj) (i : nat) (v : digit_t) : point_proj :=
  mkPoint (upd (fst (pX P)) i v, snd (pX P)) (pZ P).
Definition set_X1 (P : point_proj) (i : nat) (v : digit_t) : point_proj :=
  mkPoint (fst (pX P), upd (snd (pX P)) i v) (pZ P).
Definition set_Z0 (P : point_proj) (i : nat) (v : digit_t) : point_proj :=
  mkPoint (pX P) (upd (fst (pZ P)) i v, snd (pZ P)).
Definition set_Z1 (P : point_proj) (i : nat) (v : digit_t) : point_proj :=
  mkPoint (pX P) (fst (pZ P), upd (snd (pZ P)) i v).

Definition swap_points (P Q : point_proj) (option : digit_t)
  : point_proj * point_proj :=
  for_lt NWORDS_FIELD
    (fun i '(P, Q) =>
       let temp := Z.land option (Z.lxor (rd (fst (pX P)) i) (rd (fst (pX Q)) i)) in
       let P := set_X0 P i (Z.lxor temp (rd (fst (pX P)) i)) in
       let Q := set_X0 Q i (Z.lxor temp (rd (fst (pX Q)) i)) in
       let temp := Z.land option (Z.lxor (rd (fst (pZ P)) i) (rd (fst (pZ Q)) i)) in
       let P := set_Z0 P i (Z.lxor temp (rd (fst (pZ P)) i)) in
       let Q := set_Z0 Q i (Z.lxor temp (rd (fst (pZ Q)) i)) in
       let temp := Z.land option (Z.lxor (rd (snd (pX P)) i) (rd (snd (pX Q)) i)) in
       let P := set_X1 P i (Z.lxor temp (rd (snd (pX P)) i)) in
       let Q := set_X1 Q i (Z.lxor temp (rd (snd (pX Q)) i)) in
       let temp := Z.land option (Z.lxor (rd (snd (pZ P)) i) (rd (snd (pZ Q)) i)) in
       let P := set_Z1 P i (Z.lxor temp (rd (snd (pZ P)) i)) in
       let Q := set_Z1 Q i (Z.lxor temp (rd (snd (pZ Q)) i)) in
       (P, Q))
    (P, Q).

Definition select_f2elm (x y z : f2elm_t) (option : digit_t) : f2elm_t :=
  for_lt NWORDS_FIELD
    (fun i z =>
       let z := (upd (fst z) i
                   (Z.lxor (Z.land option (Z.lxor (rd (fst x) i) (rd (fst y) i)))
                           (rd (fst x) i)),
                 snd z) in
       let z := (fst z,
                 upd (snd z) i
                   (Z.lxor (Z.land option (Z.lxor (rd (snd x) i) (rd (snd y) i)))
                           (rd (snd x) i))) in
       z)
    z.

(** ** Auxiliary definitions used to state the results *)

(** The double-width value [tt3] that [fp2mul751_mont] hands to [rdc_mont]
    for [c[0]], cut out of its body: [a0*b0 - a1*b1], plus [2^768 * p751]
    when the subtraction borrowed. *)
Definition fp2mul751_tt3 (a b : f2elm_t) : dfelm_t :=
  let tt1 := mp_mul (fst a) (fst b) NWORDS_FIELD in
  let tt2 := mp_mul (snd a) (snd b) NWORDS_FIELD in
  let '(borrow, tt3) :=
    mp_sub tt1 tt2 (uninit (2 * NWORDS_FIELD)) (2 * NWORDS_FIELD) in
  let mask := to_digit (0 - borrow) in
  let borrow := 0 in
  let '(borrow, tt3) :=
    for_lt NWORDS_FIELD
      (fun i '(borrow, tt3) =>
         let '(borrow', s) :=
           ADDC borrow (rd tt3 (NWORDS_FIELD + i))
                (Z.land (rd p751 i) mask) in
         (borrow', upd tt3 (NWORDS_FIELD + i) s))
      (borrow, tt3) in
  tt3.

(** The double-width value [tt2] handed to [rdc_mont] for [c[1]], cut out
    of the same body: [(a0+a1)*(b0+b1) - a0*b0 - a1*b1]. *)
Definition fp2mul751_tt2 (a b : f2elm_t) : dfelm_t :=
  let tt1 := mp_mul (fst a) (fst b) NWORDS_FIELD in
  let tt2 := mp_mul (snd a) (snd b) NWORDS_FIELD in
  let t1 := snd (mp_add (fst a) (snd a) (uninit NWORDS_FIELD) NWORDS_FIELD) in
  let t2 := snd (mp_add (fst b) (snd b) (uninit NWORDS_FIELD) NWORDS_FIELD) in
  let tt1 := snd (mp_add tt1 tt2 tt1 (2 * NWORDS_FIELD)) in
  let tt2 := mp_mul t1 t2 NWORDS_FIELD in
  let tt2 := snd (mp_sub tt2 tt1 tt2 (2 * NWORDS_FIELD)) in
  tt2.


(** One pass of the masked exchange over the limbs of two arrays, as every
    coordinate of [swap_points] and [swap_points_basefield] performs it. *)
Definition cswap_limbs (option : digit_t) (nwords : nat)
  (xy : list digit_t * list digit_t) : list digit_t * list digit_t :=
  for_lt nwords
    (fun i '(x, y) =>
       let temp := Z.land option (Z.lxor (rd x i) (rd y i)) in
       (upd x i (Z.lxor temp (rd x i)), upd y i (Z.lxor temp (rd y i))))
    xy.

(** The limb-wise results of the masked exchange. *)
Definition cswap_fst (option p q : digit_t) : digit_t :=
  Z.lxor (Z.land option (Z.lxor p q)) p.
Definition cswap_snd (option p q : digit_t) : digit_t :=
  Z.lxor (Z.land option (Z.lxor p q)) q.

Fixpoint map2 {A B C : Type} (f : A -> B -> C) (x : list A) (y : list B) : list C :=
  match x, y with
  | a :: x', b :: y' => f a b :: map2 f x' y'
  | _, _ => []
  end.

(** Two loop bodies running side by side on a pair of states. *)
Definition pair_body {S1 S2 : Type} (b1 : nat -> S1 -> S1) (b2 : nat -> S2 -> S2)
  : nat -> S1 * S2 -> S1 * S2 :=
  fun i s => (b1 i (fst s), b2 i (snd s)).

(** The loop body of [cswap_limbs]. *)
Definition cswap_body (option : digit_t) (i : nat)
  (xy : list digit_t * list digit_t) : list digit_t * list digit_t :=
  let temp := Z.land option (Z.lxor (rd (fst xy) i) (rd (snd xy) i)) in
  (upd (fst xy) i (Z.lxor temp (rd (fst xy) i)),
   upd (snd xy) i (Z.lxor temp (rd (snd xy) i))).

(** An array of [NWORDS_FIELD] machine words. *)
Definition felm_wf (x : felm_t) : Prop :=
  length x = NWORDS_FIELD /\ digits_ok x.

Definition f2elm_wf (a : f2elm_t) : Prop :=
  felm_wf (fst a) /\ felm_wf (snd a).

Definition point_basefield_wf (P : point_basefield_proj) : Prop :=
  felm_wf (bX P) /\ felm_wf (bZ P).

Definition point_wf (P : point_proj) : Prop :=
  f2elm_wf (pX P) /\ f2elm_wf (pZ P).

(** Points whose coordinate arrays have [NWORDS_FIELD] entries, whatever the
    entries hold. *)
Definition point_basefield_sized (P : point_basefield_proj) : Prop :=
  length (bX P) = NWORDS_FIELD /\ length (bZ P) = NWORDS_FIELD.

Definition point_sized (P : point_proj) : Prop :=
  (length (fst (pX P)) = NWORDS_FIELD /\ length (snd (pX P)) = NWORDS_FIELD) /\
  (length (fst (pZ P)) = NWORDS_FIELD /\ length (snd (pZ P)) = NWORDS_FIELD).

(** Sample inputs. *)
Definition sample_felm (k : Z) : felm_t :=
  [k; k + 1; k + 2; k + 3; k + 4; k + 5; k + 6; k + 7; k + 8; k + 9; k + 10; k + 11].

Definition sample_P : point_proj :=
  mkPoint (sample_felm 1, sample_felm 20) (sample_felm 40, sample_felm 60).
Definition sample_Q : point_proj :=
  mkPoint (sample_felm 101, sample_felm 120) (sample_felm 140, sample_felm 160).
Definition sample_Pb : point_basefield_proj :=
  mkPointBF (sample_felm 1) (sample_felm 20).
Definition sample_Qb : point_basefield_proj :=
  mkPointBF (sample_felm 101) (sample_felm 120).

(** ** Relating two runs of the inversion program *)

Section FrameRel.
Context {T1 T2 : Type}.
Variable R : T1 -> T2 -> Prop.

(** Two frames hold related values in every variable and have recorded
    the same calls. *)
Definition frame_rel (f1 : frame T1) (f2 : frame T2) : Prop :=
  R (fr_a f1) (fr_a f2) /\
  R (fr_tt f1) (fr_tt f2) /\
  Forall2 R (fr_t f1) (fr_t f2) /\
  fr_calls f1 = fr_calls f2.

Definition prog_rel (p1 : frame T1 -> frame T1) (p2 : frame T2 -> frame T2)
  : Prop :=
  forall f1 f2, frame_rel f1 f2 -> frame_rel (p1 f1) (p2 f2).
End FrameRel.

(** The exponent interpretation: a variable holds the exponent [e] of the
    power of the input it contains, or nothing before it is written. *)
#[export] Instance ExpOps : FpOps (option Z) := {
  op_fpmul751_mont x y :=
    match x, y with
    | Some e1, Some e2 => Some (e1 + e2)
    | _, _ => None
    end;
  op_fpsqr751_mont x :=
    match x with
    | Some e => Some (e + e)
    | None => None
    end;
  op_fpcopy751 x _ := x;
  op_uninit := None
}.

(** The calls of the chain, read off the exponent interpretation. *)
Definition fpinv751_chain : list call :=
  Eval vm_compute in fr_calls (fpinv751_mont_body (enter (Some 1))).

Definition is_fpsqr (c : call) : bool :=
  match c with Call_fpsqr _ _ => true | Call_fpmul _ _ _ => false end.
Definition is_fpmul (c : call) : bool :=
  match c with Call_fpsqr _ _ => false | Call_fpmul _ _ _ => true end.

(** The Montgomery power: [x] is the reduced [e]-fold Montgomery product of
    [a]; a variable that is not yet written only has its size. *)
Definition mont_power (a : felm_t) (x : felm_t) (oe : option Z) : Prop :=
  match oe with
  | None => felm_wf x
  | Some e => felm_ok x /\ 1 <= e /\
              val x = (val a ^ e * Montgomery_Rinv ^ (e - 1)) mod p751z
  end.

(** The field elements 0, 1 and 2 in standard representation. *)
Definition felm_zero : felm_t := repeat 0 NWORDS_FIELD.
Definition felm_one : felm_t := upd (repeat 0 NWORDS_FIELD) 0%nat 1.
Definition felm_two : felm_t := upd (repeat 0 NWORDS_FIELD) 0%nat 2.

(** An output buffer for an element of GF(p751^2). *)
Definition f2elm_sized (z : f2elm_t) : Prop :=
  length (fst z) = NWORDS_FIELD /\ length (snd z) = NWORDS_FIELD.

(** Points with reduced coordinates. *)
Definition point_basefield_ok (P : point_basefield_proj) : Prop :=
  felm_ok (bX P) /\ felm_ok (bZ P).

Definition point_ok (P : point_proj) : Prop :=
  f2elm_ok (pX P) /\ f2elm_ok (pZ P).

(** ** Gaussian integers modulo [n]: the primality certificate of p751

    [p751 + 1 = 2^372 * 3^239] is smooth, so the primality of [p751] follows
    from an element of order [p751 + 1] among the pairs [x + y*i] modulo
    [p751].  The pairs are computed on [Z]; the certificate is evaluated on
    [bigZ]. *)

Definition gmul (n : Z) (a b : Z * Z) : Z * Z :=
  ((fst a * fst b - snd a * snd b) mod n,
   (fst a * snd b + snd a * fst b) mod n).

Definition gone : Z * Z := (1, 0).

Definition gpow (n : Z) (a : Z * Z) (k : Z) : Z * Z :=
  match k with
  | Z.pos p => Pos.iter_op (gmul n) p a
  | _ => gone
  end.

(** Reduction of a pair modulo [q], and its code in [[0, q*q)]. *)
Definition gred (q : Z) (a : Z * Z) : Z * Z := (fst a mod q, snd a mod q).
Definition gcode (q : Z) (a : Z * Z) : Z := fst a * q + snd a.
Definition greduced (q : Z) (a : Z * Z) : Prop := gred q a = a.

Definition bgmul (n : bigZ) (a b : bigZ * bigZ) : bigZ * bigZ :=
  (((fst a * fst b - snd a * snd b) mod n)%bigZ,
   ((fst a * snd b + snd a * fst b) mod n)%bigZ).

Definition bgpow (n : bigZ) (a : bigZ * bigZ) (p : positive) : bigZ * bigZ :=
  Pos.iter_op (bgmul n) p a.

Definition bg_to_Z (a : bigZ * bigZ) : Z * Z :=
  (BigZ.to_Z (fst a), BigZ.to_Z (snd a)).

Definition bg_of_Z (a : Z * Z) : bigZ * bigZ :=
  (BigZ.of_Z (fst a), BigZ.of_Z (snd a)).

(** The certificate: [alpha = (1 - 5i) / (1 + 5i) = (-12 - 5i) / 13]. *)
Definition cert_inv13 : Z := Eval vm_compute in (8 * p751z + 1) / 13.

Definition cert_alpha : Z * Z :=
  Eval vm_compute in ((-12 * cert_inv13) mod p751z, (-5 * cert_inv13) mod p751z).

Definition cert_order : positive := Eval vm_compute in Z.to_pos (p751z + 1).
Definition cert_order_2 : positive := Eval vm_compute in Z.to_pos ((p751z + 1) / 2).
Definition cert_order_3 : positive := Eval vm_compute in Z.to_pos ((p751z + 1) / 3).

(** [alpha ^ ((p751 + 1) / 2)] and [alpha ^ ((p751 + 1) / 3)]. *)
Definition cert_pow_2 : Z * Z :=
  Eval vm_compute in
    bg_to_Z (bgpow (BigZ.of_Z p751z) (bg_of_Z cert_alpha) cert_order_2).

Definition cert_pow_3 : Z * Z :=
  Eval vm_compute in
    bg_to_Z (bgpow (BigZ.of_Z p751z) (bg_of_Z cert_alpha) cert_order_3).

(** ** Further functions of fpx.c *)

Definition copy_words (a c : list digit_t) (nwords : nat) : list digit_t :=
  for_lt nwords (fun i c => upd c i (rd a i)) c.

(** Conversion of a C value to [int] (32 bits, two's complement). *)
Definition to_int (v : Z) : Z :=
  let u := to_uint v in
  if u <? 2 ^ 31 then u else u - 2 ^ 32.

(** [nwords - 1] as the [unsigned int] the code computes. *)
Definition nwords_minus_1 (nwords : nat) : Z := to_uint (Z.of_nat nwords - 1).

(** Modelled from the spec: the macro
    [SHIFTR(highIn, lowIn, shift, shiftOut, DigitSize)] of the missing header
    SIDH_internal.h; the spec describes the shifts as single-bit shifts that
    propagate across digit boundaries: the low digit is shifted right and
    receives the low bits of the high digit on top. *)
Definition SHIFTR (highIn lowIn shift DigitSize : Z) : digit_t :=
  Z.lxor (Z.shiftr lowIn shift) (to_digit (Z.shiftl highIn (DigitSize - shift))).

(** Modelled from the spec: the macro
    [SHIFTL(highIn, lowIn, shift, shiftOut, DigitSize)] of the missing header;
    the high digit is shifted left and receives the top bits of the low
    digit at the bottom. *)
Definition SHIFTL (highIn lowIn shift DigitSize : Z) : digit_t :=
  Z.lxor (to_digit (Z.shiftl highIn shift)) (Z.shiftr lowIn (DigitSize - shift)).

Definition mp_shiftr1 (x : list digit_t) (nwords : nat) : list digit_t :=
  let x :=
    for_lt (Z.to_nat (nwords_minus_1 nwords))
      (fun i x => upd x i (SHIFTR (rd x (i + 1)) (rd x i) 1 RADIX)) x in
  upd x (Z.to_nat (nwords_minus_1 nwords))
      (Z.shiftr (rd x (Z.to_nat (nwords_minus_1 nwords))) 1).

(** [for (i = n; i > 0; i--) body]. *)
Fixpoint for_downto1 {S : Type} (n : nat) (body : nat -> S -> S) (s : S) : S :=
  match n with
  | O => s
  | Datatypes.S k => for_downto1 k body (body n s)
  end.

Definition mp_shiftl1 (x : list digit_t) (nwords : nat) : list digit_t :=
  let x :=
    for_downto1 (Z.to_nat (to_int (nwords_minus_1 nwords)))
      (fun i x => upd x i (SHIFTL (rd x i) (rd x (i - 1)) 1 RADIX)) x in
  upd x 0%nat (to_digit (Z.shiftl (rd x 0) 1)).

(** The loop of [power2_setup]; [mark] loses [RADIX] in every round, so the
    loop ends, and [fuel] bounds the number of rounds of the model. *)
Fixpoint power2_loop (fuel : nat) (x : felm_t) (mark : Z) (i : nat)
  : option felm_t :=
  match fuel with
  | O => None
  | Datatypes.S fuel' =>
      if 0 <=? mark then
        let x := if mark <? RADIX then upd x i (to_digit (Z.shiftl 1 mark)) else x in
        power2_loop fuel' x (mark - RADIX) (i + 1)
      else Some x
  end.

Definition power2_setup (fuel : nat) (x : felm_t) (mark : Z) : option felm_t :=
  let i := 0%nat in
  let x := fpzero751 x in
  power2_loop fuel x mark i.

(** The digits that [mp_shiftr1] leaves before its last step, and the digits
    that [mp_shiftl1] writes above digit 0. *)
Fixpoint shiftr_digits (l : list digit_t) : list digit_t :=
  match l with
  | d :: (e :: _) as t => SHIFTR e d 1 RADIX :: shiftr_digits t
  | _ => l
  end.

Fixpoint shiftl_digits (prev : digit_t) (l : list digit_t) : list digit_t :=
  match l with
  | [] => []
  | d :: r => SHIFTL d prev 1 RADIX :: shiftl_digits d r
  end.

(** The bitwise multiplexer: the bits of [y] where [option] has a 1, the
    bits of [x] elsewhere. *)
Definition bit_select (option x y : digit_t) : digit_t :=
  Z.lor (Z.land x (Z.lnot option)) (Z.land y option).

(** Sample arrays. *)
Definition sample_words (k : Z) : list digit_t :=
  [wB - k; wB - 1; k].

(** The class of an integer in the field of [p751] elements. *)
Abbreviation fq := (Zmod.of_Z p751z).

(* ================================================================== *)
(** * Part II: properties                                              *)
(* ================================================================== *)

(** ** Loops *)

Lemma for_from_rel {S1 S2 : Type} (R : S1 -> S2 -> Prop)
      (body1 : nat -> S1 -> S1) (body2 : nat -> S2 -> S2) :
  (forall i s1 s2, R s1 s2 -> R (body1 i s1) (body2 i s2)) ->
  forall count lo s1 s2,
    R s1 s2 -> R (for_from lo count body1 s1) (for_from lo count body2 s2).
Proof.
  intros Hstep. induction count as [|c IH]; intros lo s1 s2 H; simpl; auto.
Qed.

Lemma for_from_pair {S1 S2 : Type} (b1 : nat -> S1 -> S1) (b2 : nat -> S2 -> S2) :
  forall count lo s,
    for_from lo count (pair_body b1 b2) s
    = (for_from lo count b1 (fst s), for_from lo count b2 (snd s)).
Proof.
  induction count as [|c IH]; intros lo [s1 s2]; simpl; [reflexivity|apply IH].
Qed.

Lemma for_from_ext {S : Type} (b1 b2 : nat -> S -> S) :
  (forall i s, b1 i s = b2 i s) ->
  forall count lo s, for_from lo count b1 s = for_from lo count b2 s.
Proof.
  intros E. induction count as [|c IH]; intros lo s; simpl; [reflexivity|].
  rewrite E. apply IH.
Qed.

(** ** Arrays *)

Lemma upd_app_length {T : Type} (pre : list T) (x v : T) (rest : list T) :
  upd (pre ++ x :: rest) (length pre) v = pre ++ v :: rest.
Proof.
  induction pre as [|y pre IH]; simpl; [reflexivity|now rewrite IH].
Qed.

Lemma rd_app_length (pre : list digit_t) (x : digit_t) (rest : list digit_t) :
  rd (pre ++ x :: rest) (length pre) = x.
Proof.
  unfold rd. induction pre as [|y pre IH]; simpl; [reflexivity|exact IH].
Qed.

Lemma snoc_assoc {T : Type} (pre : list T) (x : T) (rest : list T) :
  pre ++ x :: rest = (pre ++ [x]) ++ rest.
Proof. now rewrite <- app_assoc. Qed.

Lemma length_snoc {T : Type} (pre : list T) (x : T) :
  length (pre ++ [x]) = Datatypes.S (length pre).
Proof. rewrite length_app; simpl; lia. Qed.

Lemma length_map2 {A B C : Type} (f : A -> B -> C) (x : list A) (y : list B) :
  length x = length y -> length (map2 f x y) = length x.
Proof.
  revert y; induction x as [|a x IH]; intros [|b y]; simpl; intros H;
    try discriminate; auto.
Qed.

(** ** The masked exchange of two arrays *)

Lemma cswap_loop_closed (option : digit_t) :
  forall (rx ry px py : list digit_t),
    length px = length py ->
    length rx = length ry ->
    for_from (length px) (length rx)
      (fun i '(x, y) =>
         let temp := Z.land option (Z.lxor (rd x i) (rd y i)) in
         (upd x i (Z.lxor temp (rd x i)), upd y i (Z.lxor temp (rd y i))))
      (px ++ rx, py ++ ry)
    = (px ++ map2 (cswap_fst option) rx ry, py ++ map2 (cswap_snd option) rx ry).
Proof.
  induction rx as [|p rx IH]; intros [|q ry] px py Hp Hr; simpl in *;
    try discriminate; [reflexivity|].
  injection Hr as Hr.
  rewrite rd_app_length, upd_app_length.
  rewrite Hp, rd_app_length, upd_app_length, <- Hp.
  rewrite (snoc_assoc px), (snoc_assoc py).
  rewrite <- (length_snoc px (Z.lxor (Z.land option (Z.lxor p q)) p)).
  rewrite IH; [|rewrite !length_snoc; lia|exact Hr].
  now rewrite <- !snoc_assoc.
Qed.

Lemma cswap_limbs_closed (option : digit_t) (x y : list digit_t) :
  length x = length y ->
  cswap_limbs option (length x) (x, y)
  = (map2 (cswap_fst option) x y, map2 (cswap_snd option) x y).
Proof.
  intros H. unfold cswap_limbs, for_lt.
  exact (cswap_loop_closed option x y [] [] eq_refl H).
Qed.

Lemma cswap_limbs_body (option : digit_t) (n : nat) (xy : list digit_t * list digit_t) :
  cswap_limbs option n xy = for_from 0 n (cswap_body option) xy.
Proof.
  unfold cswap_limbs, for_lt. apply for_from_ext. now intros i [x y].
Qed.

(** [swap_points_basefield] runs the masked exchange on [X] and on [Z]. *)
Lemma swap_points_basefield_limbs (P Q : point_basefield_proj) (option : digit_t) :
  swap_points_basefield P Q option =
  (mkPointBF (fst (cswap_limbs option NWORDS_FIELD (bX P, bX Q)))
             (fst (cswap_limbs option NWORDS_FIELD (bZ P, bZ Q))),
   mkPointBF (snd (cswap_limbs option NWORDS_FIELD (bX P, bX Q)))
             (snd (cswap_limbs option NWORDS_FIELD (bZ P, bZ Q)))).
Proof.
  rewrite !cswap_limbs_body.
  unfold swap_points_basefield, for_lt.
  generalize 0%nat. generalize NWORDS_FIELD. intros count; revert P Q.
  induction count as [|c IH]; intros P Q lo.
  - now destruct P, Q.
  - cbn [for_from]. rewrite IH. reflexivity.
Qed.

(** [swap_points] runs the masked exchange on the four coordinate arrays. *)
Lemma swap_points_limbs (P Q : point_proj) (option : digit_t) :
  swap_points P Q option =
  (mkPoint (fst (cswap_limbs option NWORDS_FIELD (fst (pX P), fst (pX Q))),
            fst (cswap_limbs option NWORDS_FIELD (snd (pX P), snd (pX Q))))
           (fst (cswap_limbs option NWORDS_FIELD (fst (pZ P), fst (pZ Q))),
            fst (cswap_limbs option NWORDS_FIELD (snd (pZ P), snd (pZ Q)))),
   mkPoint (snd (cswap_limbs option NWORDS_FIELD (fst (pX P), fst (pX Q))),
            snd (cswap_limbs option NWORDS_FIELD (snd (pX P), snd (pX Q))))
           (snd (cswap_limbs option NWORDS_FIELD (fst (pZ P), fst (pZ Q))),
            snd (cswap_limbs option NWORDS_FIELD (snd (pZ P), snd (pZ Q))))).
Proof.
  rewrite !cswap_limbs_body.
  unfold swap_points, for_lt.
  generalize 0%nat. generalize NWORDS_FIELD. intros count; revert P Q.
  induction count as [|c IH]; intros P Q lo.
  - now destruct P as [[? ?] [? ?]], Q as [[? ?] [? ?]].
  - cbn [for_from]. rewrite IH. reflexivity.
Qed.

(** *** Limb-wise facts about the masked exchange *)

Lemma cswap_fst_zero (p q : digit_t) : cswap_fst 0 p q = p.
Proof. unfold cswap_fst. now rewrite Z.land_0_l, Z.lxor_0_l. Qed.

Lemma cswap_snd_zero (p q : digit_t) : cswap_snd 0 p q = q.
Proof. unfold cswap_snd. now rewrite Z.land_0_l, Z.lxor_0_l. Qed.

Lemma digit_land_ones (d : digit_t) : 0 <= d < wB -> Z.land d (Z.ones RADIX) = d.
Proof.
  intros H. rewrite Z.land_ones by (unfold RADIX; lia).
  apply Z.mod_small. exact H.
Qed.

Lemma land_lxor_distr (p q m : Z) :
  Z.land (Z.lxor p q) m = Z.lxor (Z.land p m) (Z.land q m).
Proof.
  apply Z.bits_inj'. intros n Hn.
  rewrite Z.land_spec, !Z.lxor_spec, !Z.land_spec.
  now destruct (Z.testbit p n), (Z.testbit q n), (Z.testbit m n).
Qed.

Lemma mask_ones_land (p q : digit_t) :
  0 <= p < wB -> 0 <= q < wB ->
  Z.land mask_ones (Z.lxor p q) = Z.lxor p q.
Proof.
  intros Hp Hq.
  replace mask_ones with (Z.ones RADIX) by reflexivity.
  rewrite Z.land_comm.
  rewrite <- (digit_land_ones p Hp) at 2.
  rewrite <- (digit_land_ones q Hq) at 2.
  now rewrite <- land_lxor_distr.
Qed.

Lemma cswap_fst_ones (p q : digit_t) :
  0 <= p < wB -> 0 <= q < wB -> cswap_fst mask_ones p q = q.
Proof.
  intros Hp Hq. unfold cswap_fst. rewrite mask_ones_land by assumption.
  now rewrite (Z.lxor_comm p q), Z.lxor_assoc, Z.lxor_nilpotent, Z.lxor_0_r.
Qed.

Lemma cswap_snd_ones (p q : digit_t) :
  0 <= p < wB -> 0 <= q < wB -> cswap_snd mask_ones p q = p.
Proof.
  intros Hp Hq. unfold cswap_snd. rewrite mask_ones_land by assumption.
  now rewrite Z.lxor_assoc, Z.lxor_nilpotent, Z.lxor_0_r.
Qed.

Lemma cswap_lxor (option p q : digit_t) :
  Z.lxor (cswap_fst option p q) (cswap_snd option p q) = Z.lxor p q.
Proof.
  unfold cswap_fst, cswap_snd.
  set (t := Z.land option (Z.lxor p q)).
  rewrite Z.lxor_assoc, <- (Z.lxor_assoc p t q), (Z.lxor_comm p t).
  now rewrite Z.lxor_assoc, <- Z.lxor_assoc, Z.lxor_nilpotent, Z.lxor_0_l.
Qed.

Lemma cswap_fst_twice (option p q : digit_t) :
  cswap_fst option (cswap_fst option p q) (cswap_snd option p q) = p.
Proof.
  unfold cswap_fst at 1. rewrite cswap_lxor. unfold cswap_fst.
  now rewrite <- Z.lxor_assoc, Z.lxor_nilpotent, Z.lxor_0_l.
Qed.

Lemma cswap_snd_twice (option p q : digit_t) :
  cswap_snd option (cswap_fst option p q) (cswap_snd option p q) = q.
Proof.
  unfold cswap_snd at 1. rewrite cswap_lxor. unfold cswap_snd.
  now rewrite <- Z.lxor_assoc, Z.lxor_nilpotent, Z.lxor_0_l.
Qed.

(** *** Array-wise facts *)

Lemma map2_fst_zero (x y : list digit_t) :
  length x = length y -> map2 (cswap_fst 0) x y = x.
Proof.
  revert y; induction x as [|p x IH]; intros [|q y] H; simpl in *;
    try discriminate; [reflexivity|].
  now rewrite cswap_fst_zero, IH by lia.
Qed.

Lemma map2_snd_zero (x y : list digit_t) :
  length x = length y -> map2 (cswap_snd 0) x y = y.
Proof.
  revert y; induction x as [|p x IH]; intros [|q y] H; simpl in *;
    try discriminate; [reflexivity|].
  now rewrite cswap_snd_zero, IH by lia.
Qed.

Lemma map2_fst_ones (x y : list digit_t) :
  length x = length y -> digits_ok x -> digits_ok y ->
  map2 (cswap_fst mask_ones) x y = y.
Proof.
  revert y; induction x as [|p x IH]; intros [|q y] H Hx Hy; simpl in *;
    try discriminate; [reflexivity|].
  inversion Hx; inversion Hy; subst.
  now rewrite cswap_fst_ones, IH by (assumption || lia).
Qed.

Lemma map2_snd_ones (x y : list digit_t) :
  length x = length y -> digits_ok x -> digits_ok y ->
  map2 (cswap_snd mask_ones) x y = x.
Proof.
  revert y; induction x as [|p x IH]; intros [|q y] H Hx Hy; simpl in *;
    try discriminate; [reflexivity|].
  inversion Hx; inversion Hy; subst.
  now rewrite cswap_snd_ones, IH by (assumption || lia).
Qed.

Lemma map2_fst_twice (option : digit_t) (x y : list digit_t) :
  length x = length y ->
  map2 (cswap_fst option) (map2 (cswap_fst option) x y) (map2 (cswap_snd option) x y) = x.
Proof.
  revert y; induction x as [|p x IH]; intros [|q y] H; simpl in *;
    try discriminate; [reflexivity|].
  now rewrite cswap_fst_twice, IH by lia.
Qed.

Lemma map2_snd_twice (option : digit_t) (x y : list digit_t) :
  length x = length y ->
  map2 (cswap_snd option) (map2 (cswap_fst option) x y) (map2 (cswap_snd option) x y) = y.
Proof.
  revert y; induction x as [|p x IH]; intros [|q y] H; simpl in *;
    try discriminate; [reflexivity|].
  now rewrite cswap_snd_twice, IH by lia.
Qed.

(** The masked exchange of two [NWORDS_FIELD]-digit arrays, in closed form. *)
Lemma cswap_felm (option : digit_t) (x y : felm_t) :
  length x = NWORDS_FIELD -> length y = NWORDS_FIELD ->
  cswap_limbs option NWORDS_FIELD (x, y)
  = (map2 (cswap_fst option) x y, map2 (cswap_snd option) x y).
Proof.
  intros Hx Hy. rewrite <- Hx. apply cswap_limbs_closed. congruence.
Qed.

Lemma cswap_felm_zero (x y : felm_t) :
  length x = NWORDS_FIELD -> length y = NWORDS_FIELD ->
  cswap_limbs 0 NWORDS_FIELD (x, y) = (x, y).
Proof.
  intros Hx Hy. rewrite cswap_felm by assumption.
  now rewrite map2_fst_zero, map2_snd_zero by congruence.
Qed.

Lemma cswap_felm_ones (x y : felm_t) :
  felm_wf x -> felm_wf y ->
  cswap_limbs mask_ones NWORDS_FIELD (x, y) = (y, x).
Proof.
  intros [Hx Dx] [Hy Dy]. rewrite cswap_felm by assumption.
  now rewrite map2_fst_ones, map2_snd_ones by (assumption || congruence).
Qed.

(** ** Swapping points *)

Lemma point_wf_sized (P : point_proj) : point_wf P -> point_sized P.
Proof. intros [[[? ?] [? ?]] [[? ?] [? ?]]]. repeat split; assumption. Qed.

Lemma point_basefield_wf_sized (P : point_basefield_proj) :
  point_basefield_wf P -> point_basefield_sized P.
Proof. intros [[? ?] [? ?]]. split; assumption. Qed.

Lemma swap_points_zero (P Q : point_proj) :
  point_sized P -> point_sized Q -> swap_points P Q 0 = (P, Q).
Proof.
  intros [[? ?] [? ?]] [[? ?] [? ?]].
  rewrite swap_points_limbs, !cswap_felm_zero by assumption.
  now destruct P as [[? ?] [? ?]], Q as [[? ?] [? ?]].
Qed.

Lemma swap_points_ones (P Q : point_proj) :
  point_wf P -> point_wf Q -> swap_points P Q mask_ones = (Q, P).
Proof.
  intros [[? ?] [? ?]] [[? ?] [? ?]].
  rewrite swap_points_limbs, !cswap_felm_ones by assumption.
  now destruct P as [[? ?] [? ?]], Q as [[? ?] [? ?]].
Qed.

Lemma swap_points_basefield_zero (P Q : point_basefield_proj) :
  point_basefield_sized P -> point_basefield_sized Q ->
  swap_points_basefield P Q 0 = (P, Q).
Proof.
  intros [? ?] [? ?].
  rewrite swap_points_basefield_limbs, !cswap_felm_zero by assumption.
  now destruct P, Q.
Qed.

Lemma swap_points_basefield_ones (P Q : point_basefield_proj) :
  point_basefield_wf P -> point_basefield_wf Q ->
  swap_points_basefield P Q mask_ones = (Q, P).
Proof.
  intros [? ?] [? ?].
  rewrite swap_points_basefield_limbs, !cswap_felm_ones by assumption.
  now destruct P, Q.
Qed.

(** C8: with the all-zero mask [swap_points] and [swap_points_basefield]
    leave every limb of both points unchanged; with the all-one mask they
    exchange the contents of the two points, and a second exchange with the
    all-one mask restores the original pair. *)
Theorem swap_points_masks (P Q : point_proj) (Pb Qb : point_basefield_proj) :
  point_wf P -> point_wf Q ->
  point_basefield_wf Pb -> point_basefield_wf Qb ->
  (swap_points P Q 0 = (P, Q) /\
   swap_points P Q mask_ones = (Q, P) /\
   swap_points (fst (swap_points P Q mask_ones))
               (snd (swap_points P Q mask_ones)) mask_ones = (P, Q)) /\
  (swap_points_basefield Pb Qb 0 = (Pb, Qb) /\
   swap_points_basefield Pb Qb mask_ones = (Qb, Pb) /\
   swap_points_basefield (fst (swap_points_basefield Pb Qb mask_ones))
                         (snd (swap_points_basefield Pb Qb mask_ones)) mask_ones
   = (Pb, Qb)).
Proof.
  intros HP HQ HPb HQb. split; repeat split.
  - apply swap_points_zero; now apply point_wf_sized.
  - now apply swap_points_ones.
  - rewrite (swap_points_ones P Q HP HQ). now apply swap_points_ones.
  - apply swap_points_basefield_zero; now apply point_basefield_wf_sized.
  - now apply swap_points_basefield_ones.
  - rewrite (swap_points_basefield_ones Pb Qb HPb HQb).
    now apply swap_points_basefield_ones.
Qed.

Lemma sample_P_wf : point_wf sample_P.
Proof. repeat split; try reflexivity; repeat constructor; vm_compute; congruence. Defined.

Lemma sample_Q_wf : point_wf sample_Q.
Proof. repeat split; try reflexivity; repeat constructor; vm_compute; congruence. Defined.

Lemma sample_Pb_wf : point_basefield_wf sample_Pb.
Proof. repeat split; try reflexivity; repeat constructor; vm_compute; congruence. Defined.

Lemma sample_Qb_wf : point_basefield_wf sample_Qb.
Proof. repeat split; try reflexivity; repeat constructor; vm_compute; congruence. Defined.

Lemma swap_points_masks_witness :
  (point_wf sample_P /\ point_wf sample_Q /\
   point_basefield_wf sample_Pb /\ point_basefield_wf sample_Qb) /\
  ((swap_points sample_P sample_Q 0 = (sample_P, sample_Q) /\
    swap_points sample_P sample_Q mask_ones = (sample_Q, sample_P) /\
    swap_points (fst (swap_points sample_P sample_Q mask_ones))
                (snd (swap_points sample_P sample_Q mask_ones)) mask_ones
    = (sample_P, sample_Q)) /\
   (swap_points_basefield sample_Pb sample_Qb 0 = (sample_Pb, sample_Qb) /\
    swap_points_basefield sample_Pb sample_Qb mask_ones = (sample_Qb, sample_Pb) /\
    swap_points_basefield (fst (swap_points_basefield sample_Pb sample_Qb mask_ones))
                          (snd (swap_points_basefield sample_Pb sample_Qb mask_ones))
                          mask_ones
    = (sample_Pb, sample_Qb))).
Proof.
  split.
  - repeat split; first [apply sample_P_wf | apply sample_Q_wf
                        | apply sample_Pb_wf | apply sample_Qb_wf].
  - apply (swap_points_masks sample_P sample_Q sample_Pb sample_Qb
             sample_P_wf sample_Q_wf sample_Pb_wf sample_Qb_wf).
Defined.

Lemma swap_points_closed (option : digit_t) (P Q : point_proj) :
  point_sized P -> point_sized Q ->
  swap_points P Q option =
  (mkPoint (map2 (cswap_fst option) (fst (pX P)) (fst (pX Q)),
            map2 (cswap_fst option) (snd (pX P)) (snd (pX Q)))
           (map2 (cswap_fst option) (fst (pZ P)) (fst (pZ Q)),
            map2 (cswap_fst option) (snd (pZ P)) (snd (pZ Q))),
   mkPoint (map2 (cswap_snd option) (fst (pX P)) (fst (pX Q)),
            map2 (cswap_snd option) (snd (pX P)) (snd (pX Q)))
           (map2 (cswap_snd option) (fst (pZ P)) (fst (pZ Q)),
            map2 (cswap_snd option) (snd (pZ P)) (snd (pZ Q)))).
Proof.
  intros [[? ?] [? ?]] [[? ?] [? ?]].
  rewrite swap_points_limbs, !cswap_felm by assumption. reflexivity.
Qed.

Lemma swap_points_basefield_closed (option : digit_t) (P Q : point_basefield_proj) :
  point_basefield_sized P -> point_basefield_sized Q ->
  swap_points_basefield P Q option =
  (mkPointBF (map2 (cswap_fst option) (bX P) (bX Q))
             (map2 (cswap_fst option) (bZ P) (bZ Q)),
   mkPointBF (map2 (cswap_snd option) (bX P) (bX Q))
             (map2 (cswap_snd option) (bZ P) (bZ Q))).
Proof.
  intros [? ?] [? ?].
  rewrite swap_points_basefield_limbs, !cswap_felm by assumption. reflexivity.
Qed.

(** C10: for every mask value, two successive calls of [swap_points]
    (respectively [swap_points_basefield]) with the same mask restore both
    points limb for limb. *)
Theorem swap_points_twice (option : digit_t) (P Q : point_proj)
        (Pb Qb : point_basefield_proj) :
  point_sized P -> point_sized Q ->
  point_basefield_sized Pb -> point_basefield_sized Qb ->
  swap_points (fst (swap_points P Q option))
              (snd (swap_points P Q option)) option = (P, Q) /\
  swap_points_basefield (fst (swap_points_basefield Pb Qb option))
                        (snd (swap_points_basefield Pb Qb option)) option
  = (Pb, Qb).
Proof.
  intros HP HQ HPb HQb. split.
  - rewrite (swap_points_closed option P Q HP HQ). cbn [fst snd].
    destruct HP as [[? ?] [? ?]], HQ as [[? ?] [? ?]].
    rewrite swap_points_closed;
      [|repeat split; cbn [pX pZ fst snd]; rewrite length_map2; congruence ..].
    cbn [pX pZ fst snd].
    rewrite !map2_fst_twice, !map2_snd_twice by congruence.
    now destruct P as [[? ?] [? ?]], Q as [[? ?] [? ?]].
  - rewrite (swap_points_basefield_closed option Pb Qb HPb HQb). cbn [fst snd].
    destruct HPb as [? ?], HQb as [? ?].
    rewrite swap_points_basefield_closed;
      [|split; cbn [bX bZ]; rewrite length_map2; congruence ..].
    cbn [bX bZ].
    rewrite !map2_fst_twice, !map2_snd_twice by congruence.
    now destruct Pb, Qb.
Qed.

Lemma swap_points_twice_witness :
  (point_sized sample_P /\ point_sized sample_Q /\
   point_basefield_sized sample_Pb /\ point_basefield_sized sample_Qb) /\
  (swap_points (fst (swap_points sample_P sample_Q 0x0F0F))
               (snd (swap_points sample_P sample_Q 0x0F0F)) 0x0F0F
   = (sample_P, sample_Q) /\
   swap_points_basefield (fst (swap_points_basefield sample_Pb sample_Qb 0x0F0F))
                         (snd (swap_points_basefield sample_Pb sample_Qb 0x0F0F))
                         0x0F0F
   = (sample_Pb, sample_Qb)).
Proof.
  split.
  - repeat split.
  - apply (swap_points_twice 0x0F0F sample_P sample_Q sample_Pb sample_Qb);
      repeat split.
Defined.

(** ** The comparison and zero tests *)

(** C3 (defect of the code): [is_felm_lt] adds up the digit-wise comparisons
    instead of deciding on the most significant differing digit; for
    [x = 2^64] and [y = 1] it answers 1 although [x > y]. *)
Theorem is_felm_lt_counts_digits :
  let x := [0; 1; 0; 0; 0; 0; 0; 0; 0; 0; 0; 0] in
  let y := [1; 0; 0; 0; 0; 0; 0; 0; 0; 0; 0; 0] in
  felm_ok x /\ felm_ok y /\ val y < val x /\ is_felm_lt x y = 1.
Proof.
  cbv zeta. repeat split; try reflexivity;
    repeat constructor; vm_compute; congruence.
Qed.

(** C4 (defect of the code): [is_felm_zero] returns the truncated OR of the
    digits, so it answers 0 for the zero element and 1 for the element 1;
    the truncation to [unsigned int] also gives 0 for [2^32]. *)
Theorem is_felm_zero_inverted :
  is_felm_zero (repeat 0 NWORDS_FIELD) = 0 /\
  is_felm_zero (1 :: repeat 0 11) = 1 /\
  is_felm_zero (2 ^ 32 :: repeat 0 11) = 0.
Proof. repeat split; reflexivity. Qed.

(** ** The inversion program: related runs *)

Section Simulation.
Context {T1 T2 : Type} {ops1 : FpOps T1} {ops2 : FpOps T2}.
Variable R : T1 -> T2 -> Prop.
Hypothesis R_mul : forall x x' y y',
    R x x' -> R y y' -> R (op_fpmul751_mont x y) (op_fpmul751_mont x' y').
Hypothesis R_sqr : forall x x',
    R x x' -> R (op_fpsqr751_mont x) (op_fpsqr751_mont x').
Hypothesis R_copy : forall x x' y y',
    R x x' -> R y y' -> R (op_fpcopy751 x y) (op_fpcopy751 x' y').
Hypothesis R_uninit : R op_uninit op_uninit.

Lemma Forall2_nth (l1 : list T1) (l2 : list T2) (i : nat) :
  Forall2 R l1 l2 -> R (nth i l1 op_uninit) (nth i l2 op_uninit).
Proof.
  intros H; revert i. induction H as [|x y l1 l2 Hxy H IH]; intros [|i];
    simpl; auto.
Qed.

Lemma Forall2_upd (l1 : list T1) (l2 : list T2) (i : nat) (v1 : T1) (v2 : T2) :
  Forall2 R l1 l2 -> R v1 v2 -> Forall2 R (upd l1 i v1) (upd l2 i v2).
Proof.
  intros H Hv; revert i. induction H as [|x y l1 l2 Hxy H IH]; intros [|i];
    simpl; auto.
Qed.

Lemma Forall2_repeat (n : nat) (v1 : T1) (v2 : T2) :
  R v1 v2 -> Forall2 R (repeat v1 n) (repeat v2 n).
Proof. intros H; induction n; simpl; auto. Qed.

Lemma load_rel (l : loc) (f1 : frame T1) (f2 : frame T2) :
  frame_rel R f1 f2 -> R (load l f1) (load l f2).
Proof.
  intros (Ha & Htt & Ht & _). destruct l; simpl; auto using Forall2_nth.
Qed.

Lemma store_rel (l : loc) (v1 : T1) (v2 : T2) (f1 : frame T1) (f2 : frame T2) :
  frame_rel R f1 f2 -> R v1 v2 -> frame_rel R (store l v1 f1) (store l v2 f2).
Proof.
  intros (Ha & Htt & Ht & Hc) Hv.
  destruct l; repeat split; simpl; auto using Forall2_upd.
Qed.

Lemma record_rel (c : call) (f1 : frame T1) (f2 : frame T2) :
  frame_rel R f1 f2 -> frame_rel R (record c f1) (record c f2).
Proof.
  intros (Ha & Htt & Ht & Hc). repeat split; simpl; auto. now rewrite Hc.
Qed.

Lemma call_fpsqr751_mont_rel (src dst : loc) :
  prog_rel R (call_fpsqr751_mont src dst) (call_fpsqr751_mont src dst).
Proof.
  intros f1 f2 H. unfold call_fpsqr751_mont.
  apply record_rel, store_rel; auto using load_rel.
Qed.

Lemma call_fpmul751_mont_rel (src1 src2 dst : loc) :
  prog_rel R (call_fpmul751_mont src1 src2 dst) (call_fpmul751_mont src1 src2 dst).
Proof.
  intros f1 f2 H. unfold call_fpmul751_mont.
  apply record_rel, store_rel; auto using load_rel.
Qed.

Lemma call_fpcopy751_rel (src dst : loc) :
  prog_rel R (call_fpcopy751 src dst) (call_fpcopy751 src dst).
Proof.
  intros f1 f2 H. unfold call_fpcopy751.
  apply store_rel; auto using load_rel.
Qed.

Lemma seq_rel (p1 q1 : frame T1 -> frame T1) (p2 q2 : frame T2 -> frame T2) :
  prog_rel R p1 p2 -> prog_rel R q1 q2 -> prog_rel R (p1 ;; q1) (p2 ;; q2).
Proof. intros Hp Hq f1 f2 H. unfold seq_. auto. Qed.

Lemma for_from_prog_rel (b1 : nat -> frame T1 -> frame T1)
      (b2 : nat -> frame T2 -> frame T2) (lo count : nat) :
  (forall i, prog_rel R (b1 i) (b2 i)) ->
  prog_rel R (for_from lo count b1) (for_from lo count b2).
Proof.
  intros Hb f1 f2 H. apply (for_from_rel (frame_rel R)); auto.
Qed.

Lemma for_lt_rel (b1 : nat -> frame T1 -> frame T1)
      (b2 : nat -> frame T2 -> frame T2) (n : nat) :
  (forall i, prog_rel R (b1 i) (b2 i)) ->
  prog_rel R (for_lt n b1) (for_lt n b2).
Proof. apply for_from_prog_rel. Qed.

Lemma for_le_rel (b1 : nat -> frame T1 -> frame T1)
      (b2 : nat -> frame T2 -> frame T2) (lo hi : nat) :
  (forall i, prog_rel R (b1 i) (b2 i)) ->
  prog_rel R (for_le lo hi b1) (for_le lo hi b2).
Proof. apply for_from_prog_rel. Qed.

Lemma enter_rel (a1 : T1) (a2 : T2) :
  R a1 a2 -> frame_rel R (enter a1) (enter a2).
Proof.
  intros H. repeat split; simpl; auto.
  apply (Forall2_repeat 27). exact R_uninit.
Qed.

(** Every step of the chain keeps the two runs related. *)
Lemma fpinv751_mont_body_rel :
  prog_rel R fpinv751_mont_body fpinv751_mont_body.
Proof.
  unfold fpinv751_mont_body.
  repeat match goal with
    | |- prog_rel _ (seq_ _ _) (seq_ _ _) => apply seq_rel
    | |- prog_rel _ (for_lt _ _) (for_lt _ _) => apply for_lt_rel; intros ?
    | |- prog_rel _ (for_le _ _ _) (for_le _ _ _) => apply for_le_rel; intros ?
    | |- prog_rel _ (call_fpsqr751_mont _ _) _ => apply call_fpsqr751_mont_rel
    | |- prog_rel _ (call_fpmul751_mont _ _ _) _ => apply call_fpmul751_mont_rel
    | |- prog_rel _ (call_fpcopy751 _ _) _ => apply call_fpcopy751_rel
    end.
Qed.

Lemma fpinv751_mont_run_rel (a1 : T1) (a2 : T2) :
  R a1 a2 ->
  frame_rel R (fpinv751_mont_body (enter a1)) (fpinv751_mont_body (enter a2)).
Proof. intros H. apply fpinv751_mont_body_rel, enter_rel, H. Qed.
End Simulation.

(** The calls of [fpinv751_mont] on any input are those of the chain. *)
Lemma fpinv751_mont_calls_chain (a : felm_t) :
  fpinv751_mont_calls a = fpinv751_chain.
Proof.
  unfold fpinv751_mont_calls.
  pose proof (fpinv751_mont_run_rel (ops1 := Fp751) (ops2 := ExpOps)
                (fun _ _ => True)) as H.
  destruct (H ltac:(auto) ltac:(auto) ltac:(auto) I a (Some 1) I)
    as (_ & _ & _ & Hc).
  rewrite Hc. vm_compute. reflexivity.
Qed.

(** C9: the sequence of [fpsqr751_mont] and [fpmul751_mont] calls made by
    [fpinv751_mont], with the variables and table entries they read and
    write, is the same for every input: it is the fixed chain, with 751
    squarings and 147 multiplications. *)
Theorem fpinv751_mont_calls_fixed (a b : felm_t) :
  fpinv751_mont_calls a = fpinv751_mont_calls b /\
  fpinv751_mont_calls a = fpinv751_chain /\
  length (filter is_fpsqr (fpinv751_mont_calls a)) = 751%nat /\
  length (filter is_fpmul (fpinv751_mont_calls a)) = 147%nat.
Proof.
  rewrite !fpinv751_mont_calls_chain. repeat split; vm_compute; reflexivity.
Qed.

(** ** Digit arrays and the integers they hold *)

Lemma wB_eq : wB = 18446744073709551616.
Proof. reflexivity. Qed.

Lemma wB_pos : 0 < wB.
Proof. rewrite wB_eq. lia. Qed.

Lemma wB_pow_pos (n : nat) : 0 < wB ^ Z.of_nat n.
Proof. apply Z.pow_pos_nonneg; [apply wB_pos | lia]. Qed.

Lemma wB_pow_succ (n : nat) : wB ^ Z.of_nat (S n) = wB * wB ^ Z.of_nat n.
Proof. rewrite Nat2Z.inj_succ, Z.pow_succ_r by lia. reflexivity. Qed.

Lemma val_bound (x : list digit_t) :
  digits_ok x -> 0 <= val x < wB ^ Z.of_nat (length x).
Proof.
  induction 1 as [|d x Hd Hx IH]; cbn [val length].
  - change (Z.of_nat 0) with 0. rewrite Z.pow_0_r. lia.
  - rewrite wB_pow_succ. pose proof wB_pos. nia.
Qed.

Lemma val_app (x y : list digit_t) :
  val (x ++ y) = val x + wB ^ Z.of_nat (length x) * val y.
Proof.
  induction x as [|d x IH]; cbn [val length app].
  - change (Z.of_nat 0) with 0. rewrite Z.pow_0_r. lia.
  - rewrite IH, wB_pow_succ. ring.
Qed.

Lemma length_to_digits (n : nat) (v : Z) : length (to_digits n v) = n.
Proof. revert v; induction n; intros v; simpl; auto. Qed.

Lemma digits_ok_to_digits (n : nat) (v : Z) : digits_ok (to_digits n v).
Proof.
  revert v; induction n; intros v; simpl; constructor.
  - apply Z.mod_pos_bound, wB_pos.
  - apply IHn.
Qed.

Lemma val_to_digits_mod (n : nat) (v : Z) :
  val (to_digits n v) = v mod wB ^ Z.of_nat n.
Proof.
  revert v; induction n as [|n IH]; intros v; cbn [to_digits val].
  - change (Z.of_nat 0) with 0. now rewrite Z.pow_0_r, Z.mod_1_r.
  - rewrite IH, wB_pow_succ.
    pose proof wB_pos. pose proof (wB_pow_pos n).
    rewrite Z.rem_mul_r by lia. reflexivity.
Qed.

Lemma val_to_digits (n : nat) (v : Z) :
  0 <= v < wB ^ Z.of_nat n -> val (to_digits n v) = v.
Proof. intros H. rewrite val_to_digits_mod. now apply Z.mod_small. Qed.

Lemma to_digits_val (x : list digit_t) :
  digits_ok x -> to_digits (length x) (val x) = x.
Proof.
  induction 1 as [|d x Hd Hx IH]; cbn [val length to_digits]; [reflexivity|].
  pose proof wB_pos.
  replace (d + wB * val x) with (d + val x * wB) by ring.
  rewrite Z.mod_add, Z.div_add by lia.
  rewrite Z.mod_small, Z.div_small by lia.
  now rewrite Z.add_0_l, IH.
Qed.

Lemma felm_ok_wf (x : felm_t) : felm_ok x -> felm_wf x.
Proof. intros (H1 & H2 & _). now split. Qed.

Lemma digits_ok_repeat0 (n : nat) : digits_ok (repeat 0 n).
Proof.
  induction n; simpl; constructor; auto. pose proof wB_pos. lia.
Qed.

(** ** The prime and the Montgomery constants *)

Lemma p751z_smooth : p751z + 1 = 2 ^ 372 * 3 ^ 239.
Proof. reflexivity. Qed.

Lemma p751z_pos : 1 < p751z.
Proof. reflexivity. Qed.

Lemma p751z_lt_R : p751z < Mont_R.
Proof. reflexivity. Qed.

Lemma p751z_bits : 4 * p751z < Mont_R.
Proof. reflexivity. Qed.

Lemma Mont_R_eq : Mont_R = wB ^ Z.of_nat NWORDS_FIELD.
Proof. reflexivity. Qed.

Lemma Mont_RR_eq : Mont_R * Mont_R = wB ^ Z.of_nat (2 * NWORDS_FIELD).
Proof. reflexivity. Qed.

Lemma Montgomery_Rinv_spec : (Mont_R * Montgomery_Rinv) mod p751z = 1.
Proof. reflexivity. Qed.

Lemma Montgomery_R2_spec : val Montgomery_R2 = (Mont_R * Mont_R) mod p751z.
Proof. reflexivity. Qed.

Lemma Montgomery_R2_wf : felm_ok Montgomery_R2.
Proof.
  repeat split; try reflexivity.
  repeat constructor; vm_compute; congruence.
Qed.

Lemma p751_wf : felm_wf p751.
Proof.
  split; [reflexivity|]. repeat constructor; vm_compute; congruence.
Qed.

Lemma val_p751 : val p751 = p751z.
Proof. reflexivity. Qed.

(** ** Ripple-carry addition and ripple-borrow subtraction *)

Lemma ADDC_spec (c d e : Z) :
  0 <= c <= 1 -> 0 <= d < wB -> 0 <= e < wB ->
  0 <= fst (ADDC c d e) <= 1 /\
  0 <= snd (ADDC c d e) < wB /\
  snd (ADDC c d e) + 1 * fst (ADDC c d e) * wB = d + 1 * (e + c).
Proof.
  intros Hc Hd He. unfold ADDC; cbn [fst snd]. pose proof wB_pos.
  pose proof (Z.mod_pos_bound (d + e + c) wB ltac:(lia)).
  pose proof (Z.div_mod (d + e + c) wB ltac:(lia)).
  assert (0 <= (d + e + c) / wB) by (apply Z.div_pos; lia).
  assert ((d + e + c) / wB < 2) by (apply Z.div_lt_upper_bound; lia).
  lia.
Qed.

Lemma SUBC_spec (c d e : Z) :
  0 <= c <= 1 -> 0 <= d < wB -> 0 <= e < wB ->
  0 <= fst (SUBC c d e) <= 1 /\
  0 <= snd (SUBC c d e) < wB /\
  snd (SUBC c d e) + (-1) * fst (SUBC c d e) * wB = d + (-1) * (e + c).
Proof.
  intros Hc Hd He. unfold SUBC; cbn [fst snd]. pose proof wB_pos.
  pose proof (Z.mod_pos_bound (d - e - c) wB ltac:(lia)).
  destruct (Z.ltb_spec (d - e - c) 0) as [Hlt|Hge].
  - replace ((d - e - c) mod wB) with (d - e - c + wB).
    + lia.
    + apply (Z.mod_unique_pos _ _ (-1)); lia.
  - rewrite Z.mod_small by lia. lia.
Qed.

Section Ripple.
Variable op : Z -> Z -> Z -> Z * digit_t.
Variable sg : Z.
Hypothesis op_spec : forall c d e,
    0 <= c <= 1 -> 0 <= d < wB -> 0 <= e < wB ->
    0 <= fst (op c d e) <= 1 /\
    0 <= snd (op c d e) < wB /\
    snd (op c d e) + sg * fst (op c d e) * wB = d + sg * (e + c).

(** The loop of [mp_add] and [mp_sub], started in the middle: the digits
    before position [length pc] are done, those after it are not. *)
Lemma ripple_loop :
  forall (ra rb rc pa pb pc : list digit_t) (carry : Z),
    length pa = length pc -> length pb = length pc ->
    length rb = length ra -> length rc = length ra ->
    digits_ok ra -> digits_ok rb -> 0 <= carry <= 1 ->
    exists carry' s,
      for_from (length pc) (length ra)
        (fun i '(carry, c) =>
           let '(carry', d) := op carry (rd (pa ++ ra) i) (rd (pb ++ rb) i) in
           (carry', upd c i d))
        (carry, pc ++ rc)
      = (carry', pc ++ s) /\
      length s = length ra /\ digits_ok s /\ 0 <= carry' <= 1 /\
      val s + sg * carry' * wB ^ Z.of_nat (length ra)
      = val ra + sg * (val rb + carry).
Proof.
  induction ra as [|d ra IH];
    intros [|e rb] [|c0 rc] pa pb pc carry Hpa Hpb Hrb Hrc Da Db Hc;
    try discriminate.
  - exists carry, []. cbn [for_from length val].
    repeat split; try lia; try constructor.
  - cbn [for_from length].
    replace (rd (pa ++ d :: ra) (length pc)) with d
      by (rewrite <- Hpa; symmetry; apply rd_app_length).
    replace (rd (pb ++ e :: rb) (length pc)) with e
      by (rewrite <- Hpb; symmetry; apply rd_app_length).
    inversion Da as [|? ? Hd Da']; inversion Db as [|? ? He Db']; subst.
    destruct (op_spec carry d e Hc Hd He) as (Hc1 & Hs1 & Heq).
    destruct (op carry d e) as [c1 s1] eqn:Eop. cbn [fst snd] in *.
    rewrite upd_app_length.
    rewrite (snoc_assoc pa), (snoc_assoc pb), (snoc_assoc pc).
    simpl in Hrb, Hrc.
    destruct (IH rb rc (pa ++ [d]) (pb ++ [e]) (pc ++ [s1]) c1)
      as (c' & s & Hrun & Hlen & Ds & Hc' & Hval);
      try (rewrite !length_snoc); try lia; try assumption.
    rewrite length_snoc in Hrun.
    exists c', (s1 :: s). rewrite Hrun. rewrite <- snoc_assoc.
    repeat split; try lia; try (cbn [length]; lia).
    + constructor; assumption.
    + rewrite wB_pow_succ. cbn [val]. nia.
Qed.

Lemma ripple_full (a b c : list digit_t) :
  length b = length a -> length c = length a ->
  digits_ok a -> digits_ok b ->
  exists carry s,
    for_lt (length a)
      (fun i '(carry, c) =>
         let '(carry', d) := op carry (rd a i) (rd b i) in
         (carry', upd c i d))
      (0, c)
    = (carry, s) /\
    length s = length a /\ digits_ok s /\ 0 <= carry <= 1 /\
    val s + sg * carry * wB ^ Z.of_nat (length a) = val a + sg * val b.
Proof.
  intros Hb Hc Da Db.
  destruct (ripple_loop a b c [] [] [] 0) as (c' & s & H1 & H2 & H3 & H4 & H5);
    try reflexivity; try assumption; try lia.
  exists c', s. repeat split; try assumption; try lia.
Qed.
End Ripple.

Lemma mp_add_spec (a b c : list digit_t) :
  length b = length a -> length c = length a ->
  digits_ok a -> digits_ok b ->
  length (snd (mp_add a b c (length a))) = length a /\
  digits_ok (snd (mp_add a b c (length a))) /\
  0 <= fst (mp_add a b c (length a)) <= 1 /\
  val (snd (mp_add a b c (length a)))
  + fst (mp_add a b c (length a)) * wB ^ Z.of_nat (length a)
  = val a + val b.
Proof.
  intros Hb Hc Da Db.
  destruct (ripple_full ADDC 1 ADDC_spec a b c Hb Hc Da Db)
    as (c' & s & H1 & H2 & H3 & H4 & H5).
  unfold mp_add. rewrite H1. cbn [fst snd]. repeat split; try assumption; lia.
Qed.

Lemma mp_sub_spec (a b c : list digit_t) :
  length b = length a -> length c = length a ->
  digits_ok a -> digits_ok b ->
  length (snd (mp_sub a b c (length a))) = length a /\
  digits_ok (snd (mp_sub a b c (length a))) /\
  0 <= fst (mp_sub a b c (length a)) <= 1 /\
  val (snd (mp_sub a b c (length a)))
  - fst (mp_sub a b c (length a)) * wB ^ Z.of_nat (length a)
  = val a - val b.
Proof.
  intros Hb Hc Da Db.
  destruct (ripple_full SUBC (-1) SUBC_spec a b c Hb Hc Da Db)
    as (c' & s & H1 & H2 & H3 & H4 & H5).
  unfold mp_sub. rewrite H1. cbn [fst snd]. repeat split; try assumption; lia.
Qed.

(** ** The kernels: multiplication and Montgomery reduction *)

Lemma mod_p751z_bound (v : Z) : 0 <= v mod p751z < p751z.
Proof. apply Z.mod_pos_bound. pose proof p751z_pos. lia. Qed.

Lemma felm_ok_to_digits_mod (v : Z) :
  felm_ok (to_digits NWORDS_FIELD (v mod p751z)) /\
  val (to_digits NWORDS_FIELD (v mod p751z)) = v mod p751z.
Proof.
  pose proof (mod_p751z_bound v). pose proof p751z_lt_R.
  assert (E : val (to_digits NWORDS_FIELD (v mod p751z)) = v mod p751z).
  { apply val_to_digits. rewrite <- Mont_R_eq. lia. }
  split; [split; [|split] | exact E].
  - apply length_to_digits.
  - apply digits_ok_to_digits.
  - rewrite E. lia.
Qed.

Lemma felm_wf_bound (x : felm_t) : felm_wf x -> 0 <= val x < Mont_R.
Proof.
  intros [Hl Hd]. pose proof (val_bound x Hd) as H.
  rewrite Hl in H. exact H.
Qed.

Lemma mp_mul_spec (a b : felm_t) :
  felm_wf a -> felm_wf b ->
  length (mp_mul a b NWORDS_FIELD) = (2 * NWORDS_FIELD)%nat /\
  digits_ok (mp_mul a b NWORDS_FIELD) /\
  val (mp_mul a b NWORDS_FIELD) = val a * val b.
Proof.
  intros Ha Hb. unfold mp_mul.
  pose proof (felm_wf_bound a Ha). pose proof (felm_wf_bound b Hb).
  split; [|split].
  - apply length_to_digits.
  - apply digits_ok_to_digits.
  - apply val_to_digits. rewrite <- Mont_RR_eq. nia.
Qed.

Lemma rdc_mont_ok (ma : dfelm_t) : felm_ok (rdc_mont ma).
Proof. apply felm_ok_to_digits_mod. Qed.

Lemma val_rdc_mont (ma : dfelm_t) :
  val (rdc_mont ma) = (val ma * Montgomery_Rinv) mod p751z.
Proof. apply felm_ok_to_digits_mod. Qed.

Lemma fpmul751_mont_ok (ma mb : felm_t) : felm_ok (fpmul751_mont ma mb).
Proof. apply rdc_mont_ok. Qed.

Lemma fpsqr751_mont_ok (ma : felm_t) : felm_ok (fpsqr751_mont ma).
Proof. apply rdc_mont_ok. Qed.

Lemma val_fpmul751_mont (ma mb : felm_t) :
  felm_wf ma -> felm_wf mb ->
  val (fpmul751_mont ma mb) = (val ma * val mb * Montgomery_Rinv) mod p751z.
Proof.
  intros Ha Hb. unfold fpmul751_mont. rewrite val_rdc_mont.
  now destruct (mp_mul_spec ma mb Ha Hb) as (_ & _ & ->).
Qed.

Lemma fpsqr751_mont_fpmul (ma : felm_t) :
  fpsqr751_mont ma = fpmul751_mont ma ma.
Proof. reflexivity. Qed.

Lemma fpadd751_ok (a b : felm_t) : felm_ok (fpadd751 a b).
Proof. apply felm_ok_to_digits_mod. Qed.

Lemma val_fpadd751 (a b : felm_t) :
  val (fpadd751 a b) = (val a + val b) mod p751z.
Proof. apply felm_ok_to_digits_mod. Qed.

Lemma fpsub751_ok (a b : felm_t) : felm_ok (fpsub751 a b).
Proof. apply felm_ok_to_digits_mod. Qed.

Lemma val_fpsub751 (a b : felm_t) :
  val (fpsub751 a b) = (val a - val b) mod p751z.
Proof. apply felm_ok_to_digits_mod. Qed.

Lemma fpneg751_ok (a : felm_t) : felm_ok (fpneg751 a).
Proof. apply felm_ok_to_digits_mod. Qed.

Lemma val_fpneg751 (a : felm_t) : val (fpneg751 a) = (- val a) mod p751z.
Proof. apply felm_ok_to_digits_mod. Qed.

Lemma fpdiv2_751_ok (a : felm_t) : felm_ok (fpdiv2_751 a).
Proof. apply felm_ok_to_digits_mod. Qed.

(** Two field elements with the same value are the same array. *)
Lemma felm_wf_val_inj (x y : felm_t) :
  felm_wf x -> felm_wf y -> val x = val y -> x = y.
Proof.
  intros [Lx Dx] [Ly Dy] E.
  rewrite <- (to_digits_val x Dx), <- (to_digits_val y Dy).
  now rewrite Lx, Ly, E.
Qed.

Lemma fpcopy751_eq (a c : felm_t) :
  length a = NWORDS_FIELD -> length c = NWORDS_FIELD -> fpcopy751 a c = a.
Proof.
  intros Ha Hc. unfold fpcopy751, for_lt.
  assert (G : forall (ra rc pa pc : list digit_t),
             length pa = length pc -> length rc = length ra ->
             for_from (length pc) (length ra)
               (fun i c => upd c i (rd (pa ++ ra) i)) (pc ++ rc) = pc ++ ra).
  { induction ra as [|d ra IH]; intros [|e rc] pa pc Hp Hr; try discriminate.
    - reflexivity.
    - cbn [for_from length].
      replace (rd (pa ++ d :: ra) (length pc)) with d
        by (rewrite <- Hp; symmetry; apply rd_app_length).
      rewrite upd_app_length, (snoc_assoc pa), (snoc_assoc pc).
      rewrite <- (length_snoc pc d), IH; rewrite ?length_snoc; simpl in *; auto.
      now rewrite <- snoc_assoc. }
  rewrite <- Ha at 1. apply (G a c [] []); [reflexivity | congruence].
Qed.

(** ** Arithmetic modulo the prime, in [Zmod p751z] *)

Add Ring zmod_p751z_ring : (Zmod.ring_theory p751z).


Lemma congr_iff (x y : Z) : x mod p751z = y mod p751z <-> (fq x) = (fq y).
Proof. symmetry. apply Zmod.of_Z_inj. Qed.

Ltac push_of_Z :=
  repeat first
    [ rewrite Zmod.of_Z_mod
    | rewrite Zmod.of_Z_mul
    | rewrite Zmod.of_Z_add
    | rewrite Zmod.of_Z_sub
    | rewrite Zmod.of_Z_opp ].

Lemma Rinv_R : Zmod.mul (fq Mont_R) (fq Montgomery_Rinv) = Zmod.one.
Proof.
  rewrite <- Zmod.of_Z_mul, <- Zmod.of_Z_1. apply congr_iff.
  rewrite Montgomery_Rinv_spec. reflexivity.
Qed.

Lemma R2_RR : (fq (val Montgomery_R2)) = Zmod.mul (fq Mont_R) (fq Mont_R).
Proof.
  rewrite Montgomery_R2_spec. now push_of_Z.
Qed.

Ltac zmod_names :=
  generalize Rinv_R;
  generalize ((fq Mont_R)); generalize ((fq Montgomery_Rinv)).

(** ** Conversions to and from Montgomery representation *)

Lemma one_wf : felm_wf (upd (repeat 0 NWORDS_FIELD) 0%nat 1).
Proof. split; [reflexivity|]. repeat constructor; vm_compute; congruence. Qed.

Lemma val_one : val (upd (repeat 0 NWORDS_FIELD) 0%nat 1) = 1.
Proof. reflexivity. Qed.

Lemma to_mont_ok (a : felm_t) : felm_ok (to_mont a).
Proof. apply fpmul751_mont_ok. Qed.

Lemma from_mont_ok (a : felm_t) : felm_ok (from_mont a).
Proof. apply fpmul751_mont_ok. Qed.

Lemma val_to_mont (a : felm_t) :
  felm_wf a -> val (to_mont a) = (val a * Mont_R) mod p751z.
Proof.
  intros Ha. unfold to_mont.
  rewrite val_fpmul751_mont by (assumption || apply felm_ok_wf, Montgomery_R2_wf).
  apply congr_iff. push_of_Z. rewrite R2_RR.
  zmod_names. intros ri r H. ring [H].
Qed.

Lemma val_from_mont (ma : felm_t) :
  felm_wf ma -> val (from_mont ma) = (val ma * Montgomery_Rinv) mod p751z.
Proof.
  intros Ha. unfold from_mont.
  rewrite val_fpmul751_mont by (assumption || apply one_wf).
  rewrite val_one. f_equal. ring.
Qed.

(** C1: for field elements [a] and [b], converting both to Montgomery
    representation, multiplying with [fpmul751_mont] and converting back
    gives [(a * b) mod p751]. *)
Theorem montgomery_mul_roundtrip (a b : felm_t) :
  felm_ok a -> felm_ok b ->
  felm_ok (from_mont (fpmul751_mont (to_mont a) (to_mont b))) /\
  val (from_mont (fpmul751_mont (to_mont a) (to_mont b)))
  = (val a * val b) mod p751z.
Proof.
  intros Ha Hb. split; [apply from_mont_ok|].
  rewrite val_from_mont by apply felm_ok_wf, fpmul751_mont_ok.
  rewrite val_fpmul751_mont by apply felm_ok_wf, to_mont_ok.
  rewrite !val_to_mont by now apply felm_ok_wf.
  apply congr_iff. push_of_Z.
  zmod_names. intros ri r H. ring [H].
Qed.

Lemma sample_felm_ok_1 : felm_ok (sample_felm 1).
Proof.
  split; [reflexivity|]. split; [|reflexivity].
  repeat constructor; vm_compute; congruence.
Defined.

Lemma sample_felm_ok_20 : felm_ok (sample_felm 20).
Proof.
  split; [reflexivity|]. split; [|reflexivity].
  repeat constructor; vm_compute; congruence.
Defined.

Lemma montgomery_mul_roundtrip_witness :
  (felm_ok (sample_felm 1) /\ felm_ok (sample_felm 20)) /\
  (felm_ok (from_mont (fpmul751_mont (to_mont (sample_felm 1))
                                     (to_mont (sample_felm 20)))) /\
   val (from_mont (fpmul751_mont (to_mont (sample_felm 1))
                                 (to_mont (sample_felm 20))))
   = (val (sample_felm 1) * val (sample_felm 20)) mod p751z).
Proof.
  split.
  - split; [apply sample_felm_ok_1 | apply sample_felm_ok_20].
  - apply (montgomery_mul_roundtrip (sample_felm 1) (sample_felm 20)
             sample_felm_ok_1 sample_felm_ok_20).
Defined.

(** ** Additions and subtractions that do not overflow *)

Lemma mp_add_nocarry (a b c : list digit_t) (n : nat) :
  length a = n -> length b = n -> length c = n ->
  digits_ok a -> digits_ok b ->
  val a + val b < wB ^ Z.of_nat n ->
  length (snd (mp_add a b c n)) = n /\
  digits_ok (snd (mp_add a b c n)) /\
  val (snd (mp_add a b c n)) = val a + val b.
Proof.
  intros Ha Hb Hc Da Db Hsum. subst n.
  destruct (mp_add_spec a b c Hb Hc Da Db) as (H1 & H2 & H3 & H4).
  pose proof (val_bound _ H2) as Hs. rewrite H1 in Hs.
  split; [exact H1|]. split; [exact H2|].
  assert (C : fst (mp_add a b c (length a)) = 0 \/
              fst (mp_add a b c (length a)) = 1) by lia.
  destruct C as [C|C]; rewrite C in H4; lia.
Qed.

Lemma mp_sub_borrow (a b c : list digit_t) (n : nat) :
  length a = n -> length b = n -> length c = n ->
  digits_ok a -> digits_ok b ->
  length (snd (mp_sub a b c n)) = n /\
  digits_ok (snd (mp_sub a b c n)) /\
  fst (mp_sub a b c n) = (if val a <? val b then 1 else 0) /\
  val (snd (mp_sub a b c n))
  = val a - val b + (if val a <? val b then wB ^ Z.of_nat n else 0).
Proof.
  intros Ha Hb Hc Da Db. subst n.
  destruct (mp_sub_spec a b c Hb Hc Da Db) as (H1 & H2 & H3 & H4).
  pose proof (val_bound _ H2) as Hs. rewrite H1 in Hs.
  pose proof (val_bound _ Da) as Hva.
  pose proof (val_bound _ Db) as Hvb. rewrite Hb in Hvb.
  split; [exact H1|]. split; [exact H2|].
  assert (C : fst (mp_sub a b c (length a)) = 0 \/
              fst (mp_sub a b c (length a)) = 1) by lia.
  destruct (Z.ltb_spec (val a) (val b)); destruct C as [C|C];
    rewrite C in H4 |- *; split; lia.
Qed.

(** ** The masked addition of [p751] to the upper half of [tt3] *)

Lemma masked_add_loop (mask : Z) :
  mask = 0 \/ mask = mask_ones ->
  forall (rh rp pre pp : list digit_t) (carry : Z),
    length pre = (NWORDS_FIELD + length pp)%nat ->
    length rp = length rh ->
    digits_ok rh -> digits_ok rp -> 0 <= carry <= 1 ->
    exists carry' s,
      for_from (length pp) (length rh)
        (fun i '(borrow, tt3) =>
           let '(borrow', s) :=
             ADDC borrow (rd tt3 (NWORDS_FIELD + i))
                  (Z.land (rd (pp ++ rp) i) mask) in
           (borrow', upd tt3 (NWORDS_FIELD + i) s))
        (carry, pre ++ rh)
      = (carry', pre ++ s) /\
      length s = length rh /\ digits_ok s /\ 0 <= carry' <= 1 /\
      val s + carry' * wB ^ Z.of_nat (length rh)
      = val rh + (if mask =? 0 then 0 else val rp) + carry.
Proof.
  intros Hmask.
  induction rh as [|d rh IH]; intros [|e rp] pre pp carry Hpre Hrp Dh Dp Hc;
    try discriminate.
  - exists carry, []. cbn [for_from length val].
    repeat split; try lia; try constructor.
    destruct (mask =? 0); lia.
  - cbn [for_from length].
    replace (rd (pre ++ d :: rh) (NWORDS_FIELD + length pp)) with d
      by (rewrite <- Hpre; symmetry; apply rd_app_length).
    rewrite rd_app_length.
    inversion Dh as [|? ? Hd Dh']; inversion Dp as [|? ? He Dp']; subst.
    assert (Hm : 0 <= Z.land e mask < wB /\
                 Z.land e mask = if mask =? 0 then 0 else e).
    { destruct Hmask as [-> | ->].
      - rewrite Z.land_0_r. cbn. pose proof wB_pos. lia.
      - change mask_ones with (Z.ones RADIX).
        rewrite digit_land_ones by assumption. split; [assumption|reflexivity]. }
    destruct Hm as [Hm1 Hm2].
    destruct (ADDC_spec carry d (Z.land e mask) Hc Hd Hm1) as (Hc1 & Hs1 & Heq).
    destruct (ADDC carry d (Z.land e mask)) as [c1 s1] eqn:Eop.
    cbn [fst snd] in *.
    rewrite <- Hpre, upd_app_length.
    rewrite (snoc_assoc pp), (snoc_assoc pre).
    simpl in Hrp.
    destruct (IH rp (pre ++ [s1]) (pp ++ [e]) c1)
      as (c' & s & Hrun & Hlen & Ds & Hc' & Hval);
      try (rewrite !length_snoc); try lia; try assumption.
    rewrite length_snoc in Hrun.
    replace (length pre) with (NWORDS_FIELD + length pp)%nat in Hrun |- *.
    exists c', (s1 :: s). rewrite Hrun. rewrite <- snoc_assoc.
    repeat split; try lia; try (cbn [length]; lia).
    + constructor; assumption.
    + rewrite wB_pow_succ. cbn [val]. rewrite Hm2 in Heq.
      destruct (mask =? 0); nia.
Qed.

Lemma to_digit_mask (borrow : Z) :
  0 <= borrow <= 1 ->
  to_digit (0 - borrow) = (if borrow =? 0 then 0 else mask_ones).
Proof.
  intros H. assert (C : borrow = 0 \/ borrow = 1) by lia.
  destruct C as [-> | ->]; reflexivity.
Qed.

Lemma digits_ok_app (x y : list digit_t) :
  digits_ok (x ++ y) <-> digits_ok x /\ digits_ok y.
Proof. apply Forall_app. Qed.

Lemma digits_ok_halves (x : list digit_t) :
  digits_ok x ->
  digits_ok (firstn NWORDS_FIELD x) /\ digits_ok (skipn NWORDS_FIELD x).
Proof.
  intros H. apply digits_ok_app. now rewrite firstn_skipn.
Qed.

Lemma felm_ok_bound (x : felm_t) : felm_ok x -> 0 <= val x < p751z.
Proof.
  intros (Hl & Hd & Hv). pose proof (val_bound x Hd). lia.
Qed.

(** The value that [fp2mul751_mont] reduces for [c[0]]: the masked addition
    brings a negative difference back into the range [[0, 2^768 * p751)]. *)
Lemma fp2mul751_tt3_spec (a b : f2elm_t) :
  f2elm_ok a -> f2elm_ok b ->
  length (fp2mul751_tt3 a b) = (2 * NWORDS_FIELD)%nat /\
  digits_ok (fp2mul751_tt3 a b) /\
  val (fp2mul751_tt3 a b)
  = val (fst a) * val (fst b) - val (snd a) * val (snd b)
    + (if val (fst a) * val (fst b) <? val (snd a) * val (snd b)
       then Mont_R * p751z else 0) /\
  0 <= val (fp2mul751_tt3 a b) < Mont_R * p751z.
Proof.
  intros [Ha0 Ha1] [Hb0 Hb1].
  pose proof (felm_ok_bound _ Ha0) as Ba0. pose proof (felm_ok_bound _ Ha1) as Ba1.
  pose proof (felm_ok_bound _ Hb0) as Bb0. pose proof (felm_ok_bound _ Hb1) as Bb1.
  apply felm_ok_wf in Ha0, Ha1, Hb0, Hb1.
  unfold fp2mul751_tt3.
  destruct (mp_mul_spec _ _ Ha0 Hb0) as (L1 & D1 & V1).
  destruct (mp_mul_spec _ _ Ha1 Hb1) as (L2 & D2 & V2).
  set (tt1 := mp_mul (fst a) (fst b) NWORDS_FIELD) in *.
  set (tt2 := mp_mul (snd a) (snd b) NWORDS_FIELD) in *.
  destruct (mp_sub_borrow tt1 tt2 (uninit (2 * NWORDS_FIELD)) (2 * NWORDS_FIELD)
              L1 L2 (repeat_length _ _) D1 D2) as (L3 & D3 & B3 & V3).
  destruct (mp_sub tt1 tt2 (uninit (2 * NWORDS_FIELD)) (2 * NWORDS_FIELD))
    as [borrow tt3]. cbn [fst snd] in L3, D3, B3, V3.
  assert (Hb01 : 0 <= borrow <= 1) by (rewrite B3; destruct (_ <? _); lia).
  cbv zeta. rewrite (to_digit_mask borrow Hb01).
  pose (mask := if borrow =? 0 then 0 else mask_ones).
  assert (Hmask : mask = 0 \/ mask = mask_ones)
    by (unfold mask; destruct (borrow =? 0); auto).
  destruct (digits_ok_halves tt3 D3) as [Dlo Dhi].
  assert (Llo : length (firstn NWORDS_FIELD tt3) = NWORDS_FIELD)
    by (rewrite length_firstn, L3; reflexivity).
  assert (Lhi : length (skipn NWORDS_FIELD tt3) = NWORDS_FIELD)
    by (rewrite length_skipn, L3; reflexivity).
  destruct (masked_add_loop mask Hmask (skipn NWORDS_FIELD tt3) p751
              (firstn NWORDS_FIELD tt3) [] 0)
    as (c' & s & Hrun & Ls & Ds & Hc' & Vs);
    try assumption; try lia.
  { now rewrite Lhi. }
  { apply p751_wf. }
  rewrite firstn_skipn, Lhi in Hrun. cbn [length app] in Hrun.
  match goal with
  | |- context [for_lt NWORDS_FIELD ?f (0, tt3)] =>
      replace (for_lt NWORDS_FIELD f (0, tt3))
        with (c', firstn NWORDS_FIELD tt3 ++ s) by (symmetry; exact Hrun)
  end.
  assert (Vtt3 : val tt3 = val (firstn NWORDS_FIELD tt3)
                           + Mont_R * val (skipn NWORDS_FIELD tt3)).
  { rewrite <- (firstn_skipn NWORDS_FIELD tt3) at 1.
    rewrite val_app, Llo, <- Mont_R_eq. reflexivity. }
  pose proof (val_bound _ Dlo) as Blo. rewrite Llo, <- Mont_R_eq in Blo.
  pose proof (val_bound _ Dhi) as Bhi. rewrite Lhi, <- Mont_R_eq in Bhi.
  pose proof (val_bound _ Ds) as Bs. rewrite Ls, Lhi, <- Mont_R_eq in Bs.
  rewrite Lhi, <- Mont_R_eq, val_p751 in Vs.
  rewrite <- Mont_RR_eq in V3.
  pose proof p751z_lt_R as HpR. pose proof p751z_pos as Hp1.
  assert (Vres : val (firstn NWORDS_FIELD tt3 ++ s)
                 = val (firstn NWORDS_FIELD tt3) + Mont_R * val s)
    by (rewrite val_app, Llo, <- Mont_R_eq; reflexivity).
  split; [|split].
  - rewrite length_app, Llo, Ls, Lhi. reflexivity.
  - apply digits_ok_app. now split.
  - rewrite Vres. rewrite V1, V2 in V3, B3. unfold mask in Vs.
    clear Hrun Hmask mask Vres.
    set (lo := val (firstn NWORDS_FIELD tt3)) in *.
    set (hi := val (skipn NWORDS_FIELD tt3)) in *.
    set (x := val (fst a) * val (fst b)) in *.
    set (y := val (snd a) * val (snd b)) in *.
    assert (Hx : 0 <= x < p751z * p751z) by (unfold x; nia).
    assert (Hy : 0 <= y < p751z * p751z) by (unfold y; nia).
    assert (Hpp : p751z * p751z < Mont_R * p751z) by nia.
    assert (C : c' = 0 \/ c' = 1) by lia.
    destruct (Z.ltb_spec x y) as [Hlt|Hge]; subst borrow.
    + change (if (if 1 =? 0 then 0 else mask_ones) =? 0 then 0 else p751z)
        with p751z in Vs.
      assert (Es : val s = hi + p751z - c' * Mont_R) by lia.
      rewrite Es, Z.mul_sub_distr_l, Z.mul_add_distr_l.
      destruct C as [-> | ->].
      * exfalso. rewrite Z.mul_0_l, Z.sub_0_r in Es.
        assert (Mont_R * val s <= Mont_R * (Mont_R - 1)) by nia.
        rewrite Es, Z.mul_add_distr_l, Z.mul_sub_distr_l in H. lia.
      * lia.
    + change (if (if 0 =? 0 then 0 else mask_ones) =? 0 then 0 else p751z)
        with 0 in Vs.
      assert (Es : val s = hi - c' * Mont_R) by lia.
      rewrite Es, Z.mul_sub_distr_l.
      destruct C as [-> | ->].
      * lia.
      * exfalso. lia.
Qed.

Lemma of_Z_p751z : (fq p751z) = Zmod.zero.
Proof.
  rewrite <- Zmod.of_Z_0. apply congr_iff.
  rewrite Z.mod_same by (pose proof p751z_pos; lia). reflexivity.
Qed.

Lemma uninit_length (n : nat) : length (uninit n) = n.
Proof. apply repeat_length. Qed.

(** The unreduced sum [a + b] of two field elements fits in a field array. *)
Lemma mp_add_felm (a b : felm_t) :
  felm_ok a -> felm_ok b ->
  felm_wf (snd (mp_add a b (uninit NWORDS_FIELD) NWORDS_FIELD)) /\
  val (snd (mp_add a b (uninit NWORDS_FIELD) NWORDS_FIELD)) = val a + val b.
Proof.
  intros Ha Hb.
  pose proof (felm_ok_bound _ Ha). pose proof (felm_ok_bound _ Hb).
  destruct Ha as (La & Da & _), Hb as (Lb & Db & _).
  destruct (mp_add_nocarry a b (uninit NWORDS_FIELD) NWORDS_FIELD)
    as (H1 & H2 & H3); try assumption.
  - apply uninit_length.
  - rewrite <- Mont_R_eq. pose proof p751z_bits. lia.
  - repeat split; assumption.
Qed.

(** The value that [fp2mul751_mont] reduces for [c[1]]. *)
Lemma fp2mul751_tt2_spec (a b : f2elm_t) :
  f2elm_ok a -> f2elm_ok b ->
  length (fp2mul751_tt2 a b) = (2 * NWORDS_FIELD)%nat /\
  digits_ok (fp2mul751_tt2 a b) /\
  val (fp2mul751_tt2 a b)
  = val (fst a) * val (snd b) + val (snd a) * val (fst b) /\
  0 <= val (fp2mul751_tt2 a b) < Mont_R * p751z.
Proof.
  intros [Ha0 Ha1] [Hb0 Hb1].
  pose proof (felm_ok_bound _ Ha0) as Ba0. pose proof (felm_ok_bound _ Ha1) as Ba1.
  pose proof (felm_ok_bound _ Hb0) as Bb0. pose proof (felm_ok_bound _ Hb1) as Bb1.
  destruct (mp_add_felm _ _ Ha0 Ha1) as (Wt1 & Vt1).
  destruct (mp_add_felm _ _ Hb0 Hb1) as (Wt2 & Vt2).
  apply felm_ok_wf in Ha0, Ha1, Hb0, Hb1.
  unfold fp2mul751_tt2.
  destruct (mp_mul_spec _ _ Ha0 Hb0) as (L1 & D1 & V1).
  destruct (mp_mul_spec _ _ Ha1 Hb1) as (L2 & D2 & V2).
  set (tt1 := mp_mul (fst a) (fst b) NWORDS_FIELD) in *.
  set (tt2 := mp_mul (snd a) (snd b) NWORDS_FIELD) in *.
  set (t1 := snd (mp_add (fst a) (snd a) (uninit NWORDS_FIELD) NWORDS_FIELD)) in *.
  set (t2 := snd (mp_add (fst b) (snd b) (uninit NWORDS_FIELD) NWORDS_FIELD)) in *.
  pose proof p751z_bits as HpR. pose proof p751z_pos as Hp1.
  assert (Hpp : 4 * (p751z * p751z) < Mont_R * p751z) by nia.
  assert (HRR : Mont_R * p751z < Mont_R * Mont_R) by nia.
  assert (Hx : 0 <= val (fst a) * val (fst b) < p751z * p751z) by nia.
  assert (Hy : 0 <= val (snd a) * val (snd b) < p751z * p751z) by nia.
  destruct (mp_add_nocarry tt1 tt2 tt1 (2 * NWORDS_FIELD)) as (L3 & D3 & V3);
    try assumption.
  { rewrite <- Mont_RR_eq, V1, V2. lia. }
  set (tt1' := snd (mp_add tt1 tt2 tt1 (2 * NWORDS_FIELD))) in *.
  destruct (mp_mul_spec _ _ Wt1 Wt2) as (L4 & D4 & V4).
  set (tt2' := mp_mul t1 t2 NWORDS_FIELD) in *.
  destruct (mp_sub_borrow tt2' tt1' tt2' (2 * NWORDS_FIELD)) as (L5 & D5 & B5 & V5);
    try assumption.
  split; [exact L5|]. split; [exact D5|].
  rewrite V5, V4, V3, V1, V2, Vt1, Vt2.
  assert (Hxy : 0 <= val (fst a) * val (snd b) < p751z * p751z) by nia.
  assert (Hyx : 0 <= val (snd a) * val (fst b) < p751z * p751z) by nia.
  destruct (Z.ltb_spec ((val (fst a) + val (snd a)) * (val (fst b) + val (snd b)))
                       (val (fst a) * val (fst b) + val (snd a) * val (snd b))).
  - exfalso. lia.
  - split; lia.
Qed.

Lemma fp2mul751_mont_eq (a b : f2elm_t) :
  fp2mul751_mont a b
  = (rdc_mont (fp2mul751_tt3 a b), rdc_mont (fp2mul751_tt2 a b)).
Proof.
  unfold fp2mul751_mont, fp2mul751_tt3, fp2mul751_tt2.
  destruct (mp_sub _ _ _ _) as [borrow tt3].
  destruct (for_lt _ _ _) as [borrow' tt3'].
  reflexivity.
Qed.

(** ** GF(p751^2): squaring against multiplication *)

(** C6: on reduced components [fp2sqr751_mont a] and [fp2mul751_mont a a]
    return the same element of GF(p751^2), component by component. *)
Theorem fp2sqr751_mont_is_mul (a : f2elm_t) :
  f2elm_ok a -> fp2sqr751_mont a = fp2mul751_mont a a.
Proof.
  intros Ha. pose proof Ha as [Ha0 Ha1].
  destruct (mp_add_felm _ _ Ha0 Ha1) as (Wt1 & Vt1).
  destruct (mp_add_felm _ _ Ha0 Ha0) as (Wt3 & Vt3).
  destruct (fp2mul751_tt3_spec a a Ha Ha) as (_ & _ & V3 & _).
  destruct (fp2mul751_tt2_spec a a Ha Ha) as (_ & _ & V2 & _).
  rewrite fp2mul751_mont_eq.
  unfold fp2sqr751_mont, fpmul751_mont, rdc_mont.
  f_equal; f_equal.
  - destruct (mp_mul_spec _ _ Wt1 (felm_ok_wf _ (fpsub751_ok (fst a) (snd a))))
      as (_ & _ & ->).
    rewrite Vt1, val_fpsub751, V3. apply congr_iff.
    destruct (_ <? _); push_of_Z; rewrite ?of_Z_p751z, ?Zmod.of_Z_0; ring.
  - destruct (mp_mul_spec _ _ Wt3 (felm_ok_wf _ Ha1)) as (_ & _ & ->).
    rewrite Vt3, V2. f_equal. ring.
Qed.

Lemma sample_f2elm_ok : f2elm_ok (sample_felm 1, sample_felm 20).
Proof. split; [apply sample_felm_ok_1 | apply sample_felm_ok_20]. Defined.

Lemma fp2sqr751_mont_is_mul_witness :
  f2elm_ok (sample_felm 1, sample_felm 20) /\
  fp2sqr751_mont (sample_felm 1, sample_felm 20)
  = fp2mul751_mont (sample_felm 1, sample_felm 20) (sample_felm 1, sample_felm 20).
Proof.
  split.
  - apply sample_f2elm_ok.
  - apply (fp2sqr751_mont_is_mul (sample_felm 1, sample_felm 20) sample_f2elm_ok).
Defined.

(** ** Gaussian integers modulo [n] *)

Ltac push_of_Z_in n :=
  repeat first
    [ rewrite (@Zmod.of_Z_mod n)
    | rewrite (@Zmod.of_Z_mul n)
    | rewrite (@Zmod.of_Z_add n)
    | rewrite (@Zmod.of_Z_sub n) ].

Section GaussMod.
Variable n : Z.
Hypothesis n_gt_1 : 1 < n.

Add Ring zmod_n_ring : (Zmod.ring_theory n).

Lemma mod_eq_of_Z (x y : Z) :
  Zmod.of_Z n x = Zmod.of_Z n y -> x mod n = y mod n.
Proof. apply Zmod.of_Z_inj. Qed.

Lemma gmul_assoc (a b c : Z * Z) :
  gmul n a (gmul n b c) = gmul n (gmul n a b) c.
Proof.
  unfold gmul; cbn [fst snd]. f_equal; apply mod_eq_of_Z;
    push_of_Z_in n; ring.
Qed.

Lemma gmul_comm (a b : Z * Z) : gmul n a b = gmul n b a.
Proof.
  unfold gmul. f_equal; f_equal; ring.
Qed.

Lemma gmul_one_r (a : Z * Z) : gmul n a gone = gred n a.
Proof.
  unfold gmul, gred, gone; cbn [fst snd]. f_equal; f_equal; ring.
Qed.

Lemma gmul_one_l (a : Z * Z) : gmul n gone a = gred n a.
Proof. rewrite gmul_comm. apply gmul_one_r. Qed.

Lemma gmul_reduced (a b : Z * Z) : greduced n (gmul n a b).
Proof.
  unfold greduced, gred, gmul; cbn [fst snd].
  now rewrite !Z.mod_mod by lia.
Qed.

Lemma gone_reduced : greduced n gone.
Proof.
  unfold greduced, gred, gone; cbn [fst snd].
  now rewrite Z.mod_1_l, Z.mod_0_l by lia.
Qed.

Lemma gred_reduced (a : Z * Z) : greduced n (gred n a).
Proof.
  unfold greduced, gred; cbn [fst snd]. now rewrite !Z.mod_mod by lia.
Qed.

Lemma gpow_pos_succ (a : Z * Z) (p : positive) :
  gpow n a (Z.pos (Pos.succ p)) = gmul n a (gpow n a (Z.pos p)).
Proof.
  unfold gpow. apply Pos.iter_op_succ. intros x y z. apply gmul_assoc.
Qed.

Lemma gpow_succ (a : Z * Z) (k : Z) :
  greduced n a -> 0 <= k -> gpow n a (Z.succ k) = gmul n a (gpow n a k).
Proof.
  intros Ha Hk. destruct k as [|p|p]; try lia.
  - cbn. now rewrite gmul_one_r.
  - rewrite <- Pos2Z.inj_succ. apply gpow_pos_succ.
Qed.

Lemma gpow_reduced (a : Z * Z) (k : Z) :
  greduced n a -> greduced n (gpow n a k).
Proof.
  intros Ha. destruct k as [|p|p]; try apply gone_reduced.
  induction p using Pos.peano_ind.
  - exact Ha.
  - rewrite gpow_pos_succ. apply gmul_reduced.
Qed.

Lemma gpow_0 (a : Z * Z) : gpow n a 0 = gone.
Proof. reflexivity. Qed.

Lemma gpow_add (a : Z * Z) (i j : Z) :
  greduced n a -> 0 <= i -> 0 <= j ->
  gpow n a (i + j) = gmul n (gpow n a i) (gpow n a j).
Proof.
  intros Ha Hi Hj. revert i Hi. apply natlike_ind.
  - rewrite Z.add_0_l, gpow_0, gmul_one_l. symmetry.
    now apply gpow_reduced.
  - intros i Hi IH.
    rewrite Z.add_succ_l, !gpow_succ, IH by (assumption || lia).
    apply gmul_assoc.
Qed.

Lemma gpow_one_mul (a : Z * Z) (g m : Z) :
  greduced n a -> 0 <= g -> 0 <= m ->
  gpow n a g = gone -> gpow n a (g * m) = gone.
Proof.
  intros Ha Hg Hm E. revert m Hm. apply natlike_ind.
  - now rewrite Z.mul_0_r.
  - intros m Hm IH.
    rewrite Z.mul_succ_r, gpow_add, IH, E by (assumption || nia).
    rewrite gmul_one_l. apply gone_reduced.
Qed.

(** Powers that agree can be cancelled once some power is the unit. *)
Lemma gpow_cancel (a : Z * Z) (i j F : Z) :
  greduced n a -> 0 <= i < j -> j < F ->
  gpow n a F = gone -> gpow n a i = gpow n a j ->
  gpow n a (j - i) = gone.
Proof.
  intros Ha Hij HjF HF E.
  assert (E1 : gmul n (gpow n a i) (gpow n a (F - i)) = gone).
  { rewrite <- gpow_add by (assumption || lia).
    now replace (i + (F - i)) with F by ring. }
  rewrite E, <- gpow_add in E1 by (assumption || lia).
  replace (j + (F - i)) with ((j - i) + F) in E1 by ring.
  rewrite gpow_add, HF, gmul_one_r in E1 by (assumption || lia).
  rewrite <- E1. symmetry. now apply gpow_reduced.
Qed.

(** The exponents that give the unit are closed under gcd. *)
Lemma gpow_gcd (a : Z * Z) (d F : Z) :
  greduced n a -> 0 < d -> 0 < F ->
  gpow n a d = gone -> gpow n a F = gone ->
  gpow n a (Z.gcd d F) = gone.
Proof.
  intros Ha Hd HF Ed EF.
  destruct (Z.gcd_bezout d F _ eq_refl) as (u & v & Huv).
  pose proof (Z.gcd_nonneg d F) as Hg.
  set (g := Z.gcd d F) in *.
  set (t := Z.abs u + Z.abs v).
  assert (Hu1 : 0 <= u + t * F) by (unfold t; nia).
  assert (Hv1 : 0 <= t * d - v) by (unfold t; nia).
  assert (E : d * (u + t * F) = g + F * (t * d - v)) by (rewrite <- Huv; ring).
  assert (E1 : gpow n a (d * (u + t * F)) = gone)
    by (apply gpow_one_mul; assumption || lia).
  rewrite E, gpow_add in E1 by (assumption || nia).
  rewrite (gpow_one_mul a F (t * d - v)) in E1 by (assumption || lia).
  rewrite gmul_one_r in E1. rewrite <- E1. symmetry. now apply gpow_reduced.
Qed.
End GaussMod.

(** Reduction modulo a divisor [q] of [n] commutes with the operations. *)
Section GaussReduce.
Variables q n : Z.
Hypothesis q_gt_1 : 1 < q.
Hypothesis q_divides_n : (q | n).

Add Ring zmod_q_ring : (Zmod.ring_theory q).

Lemma gred_gmul (a b : Z * Z) :
  gred q (gmul n a b) = gmul q (gred q a) (gred q b).
Proof.
  unfold gred, gmul; cbn [fst snd].
  rewrite !(Z.mod_mod_divide _ n q) by assumption.
  f_equal; apply Zmod.of_Z_inj; push_of_Z_in q; ring.
Qed.

Lemma gred_gpow_pos (a : Z * Z) (p : positive) :
  gred q (gpow n a (Z.pos p)) = gpow q (gred q a) (Z.pos p).
Proof.
  induction p using Pos.peano_ind.
  - reflexivity.
  - now rewrite !gpow_pos_succ, gred_gmul, IHp.
Qed.
End GaussReduce.

(** ** The pigeonhole principle on intervals of [Z] *)

Lemma bounded_search (f : Z -> Z) (v m : Z) :
  0 <= m ->
  (exists i, 0 <= i <= m /\ f i = v) \/ (forall i, 0 <= i <= m -> f i <> v).
Proof.
  revert m. apply natlike_ind.
  - destruct (Z.eq_dec (f 0) v) as [E|E].
    + left. exists 0. split; [lia | exact E].
    + right. intros i Hi. now replace i with 0 by lia.
  - intros m Hm [(i & Hi & E) | Hnone].
    + left. exists i. split; [lia | exact E].
    + destruct (Z.eq_dec (f (Z.succ m)) v) as [E|E].
      * left. exists (Z.succ m). split; [lia | exact E].
      * right. intros i Hi.
        destruct (Z.eq_dec i (Z.succ m)) as [-> | Hne]; [exact E|].
        apply Hnone. lia.
Qed.

Lemma pigeonhole (m : Z) :
  0 <= m ->
  forall f : Z -> Z,
    (forall i, 0 <= i <= m -> 0 <= f i < m) ->
    exists i j, 0 <= i < j /\ j <= m /\ f i = f j.
Proof.
  revert m. apply (natlike_ind
    (fun m => forall f : Z -> Z,
         (forall i, 0 <= i <= m -> 0 <= f i < m) ->
         exists i j, 0 <= i < j /\ j <= m /\ f i = f j)).
  - intros f Hf. specialize (Hf 0 ltac:(lia)). lia.
  - intros m Hm IH f Hf.
    destruct (bounded_search f (f (Z.succ m)) m Hm) as [(i & Hi & E) | Hnone].
    + exists i, (Z.succ m). repeat split; lia.
    + set (v := f (Z.succ m)) in *.
      assert (Hv : 0 <= v < Z.succ m) by (apply Hf; lia).
      destruct (IH (fun i => if f i <? v then f i else f i - 1))
        as (i & j & Hij & Hj & E).
      * intros i Hi. specialize (Hf i ltac:(lia)).
        specialize (Hnone i Hi).
        destruct (Z.ltb_spec (f i) v); lia.
      * exists i, j. repeat split; try lia.
        pose proof (Hnone i ltac:(lia)). pose proof (Hnone j ltac:(lia)).
        cbv beta in E.
        destruct (Z.ltb_spec (f i) v), (Z.ltb_spec (f j) v); lia.
Qed.

(** ** Divisors of a number of the form [2^a * 3^b] *)

Lemma smooth_divisor (e2 e3 g : Z) :
  0 <= e2 -> 0 <= e3 ->
  0 < g < 2 ^ e2 * 3 ^ e3 -> (g | 2 ^ e2 * 3 ^ e3) ->
  (g * 2 | 2 ^ e2 * 3 ^ e3) \/ (g * 3 | 2 ^ e2 * 3 ^ e3).
Proof.
  intros H2 H3 Hg [m Hm].
  set (F := 2 ^ e2 * 3 ^ e3) in *.
  assert (Hm1 : 1 < m) by nia.
  destruct (Z.BoolSpec_divide 2 m) as [[m' Hm'] | Hn2].
  { left. exists m'. rewrite Hm, Hm'. ring. }
  destruct (Z.BoolSpec_divide 3 m) as [[m' Hm'] | Hn3].
  { right. exists m'. rewrite Hm, Hm'. ring. }
  exfalso.
  assert (C : Z.coprime m F).
  { unfold F. apply Z.coprime_mul_r; apply Z.coprime_pow_r; try assumption;
      symmetry; apply Z.coprime_prime_l;
      auto using Z.prime_2, Z.prime_3. }
  assert (D : (m | F)) by (exists g; rewrite Hm; ring).
  apply Z.divide_gcd_iff in D; [|lia].
  unfold Z.coprime in C. lia.
Qed.

(** ** Evaluating the certificate on [bigZ] *)

Lemma bgmul_spec (n : bigZ) (a b : bigZ * bigZ) :
  bg_to_Z (bgmul n a b) = gmul (BigZ.to_Z n) (bg_to_Z a) (bg_to_Z b).
Proof.
  unfold bg_to_Z, bgmul, gmul; cbn [fst snd].
  now rewrite !BigZ.spec_modulo, BigZ.spec_sub, BigZ.spec_add, !BigZ.spec_mul.
Qed.

Lemma bgpow_spec (n : bigZ) (p : positive) :
  forall a : bigZ * bigZ,
    bg_to_Z (bgpow n a p) = gpow (BigZ.to_Z n) (bg_to_Z a) (Z.pos p).
Proof.
  unfold bgpow, gpow.
  induction p as [p IH | p IH |]; intros a; cbn [Pos.iter_op].
  - now rewrite bgmul_spec, IH, bgmul_spec.
  - now rewrite IH, bgmul_spec.
  - reflexivity.
Qed.

Lemma bg_to_of_Z (a : Z * Z) : bg_to_Z (bg_of_Z a) = a.
Proof.
  destruct a as [x y]. unfold bg_to_Z, bg_of_Z; cbn [fst snd].
  now rewrite !BigZ.spec_of_Z.
Qed.

Lemma cert_gpow (p : positive) :
  gpow p751z cert_alpha (Z.pos p)
  = bg_to_Z (bgpow (BigZ.of_Z p751z) (bg_of_Z cert_alpha) p).
Proof. now rewrite bgpow_spec, BigZ.spec_of_Z, bg_to_of_Z. Qed.

Lemma cert_alpha_order : gpow p751z cert_alpha (p751z + 1) = gone.
Proof.
  change (p751z + 1) with (Z.pos cert_order).
  rewrite cert_gpow. vm_compute. reflexivity.
Qed.

Lemma cert_alpha_pow_2 : gpow p751z cert_alpha ((p751z + 1) / 2) = cert_pow_2.
Proof.
  change ((p751z + 1) / 2) with (Z.pos cert_order_2).
  rewrite cert_gpow. vm_compute. reflexivity.
Qed.

Lemma cert_alpha_pow_3 : gpow p751z cert_alpha ((p751z + 1) / 3) = cert_pow_3.
Proof.
  change ((p751z + 1) / 3) with (Z.pos cert_order_3).
  rewrite cert_gpow. vm_compute. reflexivity.
Qed.

Lemma cert_gcd_2 :
  Z.gcd (Z.gcd (fst cert_pow_2 - 1) (snd cert_pow_2)) p751z = 1.
Proof. vm_compute. reflexivity. Qed.

Lemma cert_gcd_3 :
  Z.gcd (Z.gcd (fst cert_pow_3 - 1) (snd cert_pow_3)) p751z = 1.
Proof. vm_compute. reflexivity. Qed.

(** ** The primality of p751 *)

Lemma greduced_bounds (q : Z) (a : Z * Z) :
  1 < q -> greduced q a -> 0 <= fst a < q /\ 0 <= snd a < q.
Proof.
  intros Hq Ha. unfold greduced, gred in Ha. destruct a as [x y].
  cbn [fst snd] in *. injection Ha as Hx Hy.
  rewrite <- Hx, <- Hy. split; apply Z.mod_pos_bound; lia.
Qed.

Lemma gcode_bounds (q : Z) (a : Z * Z) :
  1 < q -> greduced q a -> 0 <= gcode q a < q * q.
Proof.
  intros Hq Ha. destruct (greduced_bounds q a Hq Ha). unfold gcode. nia.
Qed.

Lemma gcode_inj (q : Z) (a b : Z * Z) :
  1 < q -> greduced q a -> greduced q b -> gcode q a = gcode q b -> a = b.
Proof.
  intros Hq Ha Hb E.
  destruct (greduced_bounds q a Hq Ha) as [Ha0 Ha1].
  destruct (greduced_bounds q b Hq Hb) as [Hb0 Hb1].
  destruct a as [x y], b as [x' y']. unfold gcode in E. cbn [fst snd] in *.
  destruct (Z.div_mod_unique q x x' y y') as [-> ->]; auto; lia.
Qed.

(** No divisor [q > 1] of p751 has [gred q (alpha ^ ((p751 + 1) / r))] equal
    to the unit, for [r = 2] and [r = 3]. *)
Lemma cert_not_unit (q : Z) (c : Z * Z) :
  1 < q -> (q | p751z) ->
  Z.gcd (Z.gcd (fst c - 1) (snd c)) p751z = 1 ->
  gred q c <> gone.
Proof.
  intros Hq Hdiv Hgcd E. unfold gred, gone in E. injection E as E1 E2.
  assert (D1 : (q | fst c - 1)).
  { apply Z.mod_divide; [lia|].
    rewrite <- Zminus_mod_idemp_l, E1. apply Z.mod_0_l. lia. }
  assert (D2 : (q | snd c)) by (apply Z.mod_divide; [lia | exact E2]).
  assert (D : (q | 1)).
  { rewrite <- Hgcd. apply Z.gcd_greatest; [apply Z.gcd_greatest|]; assumption. }
  apply Z.divide_1_r in D. lia.
Qed.

(** p751 is prime: a proper divisor [q] with [q * q <= p751] would leave at
    most [q * q] powers of [alpha] modulo [q], so two of the first
    [q * q + 1] powers would agree and the order of [alpha] modulo [q] would
    be a proper divisor of [p751 + 1 = 2^372 * 3^239]; the certificate
    excludes the divisors of [(p751 + 1) / 2] and of [(p751 + 1) / 3]. *)
Theorem p751z_prime : Z.prime p751z.
Proof.
  split; [apply p751z_pos|]. intros d Hd [k Hk].
  pose proof p751z_pos as Hp.
  (* a divisor q with 1 < q and q * q <= p751 *)
  assert (Hq : exists q, 1 < q /\ q * q <= p751z /\ (q | p751z)).
  { assert (1 < k) by nia.
    destruct (Z.le_gt_cases d k).
    - exists d. repeat split; try lia; [nia | exists k; exact Hk].
    - exists k. repeat split; try lia; [nia | exists d; rewrite Hk; ring]. }
  clear d k Hd Hk. destruct Hq as (q & Hq1 & Hqq & Hdiv).
  set (F := p751z + 1).
  set (beta := gred q cert_alpha).
  assert (Hbeta : greduced q beta) by (apply gred_reduced; lia).
  assert (Hpow : forall p, gpow q beta (Z.pos p)
                           = gred q (gpow p751z cert_alpha (Z.pos p))).
  { intros p. symmetry. now apply gred_gpow_pos. }
  assert (HF : gpow q beta F = gone).
  { unfold F. change (p751z + 1) with (Z.pos cert_order).
    rewrite Hpow. change (Z.pos cert_order) with (p751z + 1).
    rewrite cert_alpha_order. apply (gone_reduced q Hq1). }
  (* two powers of beta with exponents at most q * q agree *)
  destruct (pigeonhole (q * q) ltac:(nia) (fun i => gcode q (gpow q beta i)))
    as (i & j & Hij & Hj & E).
  { intros i Hi. apply gcode_bounds; [lia|]. now apply gpow_reduced. }
  apply gcode_inj in E; try lia; try (now apply gpow_reduced).
  assert (Hd : gpow q beta (j - i) = gone)
    by (apply (gpow_cancel q Hq1 beta i j F); unfold F; assumption || lia).
  (* hence so does the power with exponent g = gcd (j - i) (p751 + 1) *)
  assert (Hg : gpow q beta (Z.gcd (j - i) F) = gone)
    by (apply gpow_gcd; unfold F; assumption || lia).
  pose proof (Z.gcd_divide_l (j - i) F) as Gl.
  pose proof (Z.gcd_divide_r (j - i) F) as Gr.
  pose proof (Z.gcd_nonneg (j - i) F) as G0.
  set (g := Z.gcd (j - i) F) in *.
  assert (Hg0 : 0 < g).
  { destruct (Z.eq_dec g 0) as [Z0|]; [|lia].
    rewrite Z0 in Gl. apply Z.divide_0_l in Gl. lia. }
  assert (HgF : g < F).
  { apply Z.divide_pos_le in Gl; unfold F; lia. }
  assert (HFs : F = 2 ^ 372 * 3 ^ 239) by apply p751z_smooth.
  destruct (smooth_divisor 372 239 g) as [[m Hm] | [m Hm]];
    try lia; rewrite <- ?HFs; try assumption; try lia.
  - (* g divides (p751 + 1) / 2 *)
    assert (E2 : (p751z + 1) / 2 = g * m).
    { fold F. rewrite HFs, Hm. replace (m * (g * 2)) with (g * m * 2) by ring.
      apply Z.div_mul. lia. }
    assert (Hm0 : 0 <= m) by nia.
    pose proof (gpow_one_mul q Hq1 beta g m Hbeta ltac:(lia) Hm0 Hg) as H2.
    rewrite <- E2 in H2. change ((p751z + 1) / 2) with (Z.pos cert_order_2) in H2.
    rewrite Hpow in H2. change (Z.pos cert_order_2) with ((p751z + 1) / 2) in H2.
    rewrite cert_alpha_pow_2 in H2.
    exact (cert_not_unit q cert_pow_2 Hq1 Hdiv cert_gcd_2 H2).
  - (* g divides (p751 + 1) / 3 *)
    assert (E3 : (p751z + 1) / 3 = g * m).
    { fold F. rewrite HFs, Hm. replace (m * (g * 3)) with (g * m * 3) by ring.
      apply Z.div_mul. lia. }
    assert (Hm0 : 0 <= m) by nia.
    pose proof (gpow_one_mul q Hq1 beta g m Hbeta ltac:(lia) Hm0 Hg) as H3.
    rewrite <- E3 in H3. change ((p751z + 1) / 3) with (Z.pos cert_order_3) in H3.
    rewrite Hpow in H3. change (Z.pos cert_order_3) with ((p751z + 1) / 3) in H3.
    rewrite cert_alpha_pow_3 in H3.
    exact (cert_not_unit q cert_pow_3 Hq1 Hdiv cert_gcd_3 H3).
Qed.

(** ** The addition chain computes the power [p751 - 2] *)

Add Field zmod_p751z_field : (Zmod.field_theory p751z p751z_prime).

Lemma felm_ok_val_mod (x : felm_t) : felm_ok x -> val x mod p751z = val x.
Proof. intros H. apply Z.mod_small. now apply felm_ok_bound. Qed.

Lemma mont_power_mul (a x y : felm_t) (e1 e2 : Z) :
  mont_power a x (Some e1) -> mont_power a y (Some e2) ->
  mont_power a (fpmul751_mont x y) (Some (e1 + e2)).
Proof.
  intros (Hx & He1 & Vx) (Hy & He2 & Vy). unfold mont_power.
  split; [apply fpmul751_mont_ok|]. split; [lia|].
  rewrite val_fpmul751_mont by now apply felm_ok_wf.
  rewrite Vx, Vy. apply congr_iff.
  replace (e1 + e2 - 1) with ((e1 - 1) + (e2 - 1) + 1) by ring.
  rewrite !Z.pow_add_r, Z.pow_1_r by lia.
  push_of_Z. ring.
Qed.

Lemma mont_power_rel (a : felm_t) :
  felm_ok a ->
  frame_rel (mont_power a)
            (fpinv751_mont_body (enter a))
            (fpinv751_mont_body (enter (Some 1))).
Proof.
  intros Ha. apply fpinv751_mont_run_rel.
  - (* fpmul751_mont *)
    intros x [e1|] y [e2|] Hx Hy; cbn [op_fpmul751_mont Fp751 ExpOps].
    + now apply mont_power_mul.
    + apply felm_ok_wf, fpmul751_mont_ok.
    + apply felm_ok_wf, fpmul751_mont_ok.
    + apply felm_ok_wf, fpmul751_mont_ok.
  - (* fpsqr751_mont *)
    intros x [e|] Hx; cbn [op_fpsqr751_mont Fp751 ExpOps].
    + rewrite fpsqr751_mont_fpmul. now apply mont_power_mul.
    + apply felm_ok_wf, fpsqr751_mont_ok.
  - (* fpcopy751 *)
    intros x oe y oe' Hx Hy; cbn [op_fpcopy751 Fp751 ExpOps].
    assert (Lx : length x = NWORDS_FIELD)
      by (destruct oe; [apply Hx | apply Hx]).
    assert (Ly : length y = NWORDS_FIELD)
      by (destruct oe'; [apply Hy | apply Hy]).
    now rewrite fpcopy751_eq.
  - (* unwritten arrays *)
    split; [reflexivity | apply (digits_ok_repeat0 NWORDS_FIELD)].
  - (* the input *)
    split; [exact Ha|]. split; [lia|].
    change (1 - 1) with 0. rewrite Z.pow_1_r, Z.pow_0_r, Z.mul_1_r.
    symmetry. now apply felm_ok_val_mod.
Qed.

Lemma fpinv751_exponent_run :
  fr_a (fpinv751_mont_body (enter (Some 1))) = Some (p751z - 2).
Proof. vm_compute. reflexivity. Qed.

(** [fpinv751_mont] returns the Montgomery power [p751 - 2] of its input. *)
Lemma fpinv751_mont_power (a : felm_t) :
  felm_ok a ->
  felm_ok (fpinv751_mont a) /\
  val (fpinv751_mont a)
  = (val a ^ (p751z - 2) * Montgomery_Rinv ^ (p751z - 3)) mod p751z.
Proof.
  intros Ha. destruct (mont_power_rel a Ha) as (H & _).
  rewrite fpinv751_exponent_run in H.
  destruct H as (H1 & _ & H2). split; [exact H1|].
  replace (p751z - 3) with (p751z - 2 - 1) by ring. exact H2.
Qed.

(** ** Inversion in the field of [p751] elements *)

Lemma fq_nonzero (x : Z) : 0 < x < p751z -> fq x <> Zmod.zero.
Proof.
  intros H. apply Zmod.of_Z_nz. rewrite Z.mod_small by lia. lia.
Qed.

Lemma fq_val_nonzero (x : felm_t) :
  felm_ok x -> val x <> 0 -> fq (val x) <> Zmod.zero.
Proof.
  intros Hx Hn. apply fq_nonzero. pose proof (felm_ok_bound x Hx). lia.
Qed.

Lemma fq_one_neq_zero : @Zmod.one p751z <> Zmod.zero.
Proof. apply Zmod.one_neq_zero. vm_compute. discriminate. Qed.

Lemma fq_R_nonzero : fq Mont_R <> Zmod.zero.
Proof.
  intros E. pose proof Rinv_R as H. rewrite E in H.
  rewrite Zmod.mul_0_l in H. symmetry in H. now apply fq_one_neq_zero.
Qed.

Lemma fq_Rinv : fq Montgomery_Rinv = Zmod.inv (fq Mont_R).
Proof.
  apply (Zmod.mul_cancel_l_prime (fq Mont_R) _ _ p751z_prime fq_R_nonzero).
  now rewrite Rinv_R, Zmod.mul_inv_same_r_prime
    by (apply p751z_prime || apply fq_R_nonzero).
Qed.

Lemma fq_Rinv_nonzero : fq Montgomery_Rinv <> Zmod.zero.
Proof.
  intros E. pose proof Rinv_R as H. rewrite E in H.
  rewrite Zmod.mul_0_r in H. symmetry in H. now apply fq_one_neq_zero.
Qed.

Ltac fq_side :=
  repeat split;
  first [ assumption | apply fq_R_nonzero | apply fq_one_neq_zero
        | apply fq_Rinv_nonzero ].

(** By Fermat's little theorem the power [p751 - 2] is the inverse. *)
Lemma fq_pow_inv (x : Zmod p751z) :
  x <> Zmod.zero -> Zmod.pow x (p751z - 2) = Zmod.inv x.
Proof. intros Hx. now apply Zmod.fermat_inv; [|apply p751z_prime]. Qed.

Lemma fq_Rinv_pow : Zmod.pow (fq Montgomery_Rinv) (p751z - 3)
                    = Zmod.mul (fq Mont_R) (fq Mont_R).
Proof.
  pose proof (fq_pow_inv _ fq_Rinv_nonzero) as H.
  replace (p751z - 2) with (Z.succ (p751z - 3)) in H by ring.
  rewrite Zmod.pow_succ_nonneg_r in H by (vm_compute; discriminate).
  apply (Zmod.mul_cancel_l_prime (fq Montgomery_Rinv) _ _ p751z_prime fq_Rinv_nonzero).
  rewrite H, fq_Rinv. field. fq_side.
Qed.

(** In the field, [fpinv751_mont] maps [m] to [R^2 / m]. *)
Lemma fq_fpinv751_mont (m : felm_t) :
  felm_ok m -> val m <> 0 ->
  fq (val (fpinv751_mont m))
  = Zmod.mul (Zmod.inv (fq (val m))) (Zmod.mul (fq Mont_R) (fq Mont_R)).
Proof.
  intros Hm Hn. destruct (fpinv751_mont_power m Hm) as (_ & ->).
  push_of_Z.
  rewrite !Zmod.of_Z_pow by (vm_compute; discriminate).
  rewrite fq_pow_inv by now apply fq_val_nonzero.
  now rewrite fq_Rinv_pow.
Qed.

Lemma fq_to_mont (a : felm_t) :
  felm_wf a -> fq (val (to_mont a)) = Zmod.mul (fq (val a)) (fq Mont_R).
Proof. intros Ha. rewrite val_to_mont by assumption. now push_of_Z. Qed.

Lemma fq_from_mont (a : felm_t) :
  felm_wf a -> fq (val (from_mont a)) = Zmod.mul (fq (val a)) (Zmod.inv (fq Mont_R)).
Proof.
  intros Ha. rewrite val_from_mont by assumption. push_of_Z.
  now rewrite fq_Rinv.
Qed.

Lemma fq_fpmul751_mont (x y : felm_t) :
  felm_wf x -> felm_wf y ->
  fq (val (fpmul751_mont x y))
  = Zmod.mul (Zmod.mul (fq (val x)) (fq (val y))) (Zmod.inv (fq Mont_R)).
Proof.
  intros Hx Hy. rewrite val_fpmul751_mont by assumption. push_of_Z.
  now rewrite fq_Rinv.
Qed.

(** Two reduced field elements with the same class are the same array. *)
Lemma felm_ok_fq_inj (x y : felm_t) :
  felm_ok x -> felm_ok y -> fq (val x) = fq (val y) -> x = y.
Proof.
  intros Hx Hy E. apply felm_wf_val_inj; try now apply felm_ok_wf.
  apply congr_iff in E. now rewrite !felm_ok_val_mod in E.
Qed.

Lemma to_mont_nonzero (a : felm_t) :
  felm_ok a -> val a <> 0 -> val (to_mont a) <> 0.
Proof.
  intros Ha Hn E.
  pose proof (fq_to_mont a (felm_ok_wf a Ha)) as H.
  rewrite E, Zmod.of_Z_0 in H. symmetry in H.
  apply (Zmod.mul_0_iff_prime p751z_prime) in H.
  destruct H as [H|H].
  - now apply (fq_val_nonzero a Ha Hn).
  - now apply fq_R_nonzero.
Qed.

Lemma felm_one_ok : felm_ok felm_one.
Proof.
  split; [reflexivity|]. split; [|reflexivity].
  repeat constructor; vm_compute; congruence.
Qed.

Lemma felm_two_ok : felm_ok felm_two.
Proof.
  split; [reflexivity|]. split; [|reflexivity].
  repeat constructor; vm_compute; congruence.
Qed.

Lemma fq_half : fq ((p751z + 1) / 2) = Zmod.inv (fq 2).
Proof.
  assert (N2 : fq 2 <> Zmod.zero) by (apply fq_nonzero; split; reflexivity).
  apply (Zmod.mul_cancel_l_prime (fq 2) _ _ p751z_prime N2).
  rewrite (Zmod.mul_inv_same_r_prime (fq 2) p751z_prime N2).
  rewrite <- Zmod.of_Z_mul, <- Zmod.of_Z_1. apply congr_iff. reflexivity.
Qed.

(** C2: for every nonzero field element [a], multiplying the result of
    [fpinv751_mont] on [to_mont a] with [to_mont a] gives the Montgomery
    representation of 1, which [from_mont] turns into 1; the chain computes
    the power [p751 - 2]; and the inverse of 2, converted back, is
    [(p751 + 1) / 2]. *)
Theorem fpinv751_mont_inverse (a : felm_t) :
  felm_ok a -> val a <> 0 ->
  fpmul751_mont (fpinv751_mont (to_mont a)) (to_mont a) = to_mont felm_one /\
  from_mont (fpmul751_mont (fpinv751_mont (to_mont a)) (to_mont a)) = felm_one /\
  val (fpinv751_mont (to_mont a))
  = (val (to_mont a) ^ (p751z - 2) * Montgomery_Rinv ^ (p751z - 3)) mod p751z /\
  val (from_mont (fpinv751_mont (to_mont a))) = val a ^ (p751z - 2) mod p751z /\
  val (from_mont (fpinv751_mont (to_mont felm_two))) = (p751z + 1) / 2 mod p751z.
Proof.
  intros Ha Hn.
  pose proof (to_mont_ok a) as Hma.
  pose proof (to_mont_nonzero a Ha Hn) as Hmn.
  pose proof (fpinv751_mont_power _ Hma) as [Hinv Vinv].
  pose proof (fq_val_nonzero a Ha Hn) as Na.
  pose proof fq_R_nonzero as NR.
  assert (E1 : fpmul751_mont (fpinv751_mont (to_mont a)) (to_mont a)
               = to_mont felm_one).
  { apply felm_ok_fq_inj; [apply fpmul751_mont_ok | apply to_mont_ok |].
    rewrite (fq_fpmul751_mont _ _ (felm_ok_wf _ Hinv) (felm_ok_wf _ Hma)).
    rewrite (fq_fpinv751_mont _ Hma Hmn).
    rewrite (fq_to_mont _ (felm_ok_wf _ Ha)).
    rewrite (fq_to_mont _ (felm_ok_wf _ felm_one_ok)).
    change (val felm_one) with 1. rewrite Zmod.of_Z_1.
    field. fq_side. }
  assert (Einv : forall b, felm_ok b -> val b <> 0 ->
                           fq (val (from_mont (fpinv751_mont (to_mont b))))
                           = Zmod.inv (fq (val b))).
  { intros b Hb Hbn.
    pose proof (fpinv751_mont_power _ (to_mont_ok b)) as [Hbi _].
    rewrite (fq_from_mont _ (felm_ok_wf _ Hbi)).
    rewrite (fq_fpinv751_mont _ (to_mont_ok b) (to_mont_nonzero b Hb Hbn)).
    rewrite (fq_to_mont _ (felm_ok_wf _ Hb)).
    pose proof (fq_val_nonzero b Hb Hbn).
    field. fq_side. }
  split; [exact E1|]. split; [|split; [exact Vinv|split]].
  - rewrite E1. apply felm_ok_fq_inj;
      [apply from_mont_ok | apply felm_one_ok |].
    rewrite (fq_from_mont _ (felm_ok_wf _ (to_mont_ok felm_one))).
    rewrite (fq_to_mont _ (felm_ok_wf _ felm_one_ok)).
    field. fq_side.
  - rewrite <- (felm_ok_val_mod _ (from_mont_ok (fpinv751_mont (to_mont a)))).
    apply congr_iff.
    rewrite (Einv a Ha Hn).
    rewrite Zmod.of_Z_pow by (vm_compute; discriminate).
    symmetry. now apply fq_pow_inv.
  - rewrite <- (felm_ok_val_mod _ (from_mont_ok (fpinv751_mont (to_mont felm_two)))).
    apply congr_iff.
    rewrite (Einv felm_two felm_two_ok ltac:(discriminate)).
    change (val felm_two) with 2. symmetry. apply fq_half.
Qed.

Lemma fpinv751_mont_inverse_witness :
  (felm_ok felm_two /\ val felm_two <> 0) /\
  (fpmul751_mont (fpinv751_mont (to_mont felm_two)) (to_mont felm_two)
   = to_mont felm_one /\
   from_mont (fpmul751_mont (fpinv751_mont (to_mont felm_two)) (to_mont felm_two))
   = felm_one /\
   val (fpinv751_mont (to_mont felm_two))
   = (val (to_mont felm_two) ^ (p751z - 2) * Montgomery_Rinv ^ (p751z - 3))
       mod p751z /\
   val (from_mont (fpinv751_mont (to_mont felm_two)))
   = val felm_two ^ (p751z - 2) mod p751z /\
   val (from_mont (fpinv751_mont (to_mont felm_two))) = (p751z + 1) / 2 mod p751z).
Proof.
  assert (H2 : felm_ok felm_two).
  { split; [reflexivity|]. split; [|reflexivity].
    repeat constructor; vm_compute; congruence. }
  assert (N2 : val felm_two <> 0) by discriminate.
  split.
  - split; [exact H2 | exact N2].
  - apply (fpinv751_mont_inverse felm_two H2 N2).
Defined.

(** ** The norm of a nonzero element of GF(p751^2) *)

Lemma p751z_half_odd : p751z - 1 = 2 * (2 * ((p751z - 3) / 4) + 1).
Proof. reflexivity. Qed.

Lemma fq_pow_opp_one_odd (k : Z) :
  0 <= k -> Zmod.pow (Zmod.opp (@Zmod.one p751z)) (2 * k + 1) = Zmod.opp Zmod.one.
Proof.
  intros Hk. replace (2 * k + 1) with (Z.succ (2 * k)) by ring.
  rewrite Zmod.pow_succ_nonneg_r by lia.
  rewrite Zmod.pow_mul_r_nonneg by lia.
  rewrite Zmod.pow_2_r.
  replace (Zmod.mul (Zmod.opp Zmod.one) (Zmod.opp Zmod.one))
    with (@Zmod.one p751z) by ring.
  rewrite Zmod.pow_1_l. ring.
Qed.

Lemma fq_fermat (x : Zmod p751z) :
  x <> Zmod.zero -> Zmod.pow x (p751z - 1) = Zmod.one.
Proof.
  intros Hx. exact (Zmod.fermat_nz x Hx p751z_prime).
Qed.

Lemma fq_square_zero (x : Zmod p751z) : Zmod.mul x x = Zmod.zero -> x = Zmod.zero.
Proof.
  intros H. apply (Zmod.mul_0_iff_prime p751z_prime) in H. tauto.
Qed.

(** [-1] is not a square modulo p751, because [(p751 - 1) / 2] is odd: a sum
    of two squares vanishes only when both terms do. *)
Lemma fq_norm_nonzero (x y : Zmod p751z) :
  x <> Zmod.zero \/ y <> Zmod.zero ->
  Zmod.add (Zmod.mul x x) (Zmod.mul y y) <> Zmod.zero.
Proof.
  intros Hxy E.
  assert (Exy : Zmod.mul x x = Zmod.mul (Zmod.opp Zmod.one) (Zmod.mul y y)).
  { transitivity (Zmod.sub (Zmod.add (Zmod.mul x x) (Zmod.mul y y)) (Zmod.mul y y));
      [ring | rewrite E; ring]. }
  assert (Hx : x <> Zmod.zero).
  { intros ->. destruct Hxy as [H|H]; [now apply H|].
    apply H, fq_square_zero.
    transitivity (Zmod.opp (Zmod.mul (Zmod.opp Zmod.one) (Zmod.mul y y)));
      [ring | rewrite <- Exy; ring]. }
  assert (Hy : y <> Zmod.zero).
  { intros ->. apply Hx, fq_square_zero. rewrite Exy. ring. }
  pose proof (fq_fermat x Hx) as Fx. pose proof (fq_fermat y Hy) as Fy.
  set (h := 2 * ((p751z - 3) / 4) + 1).
  assert (Hh : 0 <= h) by (vm_compute; discriminate).
  assert (Hk : 0 <= (p751z - 3) / 4) by (vm_compute; discriminate).
  rewrite p751z_half_odd in Fx, Fy. fold h in Fx, Fy.
  rewrite Zmod.pow_mul_r_nonneg, Zmod.pow_2_r in Fx, Fy by lia.
  rewrite Exy, Zmod.pow_mul_l_nonneg, Fy in Fx by exact Hh.
  unfold h in Fx. rewrite fq_pow_opp_one_odd in Fx by exact Hk.
  assert (E2 : fq 2 = Zmod.zero).
  { change 2 with (1 + 1). rewrite Zmod.of_Z_add, Zmod.of_Z_1.
    rewrite <- Fx at 1. ring. }
  revert E2. apply fq_nonzero. split; reflexivity.
Qed.

(** ** GF(p751^2): multiplication and inversion in the field *)

Lemma fq_fp2mul751_mont (a b : f2elm_t) :
  f2elm_ok a -> f2elm_ok b ->
  f2elm_ok (fp2mul751_mont a b) /\
  fq (val (fst (fp2mul751_mont a b)))
  = Zmod.mul (Zmod.sub (Zmod.mul (fq (val (fst a))) (fq (val (fst b))))
                       (Zmod.mul (fq (val (snd a))) (fq (val (snd b)))))
             (Zmod.inv (fq Mont_R)) /\
  fq (val (snd (fp2mul751_mont a b)))
  = Zmod.mul (Zmod.add (Zmod.mul (fq (val (fst a))) (fq (val (snd b))))
                       (Zmod.mul (fq (val (snd a))) (fq (val (fst b)))))
             (Zmod.inv (fq Mont_R)).
Proof.
  intros Ha Hb.
  destruct (fp2mul751_tt3_spec a b Ha Hb) as (_ & _ & V3 & _).
  destruct (fp2mul751_tt2_spec a b Ha Hb) as (_ & _ & V2 & _).
  rewrite fp2mul751_mont_eq; cbn [fst snd].
  split; [split; apply rdc_mont_ok|].
  rewrite !val_rdc_mont, V3, V2. split.
  - destruct (_ <? _); push_of_Z;
      rewrite ?of_Z_p751z, ?Zmod.of_Z_0, fq_Rinv; ring.
  - push_of_Z. rewrite fq_Rinv. ring.
Qed.

Lemma felm_zero_ok : felm_ok felm_zero.
Proof.
  split; [reflexivity|]. split; [|reflexivity].
  apply (digits_ok_repeat0 NWORDS_FIELD).
Qed.

(** C7: for a nonzero element [a] of GF(p751^2) with reduced components,
    [fp2mul751_mont] of [fp2inv751_mont a] and [a] is the Montgomery
    representation of [(1, 0)]; the norm [a0^2 + a1^2] is nonzero modulo
    p751. *)
Theorem fp2inv751_mont_inverse (a : f2elm_t) :
  f2elm_ok a -> (val (fst a) <> 0 \/ val (snd a) <> 0) ->
  fp2mul751_mont (fp2inv751_mont a) a = to_fp2mont (felm_one, felm_zero) /\
  (val (fst a) ^ 2 + val (snd a) ^ 2) mod p751z <> 0.
Proof.
  intros Ha Hnz. pose proof Ha as [Ha0 Ha1].
  set (x := fq (val (fst a))). set (y := fq (val (snd a))).
  assert (Hxy : x <> Zmod.zero \/ y <> Zmod.zero).
  { destruct Hnz as [H|H]; [left|right]; now apply fq_val_nonzero. }
  pose proof (fq_norm_nonzero x y Hxy) as Hnorm.
  pose proof fq_R_nonzero as NR.
  (* the norm, in Montgomery representation *)
  set (n := fpadd751 (fpsqr751_mont (fst a)) (fpsqr751_mont (snd a))).
  assert (Hn : felm_ok n) by apply fpadd751_ok.
  assert (Fn : fq (val n)
               = Zmod.mul (Zmod.add (Zmod.mul x x) (Zmod.mul y y))
                          (Zmod.inv (fq Mont_R))).
  { unfold n. rewrite val_fpadd751. push_of_Z.
    rewrite !fpsqr751_mont_fpmul.
    rewrite !fq_fpmul751_mont by now apply felm_ok_wf.
    fold x y. ring. }
  assert (Nn : val n <> 0).
  { intros E. rewrite E, Zmod.of_Z_0 in Fn. symmetry in Fn.
    apply (Zmod.mul_0_iff_prime p751z_prime) in Fn. destruct Fn as [F|F].
    - now apply Hnorm.
    - rewrite <- fq_Rinv in F. now apply fq_Rinv_nonzero. }
  pose proof (fpinv751_mont_power n Hn) as [Hni _].
  pose proof (fq_fpinv751_mont n Hn Nn) as Fni. rewrite Fn in Fni.
  set (ninv := fpinv751_mont n) in *.
  (* the two components of the inverse *)
  set (o0 := fpmul751_mont (fst a) ninv).
  set (o1 := fpmul751_mont (fpneg751 (snd a)) ninv).
  assert (Ho : f2elm_ok (o0, o1)) by (split; apply fpmul751_mont_ok).
  assert (Fo0 : fq (val o0)
                = Zmod.mul (Zmod.mul x (fq (val ninv))) (Zmod.inv (fq Mont_R))).
  { unfold o0. now rewrite fq_fpmul751_mont by now apply felm_ok_wf. }
  assert (Fo1 : fq (val o1)
                = Zmod.mul (Zmod.mul (Zmod.opp y) (fq (val ninv)))
                           (Zmod.inv (fq Mont_R))).
  { unfold o1.
    rewrite fq_fpmul751_mont by (apply felm_ok_wf; assumption || apply fpneg751_ok).
    rewrite val_fpneg751. push_of_Z. reflexivity. }
  assert (Einv : fp2inv751_mont a = (o0, o1)) by reflexivity.
  rewrite Einv.
  destruct (fq_fp2mul751_mont (o0, o1) a Ho Ha) as ([Hc0 Hc1] & F0 & F1).
  cbn [fst snd] in F0, F1. fold x y in F0, F1.
  rewrite Fo0, Fo1, Fni in F0, F1.
  split.
  - rewrite (surjective_pairing (fp2mul751_mont (o0, o1) a)).
    unfold to_fp2mont; cbn [fst snd]. f_equal.
    + apply felm_ok_fq_inj; [exact Hc0 | apply to_mont_ok |].
      rewrite F0, (fq_to_mont _ (felm_ok_wf _ felm_one_ok)).
      change (val felm_one) with 1. rewrite Zmod.of_Z_1.
      field. fq_side.
    + apply felm_ok_fq_inj; [exact Hc1 | apply to_mont_ok |].
      rewrite F1, (fq_to_mont _ (felm_ok_wf _ felm_zero_ok)).
      change (val felm_zero) with 0. rewrite Zmod.of_Z_0.
      field. fq_side.
  - intros E. apply Hnorm. unfold x, y.
    rewrite <- !Zmod.of_Z_mul, <- Zmod.of_Z_add, <- Zmod.of_Z_0.
    apply congr_iff. rewrite Z.mod_0_l by (vm_compute; discriminate).
    rewrite <- E. f_equal. ring.
Qed.

Lemma fp2inv751_mont_inverse_witness :
  (f2elm_ok (sample_felm 1, sample_felm 20) /\
   (val (fst (sample_felm 1, sample_felm 20)) <> 0 \/
    val (snd (sample_felm 1, sample_felm 20)) <> 0)) /\
  (fp2mul751_mont (fp2inv751_mont (sample_felm 1, sample_felm 20))
                  (sample_felm 1, sample_felm 20)
   = to_fp2mont (felm_one, felm_zero) /\
   (val (fst (sample_felm 1, sample_felm 20)) ^ 2
    + val (snd (sample_felm 1, sample_felm 20)) ^ 2) mod p751z <> 0).
Proof.
  assert (N : val (fst (sample_felm 1, sample_felm 20)) <> 0 \/
              val (snd (sample_felm 1, sample_felm 20)) <> 0)
    by (left; discriminate).
  split.
  - split; [apply sample_f2elm_ok | exact N].
  - apply (fp2inv751_mont_inverse (sample_felm 1, sample_felm 20)
             sample_f2elm_ok N).
Defined.

(** ** Selection *)

Lemma zip_loop_closed (f : digit_t -> digit_t -> digit_t) :
  forall (rx ry rz px py pz : list digit_t),
    length px = length pz -> length py = length pz ->
    length ry = length rx -> length rz = length rx ->
    for_from (length pz) (length rx)
      (fun i z => upd z i (f (rd (px ++ rx) i) (rd (py ++ ry) i)))
      (pz ++ rz)
    = pz ++ map2 f rx ry.
Proof.
  induction rx as [|p rx IH]; intros [|q ry] [|r rz] px py pz Hx Hy Hry Hrz;
    try discriminate.
  - reflexivity.
  - cbn [for_from length map2].
    replace (rd (px ++ p :: rx) (length pz)) with p
      by (rewrite <- Hx; symmetry; apply rd_app_length).
    replace (rd (py ++ q :: ry) (length pz)) with q
      by (rewrite <- Hy; symmetry; apply rd_app_length).
    rewrite upd_app_length.
    rewrite (snoc_assoc px), (snoc_assoc py), (snoc_assoc pz).
    rewrite <- (length_snoc pz (f p q)).
    simpl in Hry, Hrz.
    rewrite IH by (rewrite ?length_snoc; lia).
    now rewrite <- snoc_assoc.
Qed.

Lemma select_f2elm_closed (x y z : f2elm_t) (option : digit_t) :
  f2elm_sized x -> f2elm_sized y -> f2elm_sized z ->
  select_f2elm x y z option
  = (map2 (cswap_fst option) (fst x) (fst y),
     map2 (cswap_fst option) (snd x) (snd y)).
Proof.
  intros [Hx0 Hx1] [Hy0 Hy1] [Hz0 Hz1].
  unfold select_f2elm, for_lt.
  rewrite (for_from_ext _
             (pair_body
                (fun i z0 => upd z0 i (cswap_fst option (rd ([] ++ fst x) i)
                                                        (rd ([] ++ fst y) i)))
                (fun i z1 => upd z1 i (cswap_fst option (rd ([] ++ snd x) i)
                                                        (rd ([] ++ snd y) i)))))
    by (intros i [z0 z1]; reflexivity).
  rewrite for_from_pair. f_equal.
  - rewrite <- Hx0 at 1.
    apply (zip_loop_closed (cswap_fst option) (fst x) (fst y) (fst z) [] [] []);
      try reflexivity; congruence.
  - rewrite <- Hx1 at 1.
    apply (zip_loop_closed (cswap_fst option) (snd x) (snd y) (snd z) [] [] []);
      try reflexivity; congruence.
Qed.

Lemma f2elm_ok_sized (a : f2elm_t) : f2elm_ok a -> f2elm_sized a.
Proof. intros [(? & _) (? & _)]. now split. Qed.

Lemma select_f2elm_masks (x y z : f2elm_t) :
  f2elm_ok x -> f2elm_ok y -> f2elm_sized z ->
  select_f2elm x y z 0 = x /\ select_f2elm x y z mask_ones = y.
Proof.
  intros Hx Hy Hz.
  rewrite !select_f2elm_closed by (assumption || now apply f2elm_ok_sized).
  destruct Hx as [(Lx0 & Dx0 & _) (Lx1 & Dx1 & _)].
  destruct Hy as [(Ly0 & Dy0 & _) (Ly1 & Dy1 & _)].
  rewrite !map2_fst_zero, !map2_fst_ones by (assumption || congruence).
  now destruct x, y.
Qed.

(** ** Reduced outputs *)

Lemma point_ok_wf (P : point_proj) : point_ok P -> point_wf P.
Proof.
  intros [[? ?] [? ?]]. repeat split; now apply felm_ok_wf.
Qed.

Lemma point_basefield_ok_wf (P : point_basefield_proj) :
  point_basefield_ok P -> point_basefield_wf P.
Proof. intros [? ?]. split; now apply felm_ok_wf. Qed.

(** C5: on inputs with reduced components, every output component of the
    GF(p751^2) operations is reduced; the double-width values that
    [fp2mul751_mont] hands to the Montgomery reduction lie in
    [0, 2^768 * p751); selection and swapping with the all-zero or the
    all-one mask return reduced operands. *)
Theorem fp2_operations_reduced (a b z : f2elm_t) (P Q : point_proj)
        (Pb Qb : point_basefield_proj) (option : digit_t) :
  f2elm_ok a -> f2elm_ok b -> f2elm_sized z ->
  point_ok P -> point_ok Q ->
  point_basefield_ok Pb -> point_basefield_ok Qb ->
  option = 0 \/ option = mask_ones ->
  (f2elm_ok (fp2add751 a b) /\ f2elm_ok (fp2sub751 a b) /\
   f2elm_ok (fp2neg751 a) /\ f2elm_ok (fp2div2_751 a) /\
   f2elm_ok (fp2mul751_mont a b) /\ f2elm_ok (fp2sqr751_mont a) /\
   f2elm_ok (fp2inv751_mont a)) /\
  (0 <= val (fp2mul751_tt3 a b) < Mont_R * p751z /\
   0 <= val (fp2mul751_tt2 a b) < Mont_R * p751z) /\
  (f2elm_ok (select_f2elm a b z option) /\
   point_ok (fst (swap_points P Q option)) /\
   point_ok (snd (swap_points P Q option)) /\
   point_basefield_ok (fst (swap_points_basefield Pb Qb option)) /\
   point_basefield_ok (snd (swap_points_basefield Pb Qb option))).
Proof.
  intros Ha Hb Hz HP HQ HPb HQb Hopt.
  split; [|split].
  - split; [split; apply fpadd751_ok|].
    split; [split; apply fpsub751_ok|].
    split; [split; apply fpneg751_ok|].
    split; [split; apply fpdiv2_751_ok|].
    split; [rewrite fp2mul751_mont_eq; split; apply rdc_mont_ok|].
    split; split; apply fpmul751_mont_ok.
  - split.
    + now destruct (fp2mul751_tt3_spec a b Ha Hb) as (_ & _ & _ & H).
    + now destruct (fp2mul751_tt2_spec a b Ha Hb) as (_ & _ & _ & H).
  - destruct (select_f2elm_masks a b z Ha Hb Hz) as [S0 S1].
    pose proof (point_ok_wf P HP) as WP. pose proof (point_ok_wf Q HQ) as WQ.
    pose proof (point_basefield_ok_wf Pb HPb) as WPb.
    pose proof (point_basefield_ok_wf Qb HQb) as WQb.
    destruct Hopt as [-> | ->].
    + rewrite S0, (swap_points_zero P Q), (swap_points_basefield_zero Pb Qb)
        by (now apply point_wf_sized || now apply point_basefield_wf_sized).
      cbn [fst snd]. repeat first [assumption | apply conj].
    + rewrite S1, (swap_points_ones P Q WP WQ),
        (swap_points_basefield_ones Pb Qb WPb WQb).
      cbn [fst snd]. repeat first [assumption | apply conj].
Qed.

Ltac sample_felm_ok_tac :=
  split; [reflexivity|]; split; [|reflexivity];
  repeat constructor; vm_compute; congruence.

Lemma sample_P_ok : point_ok sample_P.
Proof. split; split; sample_felm_ok_tac. Defined.

Lemma sample_Q_ok : point_ok sample_Q.
Proof. split; split; sample_felm_ok_tac. Defined.

Lemma sample_Pb_ok : point_basefield_ok sample_Pb.
Proof. split; sample_felm_ok_tac. Defined.

Lemma sample_Qb_ok : point_basefield_ok sample_Qb.
Proof. split; sample_felm_ok_tac. Defined.

Lemma sample_f2elm_ok' : f2elm_ok (sample_felm 40, sample_felm 60).
Proof. split; sample_felm_ok_tac. Defined.

Lemma fp2_operations_reduced_witness :
  (f2elm_ok (sample_felm 1, sample_felm 20) /\
   f2elm_ok (sample_felm 40, sample_felm 60) /\
   f2elm_sized (felm_zero, felm_zero) /\
   point_ok sample_P /\ point_ok sample_Q /\
   point_basefield_ok sample_Pb /\ point_basefield_ok sample_Qb /\
   (mask_ones = 0 \/ mask_ones = mask_ones)) /\
  ((f2elm_ok (fp2add751 (sample_felm 1, sample_felm 20)
                        (sample_felm 40, sample_felm 60)) /\
    f2elm_ok (fp2sub751 (sample_felm 1, sample_felm 20)
                        (sample_felm 40, sample_felm 60)) /\
    f2elm_ok (fp2neg751 (sample_felm 1, sample_felm 20)) /\
    f2elm_ok (fp2div2_751 (sample_felm 1, sample_felm 20)) /\
    f2elm_ok (fp2mul751_mont (sample_felm 1, sample_felm 20)
                             (sample_felm 40, sample_felm 60)) /\
    f2elm_ok (fp2sqr751_mont (sample_felm 1, sample_felm 20)) /\
    f2elm_ok (fp2inv751_mont (sample_felm 1, sample_felm 20))) /\
   (0 <= val (fp2mul751_tt3 (sample_felm 1, sample_felm 20)
                            (sample_felm 40, sample_felm 60))
    < Mont_R * p751z /\
    0 <= val (fp2mul751_tt2 (sample_felm 1, sample_felm 20)
                            (sample_felm 40, sample_felm 60))
    < Mont_R * p751z) /\
   (f2elm_ok (select_f2elm (sample_felm 1, sample_felm 20)
                           (sample_felm 40, sample_felm 60)
                           (felm_zero, felm_zero) mask_ones) /\
    point_ok (fst (swap_points sample_P sample_Q mask_ones)) /\
    point_ok (snd (swap_points sample_P sample_Q mask_ones)) /\
    point_basefield_ok (fst (swap_points_basefield sample_Pb sample_Qb mask_ones)) /\
    point_basefield_ok (snd (swap_points_basefield sample_Pb sample_Qb mask_ones)))).
Proof.
  assert (Hz : f2elm_sized (felm_zero, felm_zero)) by (split; reflexivity).
  assert (Hm : mask_ones = 0 \/ mask_ones = mask_ones) by (right; reflexivity).
  split.
  - repeat first
      [ exact sample_f2elm_ok | exact sample_f2elm_ok' | exact Hz | exact Hm
      | exact sample_P_ok | exact sample_Q_ok
      | exact sample_Pb_ok | exact sample_Qb_ok | apply conj ].
  - apply (fp2_operations_reduced
             (sample_felm 1, sample_felm 20) (sample_felm 40, sample_felm 60)
             (felm_zero, felm_zero) sample_P sample_Q sample_Pb sample_Qb
             mask_ones
             sample_f2elm_ok sample_f2elm_ok' Hz
             sample_P_ok sample_Q_ok sample_Pb_ok sample_Qb_ok Hm).
Defined.

(* ================================================================== *)
(** * Part III: further properties of the code                         *)
(* ================================================================== *)

(** ** Copying words *)

Lemma copy_words_loop (k : nat) : forall (pa pc ra rc : list digit_t),
  length pa = length pc -> (k <= length ra)%nat -> (k <= length rc)%nat ->
  for_from (length pc) k (fun i c => upd c i (rd (pa ++ ra) i)) (pc ++ rc)
  = pc ++ firstn k ra ++ skipn k rc.
Proof.
  induction k as [|k IH]; intros pa pc ra rc Hp Ha Hc; [reflexivity|].
  destruct ra as [|d ra]; [simpl in Ha; lia|].
  destruct rc as [|e rc]; [simpl in Hc; lia|].
  cbn [for_from firstn skipn].
  replace (rd (pa ++ d :: ra) (length pc)) with d
    by (rewrite <- Hp; symmetry; apply rd_app_length).
  rewrite upd_app_length.
  rewrite (snoc_assoc pc d rc), (snoc_assoc pa d ra).
  rewrite <- (length_snoc pc d).
  rewrite IH; [| rewrite !length_snoc; congruence | simpl in Ha; lia | simpl in Hc; lia].
  rewrite <- app_assoc. reflexivity.
Qed.

(** X1: [copy_words a c nwords] overwrites the first [nwords] words of [c]
    with those of [a] and leaves every later word of [c] as it was. *)
Theorem copy_words_prefix (a c : list digit_t) (nwords : nat) :
  (nwords <= length a)%nat -> (nwords <= length c)%nat ->
  copy_words a c nwords = firstn nwords a ++ skipn nwords c.
Proof.
  intros Ha Hc. unfold copy_words, for_lt.
  exact (copy_words_loop nwords [] [] a c eq_refl Ha Hc).
Qed.

Lemma copy_words_prefix_witness :
  ((2 <= length (sample_words 1))%nat /\ (2 <= length (sample_words 5))%nat) /\
  copy_words (sample_words 1) (sample_words 5) 2
  = firstn 2 (sample_words 1) ++ skipn 2 (sample_words 5).
Proof.
  split; [split; simpl; lia|].
  apply (copy_words_prefix (sample_words 1) (sample_words 5) 2); simpl; lia.
Defined.

(** ** Multiprecision addition and subtraction *)

Lemma digits_val_inj (x y : list digit_t) :
  length x = length y -> digits_ok x -> digits_ok y -> val x = val y -> x = y.
Proof.
  intros L Dx Dy E.
  rewrite <- (to_digits_val x Dx), <- (to_digits_val y Dy).
  now rewrite L, E.
Qed.

Lemma sample_words_ok (k : Z) : 0 < k < 1000 -> digits_ok (sample_words k).
Proof.
  intros H. unfold sample_words. pose proof wB_eq as E.
  repeat constructor; lia.
Qed.

(** X2: on [nwords]-digit arrays [mp_add] returns the low [nwords] digits of
    the sum and, as carry, the digit above them: the sum divided by
    [2^(64*nwords)]. *)
Theorem mp_add_sum_carry (a b c : list digit_t) (nwords : nat) :
  length a = nwords -> length b = nwords -> length c = nwords ->
  digits_ok a -> digits_ok b ->
  length (snd (mp_add a b c nwords)) = nwords /\
  digits_ok (snd (mp_add a b c nwords)) /\
  val (snd (mp_add a b c nwords)) = (val a + val b) mod wB ^ Z.of_nat nwords /\
  fst (mp_add a b c nwords) = (val a + val b) / wB ^ Z.of_nat nwords.
Proof.
  intros Ha Hb Hc Da Db. subst nwords.
  destruct (mp_add_spec a b c Hb Hc Da Db) as (H1 & H2 & H3 & H4).
  pose proof (val_bound _ H2) as Hs. rewrite H1 in Hs.
  split; [exact H1|]. split; [exact H2|]. split.
  - apply (Z.mod_unique_pos _ _ (fst (mp_add a b c (length a)))); lia.
  - apply (Z.div_unique_pos _ _ _ (val (snd (mp_add a b c (length a))))); lia.
Qed.

Lemma mp_add_sum_carry_witness :
  (length (sample_words 1) = 3%nat /\ length (sample_words 5) = 3%nat /\
   length (sample_words 9) = 3%nat /\
   digits_ok (sample_words 1) /\ digits_ok (sample_words 5)) /\
  (length (snd (mp_add (sample_words 1) (sample_words 5) (sample_words 9) 3)) = 3%nat /\
   digits_ok (snd (mp_add (sample_words 1) (sample_words 5) (sample_words 9) 3)) /\
   val (snd (mp_add (sample_words 1) (sample_words 5) (sample_words 9) 3))
   = (val (sample_words 1) + val (sample_words 5)) mod wB ^ Z.of_nat 3 /\
   fst (mp_add (sample_words 1) (sample_words 5) (sample_words 9) 3)
   = (val (sample_words 1) + val (sample_words 5)) / wB ^ Z.of_nat 3).
Proof.
  assert (D1 : digits_ok (sample_words 1)) by (apply sample_words_ok; lia).
  assert (D5 : digits_ok (sample_words 5)) by (apply sample_words_ok; lia).
  split; [repeat split; assumption|].
  exact (mp_add_sum_carry (sample_words 1) (sample_words 5) (sample_words 9) 3
           eq_refl eq_refl eq_refl D1 D5).
Defined.

(** X3: on [nwords]-digit arrays [mp_sub] returns the difference modulo
    [2^(64*nwords)], and its borrow is 1 exactly when [a < b]. *)
Theorem mp_sub_difference_borrow (a b c : list digit_t) (nwords : nat) :
  length a = nwords -> length b = nwords -> length c = nwords ->
  digits_ok a -> digits_ok b ->
  length (snd (mp_sub a b c nwords)) = nwords /\
  digits_ok (snd (mp_sub a b c nwords)) /\
  val (snd (mp_sub a b c nwords)) = (val a - val b) mod wB ^ Z.of_nat nwords /\
  (fst (mp_sub a b c nwords) = 1 <-> val a < val b) /\
  (fst (mp_sub a b c nwords) = 0 <-> val b <= val a).
Proof.
  intros Ha Hb Hc Da Db.
  destruct (mp_sub_borrow a b c nwords Ha Hb Hc Da Db) as (H1 & H2 & H3 & H4).
  pose proof (val_bound _ H2) as Hs. rewrite H1 in Hs.
  split; [exact H1|]. split; [exact H2|].
  rewrite H3. destruct (Z.ltb_spec (val a) (val b)) as [L|L].
  - split; [|split; split; intros; (lia || reflexivity)].
    apply (Z.mod_unique_pos _ _ (-1)); lia.
  - split; [|split; split; intros; (lia || reflexivity)].
    apply (Z.mod_unique_pos _ _ 0); lia.
Qed.

Lemma mp_sub_difference_borrow_witness :
  (length (sample_words 1) = 3%nat /\ length (sample_words 5) = 3%nat /\
   length (sample_words 9) = 3%nat /\
   digits_ok (sample_words 1) /\ digits_ok (sample_words 5)) /\
  (length (snd (mp_sub (sample_words 1) (sample_words 5) (sample_words 9) 3)) = 3%nat /\
   digits_ok (snd (mp_sub (sample_words 1) (sample_words 5) (sample_words 9) 3)) /\
   val (snd (mp_sub (sample_words 1) (sample_words 5) (sample_words 9) 3))
   = (val (sample_words 1) - val (sample_words 5)) mod wB ^ Z.of_nat 3 /\
   (fst (mp_sub (sample_words 1) (sample_words 5) (sample_words 9) 3) = 1
    <-> val (sample_words 1) < val (sample_words 5)) /\
   (fst (mp_sub (sample_words 1) (sample_words 5) (sample_words 9) 3) = 0
    <-> val (sample_words 5) <= val (sample_words 1))).
Proof.
  assert (D1 : digits_ok (sample_words 1)) by (apply sample_words_ok; lia).
  assert (D5 : digits_ok (sample_words 5)) by (apply sample_words_ok; lia).
  split; [repeat split; assumption|].
  exact (mp_sub_difference_borrow (sample_words 1) (sample_words 5) (sample_words 9) 3
           eq_refl eq_refl eq_refl D1 D5).
Defined.

(** X4: subtracting [b] again from the digits of [mp_add a b] gives back the
    digits of [a], and the borrow of the subtraction equals the carry of the
    addition. *)
Theorem mp_add_then_sub (a b c c' : list digit_t) (nwords : nat) :
  length a = nwords -> length b = nwords ->
  length c = nwords -> length c' = nwords ->
  digits_ok a -> digits_ok b ->
  mp_sub (snd (mp_add a b c nwords)) b c' nwords
  = (fst (mp_add a b c nwords), a).
Proof.
  intros Ha Hb Hc Hc' Da Db. subst nwords.
  destruct (mp_add_spec a b c Hb Hc Da Db) as (H1 & H2 & H3 & H4).
  destruct (mp_sub_borrow _ b c' (length a) H1 Hb Hc' H2 Db) as (G1 & G2 & G3 & G4).
  pose proof (val_bound _ Da) as Ba. pose proof (val_bound _ Db) as Bb.
  rewrite Hb in Bb.
  pose proof (val_bound _ H2) as Bs. rewrite H1 in Bs.
  rewrite (surjective_pairing (mp_sub _ b c' (length a))).
  assert (C : fst (mp_add a b c (length a)) = 0 \/
              fst (mp_add a b c (length a)) = 1) by lia.
  f_equal.
  - rewrite G3.
    destruct (Z.ltb_spec (val (snd (mp_add a b c (length a)))) (val b));
      destruct C as [C|C]; rewrite C in *; lia.
  - apply digits_val_inj; [exact G1 | exact G2 | exact Da |].
    rewrite G4.
    destruct (Z.ltb_spec (val (snd (mp_add a b c (length a)))) (val b));
      destruct C as [C|C]; rewrite C in *; lia.
Qed.

Lemma mp_add_then_sub_witness :
  (length (sample_words 1) = 3%nat /\ length (sample_words 5) = 3%nat /\
   length (sample_words 9) = 3%nat /\ length (sample_words 7) = 3%nat /\
   digits_ok (sample_words 1) /\ digits_ok (sample_words 5)) /\
  mp_sub (snd (mp_add (sample_words 1) (sample_words 5) (sample_words 9) 3))
         (sample_words 5) (sample_words 7) 3
  = (fst (mp_add (sample_words 1) (sample_words 5) (sample_words 9) 3),
     sample_words 1).
Proof.
  assert (D1 : digits_ok (sample_words 1)) by (apply sample_words_ok; lia).
  assert (D5 : digits_ok (sample_words 5)) by (apply sample_words_ok; lia).
  split; [repeat split; assumption|].
  exact (mp_add_then_sub (sample_words 1) (sample_words 5) (sample_words 9)
           (sample_words 7) 3 eq_refl eq_refl eq_refl eq_refl D1 D5).
Defined.

(** ** The parity, comparison and zero tests *)

(** X5: [is_felm_even x] is 1 when the integer held by [x] is even and 0
    when it is odd. *)
Theorem is_felm_even_parity (x : felm_t) :
  is_felm_even x = if Z.even (val x) then 1 else 0.
Proof.
  unfold is_felm_even, to_uint.
  assert (E : Z.even (val x) = Z.even (rd x 0)).
  { destruct x as [|d x]; [reflexivity|]. cbn [val]. unfold rd; cbn [nth].
    rewrite Z.even_add, Z.even_mul.
    replace (Z.even wB) with true by (rewrite wB_eq; reflexivity).
    cbn [orb]. now destruct (Z.even d). }
  rewrite E.
  change 1 with (Z.ones 1) at 1. rewrite Z.land_ones by lia.
  change (2 ^ 1) with 2. rewrite Zmod_even.
  destruct (Z.even (rd x 0)); reflexivity.
Qed.

Lemma is_felm_lt_loop (x y : felm_t) (n : nat) : forall r,
  r <= for_down n (fun i r => r + Z.land (CT_LT (rd x i) (rd y i)) 1) r
    <= r + Z.of_nat n /\
  (for_down n (fun i r => r + Z.land (CT_LT (rd x i) (rd y i)) 1) r = r
   <-> forall i, (i < n)%nat -> rd y i <= rd x i).
Proof.
  induction n as [|n IH]; intros r.
  - cbn [for_down]. split; [simpl; lia|]. split; [intros _ i Hi; lia | reflexivity].
  - cbn [for_down].
    destruct (IH (r + Z.land (CT_LT (rd x n) (rd y n)) 1)) as [B I].
    unfold CT_LT in *. destruct (Z.ltb_spec (rd x n) (rd y n)) as [L|L];
      cbn [Z.land Pos.land] in *.
    + split; [lia|]. split.
      * intros E. lia.
      * intros H. specialize (H n (Nat.lt_succ_diag_r n)). lia.
    + rewrite Z.add_0_r in *. split; [lia|].
      rewrite I. split.
      * intros H i Hi. destruct (Nat.eq_dec i n) as [->|Hne]; [exact L|].
        apply H. lia.
      * intros H i Hi. apply H. lia.
Qed.

Lemma val_le_pointwise (x : list digit_t) : forall y,
  length y = length x ->
  (forall i, (i < length x)%nat -> rd y i <= rd x i) ->
  val y <= val x.
Proof.
  induction x as [|d x IH]; intros [|e y] L H; try (simpl in L; lia).
  cbn [val]. pose proof (H 0%nat (Nat.lt_0_succ _)) as H0. unfold rd in H0; cbn [nth] in H0.
  assert (val y <= val x).
  { apply IH; [now injection L|]. intros i Hi.
    exact (H (S i) (proj1 (Nat.succ_lt_mono _ _) Hi)). }
  pose proof wB_pos. nia.
Qed.

(** X6: [is_felm_lt x y] is the number of digit positions at which the digit
    of [x] is below the digit of [y]: it lies between 0 and 12 and is 0
    exactly when no digit of [x] is below the digit of [y] at its place. *)
Theorem is_felm_lt_digit_count (x y : felm_t) :
  0 <= is_felm_lt x y <= 12 /\
  (is_felm_lt x y = 0 <->
   forall i, (i < NWORDS_FIELD)%nat -> rd y i <= rd x i).
Proof.
  unfold is_felm_lt. destruct (is_felm_lt_loop x y NWORDS_FIELD 0) as [B I].
  split; [|exact I]. change (Z.of_nat NWORDS_FIELD) with 12 in B. lia.
Qed.

(** X7: whenever the integer of [x] is below the integer of [y],
    [is_felm_lt x y] is nonzero: the test has no false negative, its defect
    is confined to answering nonzero for some [x >= y]. *)
Theorem is_felm_lt_no_false_negative (x y : felm_t) :
  length x = NWORDS_FIELD -> length y = NWORDS_FIELD ->
  val x < val y -> 1 <= is_felm_lt x y.
Proof.
  intros Lx Ly H. unfold is_felm_lt.
  destruct (is_felm_lt_loop x y NWORDS_FIELD 0) as [B I].
  destruct (Z.eq_dec (for_down NWORDS_FIELD
              (fun i r => r + Z.land (CT_LT (rd x i) (rd y i)) 1) 0) 0) as [E|E]; [|lia].
  pose proof (proj1 I E) as P. rewrite <- Lx in P.
  pose proof (val_le_pointwise x y (eq_trans Ly (eq_sym Lx)) P). lia.
Qed.

Lemma is_felm_lt_no_false_negative_witness :
  (length (sample_felm 1) = NWORDS_FIELD /\ length (sample_felm 20) = NWORDS_FIELD /\
   val (sample_felm 1) < val (sample_felm 20)) /\
  1 <= is_felm_lt (sample_felm 1) (sample_felm 20).
Proof.
  split; [repeat split|].
  apply (is_felm_lt_no_false_negative (sample_felm 1) (sample_felm 20));
    reflexivity.
Defined.

Lemma is_felm_zero_loop (x : felm_t) (n : nat) : forall lo r,
  0 <= r < 2 ^ 32 ->
  0 <= for_from lo n (fun i r => to_uint (Z.lor r (Z.lxor (rd x i) 0))) r < 2 ^ 32 /\
  (for_from lo n (fun i r => to_uint (Z.lor r (Z.lxor (rd x i) 0))) r = 0
   <-> r = 0 /\ forall i, (lo <= i < lo + n)%nat -> rd x i mod 2 ^ 32 = 0).
Proof.
  induction n as [|n IH]; intros lo r Hr.
  - cbn [for_from]. split; [exact Hr|]. split; [intros E; split; [exact E|intros; lia] | tauto].
  - cbn [for_from].
    assert (Hr' : 0 <= to_uint (Z.lor r (Z.lxor (rd x lo) 0)) < 2 ^ 32)
      by (apply Z.mod_pos_bound; lia).
    assert (E : to_uint (Z.lor r (Z.lxor (rd x lo) 0)) = Z.lor r (rd x lo mod 2 ^ 32)).
    { unfold to_uint. rewrite Z.lxor_0_r.
      rewrite <- !Z.land_ones by lia. rewrite Z.land_lor_distr_l.
      rewrite (Z.land_ones r) by lia. now rewrite Z.mod_small by exact Hr. }
    destruct (IH (S lo) _ Hr') as [B I]. split; [exact B|].
    rewrite I, E, Z.lor_eq_0_iff. split.
    + intros [[H1 H2] H3]. split; [exact H1|]. intros i Hi.
      destruct (Nat.eq_dec i lo) as [->|Hne]; [exact H2|]. apply H3. lia.
    + intros [H1 H2]. split; [split; [exact H1|apply H2; lia]|].
      intros i Hi. apply H2. lia.
Qed.

(** X8: [is_felm_zero x] fits in 32 bits and is 0 exactly when the low 32
    bits of each of the 12 digits of [x] are zero; the upper halves of the
    digits have no influence on the answer. *)
Theorem is_felm_zero_low_halves (x : felm_t) :
  0 <= is_felm_zero x < 2 ^ 32 /\
  (is_felm_zero x = 0 <->
   forall i, (i < NWORDS_FIELD)%nat -> rd x i mod 2 ^ 32 = 0).
Proof.
  unfold is_felm_zero, for_lt.
  destruct (is_felm_zero_loop x NWORDS_FIELD 0 0 ltac:(lia)) as [B I].
  split; [exact B|]. rewrite I. split.
  - intros [_ H] i Hi. apply H. lia.
  - intros H. split; [reflexivity|]. intros i Hi. apply H. lia.
Qed.

(** ** Shifting by one bit *)

Lemma lxor_disjoint_bit (a k : Z) (b : Z) :
  0 <= k -> 0 <= b <= 1 -> Z.land a (2 ^ k) = 0 ->
  Z.lxor a (b * 2 ^ k) = a + b * 2 ^ k.
Proof.
  intros Hk Hb H. assert (C : b = 0 \/ b = 1) by lia.
  destruct C as [-> | ->].
  - rewrite Z.mul_0_l, Z.lxor_0_r. lia.
  - rewrite Z.mul_1_l. symmetry. apply Z.add_nocarry_lxor. exact H.
Qed.

Lemma land_pow2_small (a k : Z) : 0 <= k -> 0 <= a < 2 ^ k -> Z.land a (2 ^ k) = 0.
Proof.
  intros Hk Ha. apply Z.bits_inj'. intros n Hn.
  rewrite Z.land_spec, Z.bits_0, Z.pow2_bits_eqb by lia.
  destruct (Z.eqb_spec k n) as [->|Hne]; [|apply andb_false_r].
  rewrite andb_true_r.
  destruct (Z.eq_dec a 0) as [->|Hz]; [apply Z.bits_0|].
  apply Z.bits_above_log2; [lia|]. apply Z.log2_lt_pow2; lia.
Qed.

Lemma SHIFTR_spec (e d : digit_t) :
  0 <= d < wB -> SHIFTR e d 1 RADIX = d / 2 + (e mod 2) * 2 ^ 63.
Proof.
  intros Hd. unfold SHIFTR, to_digit, RADIX.
  change (64 - 1) with 63.
  rewrite Z.shiftr_div_pow2, Z.shiftl_mul_pow2 by lia.
  change (2 ^ 1) with 2. rewrite wB_eq.
  change 18446744073709551616 with (2 * 2 ^ 63).
  rewrite Z.mul_mod_distr_r by lia.
  assert (He : 0 <= e mod 2 < 2) by (apply Z.mod_pos_bound; lia).
  apply lxor_disjoint_bit; [lia | lia |].
  apply land_pow2_small; [lia|]. rewrite wB_eq in Hd.
  split; [apply Z.div_pos; lia | apply Z.div_lt_upper_bound; lia].
Qed.

Lemma SHIFTL_spec (d prev : digit_t) :
  0 <= prev < wB -> SHIFTL d prev 1 RADIX = (2 * d) mod wB + prev / 2 ^ 63.
Proof.
  intros Hp. unfold SHIFTL, to_digit, RADIX.
  change (64 - 1) with 63.
  rewrite Z.shiftr_div_pow2, Z.shiftl_mul_pow2 by lia.
  change (2 ^ 1) with 2. rewrite (Z.mul_comm d 2).
  rewrite wB_eq in *.
  assert (Hb : 0 <= prev / 2 ^ 63 <= 1).
  { split; [apply Z.div_pos; lia|].
    apply Z.lt_succ_r. apply Z.div_lt_upper_bound; lia. }
  change 18446744073709551616 with (2 * 2 ^ 63).
  rewrite Z.mul_mod_distr_l by lia.
  pose proof (lxor_disjoint_bit (2 * (d mod 2 ^ 63)) 0 (prev / 2 ^ 63)) as L.
  change (2 ^ 0) with 1 in L. rewrite Z.mul_1_r in L. apply L; [lia | exact Hb |].
  change 1 with (Z.ones 1). rewrite Z.land_ones by lia.
  change (2 ^ 1) with 2. rewrite Z.mul_comm. apply Z.mod_mul. lia.
Qed.

Lemma rd_app_length_succ (pre : list digit_t) (d e : digit_t) (rest : list digit_t) :
  rd (pre ++ d :: e :: rest) (length pre + 1) = e.
Proof.
  rewrite (snoc_assoc pre d), Nat.add_1_r, <- (length_snoc pre d).
  apply rd_app_length.
Qed.

Lemma mp_shiftr1_loop (rest : list digit_t) : forall (pre : list digit_t) (d : digit_t),
  for_from (length pre) (length rest)
    (fun i x => upd x i (SHIFTR (rd x (i + 1)) (rd x i) 1 RADIX))
    (pre ++ d :: rest)
  = pre ++ shiftr_digits (d :: rest).
Proof.
  induction rest as [|e rest IH]; intros pre d; [reflexivity|].
  cbn [for_from length shiftr_digits].
  rewrite rd_app_length_succ, rd_app_length, upd_app_length.
  rewrite (snoc_assoc pre (SHIFTR e d 1 RADIX)).
  rewrite <- (length_snoc pre (SHIFTR e d 1 RADIX)).
  rewrite IH. rewrite <- app_assoc. reflexivity.
Qed.

Lemma val_even_tail (e : digit_t) (t : list digit_t) :
  val (e :: t) mod 2 = e mod 2.
Proof.
  cbn [val]. rewrite wB_eq.
  replace (e + 18446744073709551616 * val t)
    with (e + (9223372036854775808 * val t) * 2) by ring.
  apply Z.mod_add. lia.
Qed.

Lemma mp_shiftr1_last (l : list digit_t) :
  l <> [] -> digits_ok l ->
  length (upd (shiftr_digits l) (length l - 1)
              (Z.shiftr (rd (shiftr_digits l) (length l - 1)) 1)) = length l /\
  digits_ok (upd (shiftr_digits l) (length l - 1)
                 (Z.shiftr (rd (shiftr_digits l) (length l - 1)) 1)) /\
  val (upd (shiftr_digits l) (length l - 1)
           (Z.shiftr (rd (shiftr_digits l) (length l - 1)) 1)) = val l / 2.
Proof.
  induction l as [|d l IH]; intros Hne Hd; [congruence|].
  inversion Hd as [|? ? Hd0 Hdl]; subst.
  destruct l as [|e t].
  - cbn [shiftr_digits length Nat.sub upd val]. unfold rd; cbn [nth].
    rewrite Z.shiftr_div_pow2 by lia. change (2 ^ 1) with 2.
    rewrite Z.mul_0_r, !Z.add_0_r.
    split; [reflexivity|]. split; [|reflexivity].
    repeat constructor; [apply Z.div_pos; lia|].
    apply Z.div_lt_upper_bound; lia.
  - assert (Hne' : e :: t <> []) by discriminate.
    destruct (IH Hne' Hdl) as (L & D & V).
    replace (length (d :: e :: t) - 1)%nat with (S (length (e :: t) - 1))
      by (cbn [length]; lia).
    change (shiftr_digits (d :: e :: t))
      with (SHIFTR e d 1 RADIX :: shiftr_digits (e :: t)).
    change (rd (SHIFTR e d 1 RADIX :: shiftr_digits (e :: t)) (S (length (e :: t) - 1)))
      with (rd (shiftr_digits (e :: t)) (length (e :: t) - 1)).
    cbn [upd].
    set (r := upd (shiftr_digits (e :: t)) (length (e :: t) - 1)
                  (Z.shiftr (rd (shiftr_digits (e :: t)) (length (e :: t) - 1)) 1)) in *.
    rewrite SHIFTR_spec by exact Hd0.
    assert (He : 0 <= e mod 2 < 2) by (apply Z.mod_pos_bound; lia).
    assert (Hd2 : 0 <= d / 2 < 2 ^ 63).
    { rewrite wB_eq in Hd0.
      split; [apply Z.div_pos; lia | apply Z.div_lt_upper_bound; lia]. }
    split; [cbn [length]; now rewrite L|]. split.
    + constructor; [rewrite wB_eq; lia | exact D].
    + rewrite <- (val_even_tail e t).
      change (val (d :: e :: t)) with (d + wB * val (e :: t)).
      set (v := val (e :: t)) in *.
      match goal with
      | |- val (?h :: r) = _ => change (val (h :: r)) with (h + wB * val r)
      end.
      rewrite V.
      pose proof (Z.div_mod v 2 ltac:(lia)) as E.
      replace (d + wB * v) with (d + (wB * (v / 2) + (v mod 2) * 2 ^ 63) * 2)
        by (rewrite wB_eq; lia).
      rewrite Z.div_add by lia. ring.
Qed.

Lemma nwords_minus_1_eq (nwords : nat) :
  (1 <= nwords)%nat -> Z.of_nat nwords <= 2 ^ 32 ->
  Z.to_nat (nwords_minus_1 nwords) = (nwords - 1)%nat.
Proof.
  intros H1 H2. unfold nwords_minus_1, to_uint.
  rewrite Z.mod_small by lia. lia.
Qed.

Lemma mp_shiftr1_value (x : list digit_t) (nwords : nat) :
  (1 <= nwords)%nat -> Z.of_nat nwords <= 2 ^ 32 ->
  length x = nwords -> digits_ok x ->
  length (mp_shiftr1 x nwords) = nwords /\
  digits_ok (mp_shiftr1 x nwords) /\
  val (mp_shiftr1 x nwords) = val x / 2.
Proof.
  intros H1 H2 L D. unfold mp_shiftr1, for_lt.
  rewrite nwords_minus_1_eq by assumption. subst nwords.
  destruct x as [|d rest]; [simpl in H1; lia|].
  replace (length (d :: rest) - 1)%nat with (length rest) by (simpl; lia).
  pose proof (mp_shiftr1_loop rest [] d) as E. cbn [length app] in E.
  rewrite E. clear E.
  pose proof (mp_shiftr1_last (d :: rest) ltac:(discriminate) D) as P.
  replace (length (d :: rest) - 1)%nat with (length rest) in P by (simpl; lia).
  exact P.
Qed.

(** X9: on an array of [nwords >= 1] digits [mp_shiftr1] halves the integer
    (rounding down): the bit that leaves a digit enters the digit below. *)
Theorem mp_shiftr1_halves (x : list digit_t) (nwords : nat) :
  (1 <= nwords)%nat -> Z.of_nat nwords <= 2 ^ 32 ->
  length x = nwords -> digits_ok x ->
  length (mp_shiftr1 x nwords) = nwords /\
  digits_ok (mp_shiftr1 x nwords) /\
  val (mp_shiftr1 x nwords) = val x / 2.
Proof. exact (mp_shiftr1_value x nwords). Qed.

Lemma mp_shiftr1_halves_witness :
  ((1 <= 3)%nat /\ Z.of_nat 3 <= 2 ^ 32 /\
   length (sample_words 5) = 3%nat /\ digits_ok (sample_words 5)) /\
  (length (mp_shiftr1 (sample_words 5) 3) = 3%nat /\
   digits_ok (mp_shiftr1 (sample_words 5) 3) /\
   val (mp_shiftr1 (sample_words 5) 3) = val (sample_words 5) / 2).
Proof.
  assert (D5 : digits_ok (sample_words 5)) by (apply sample_words_ok; lia).
  assert (H1 : (1 <= 3)%nat) by lia.
  assert (H2 : Z.of_nat 3 <= 2 ^ 32) by (vm_compute; discriminate).
  split; [repeat split; assumption|].
  exact (mp_shiftr1_halves (sample_words 5) 3 H1 H2 eq_refl D5).
Defined.

Lemma last_cons_shift (l : list digit_t) : forall (e prev : digit_t),
  last (e :: l) prev = last l e.
Proof.
  induction l as [|a l IH]; intros e prev; [reflexivity|].
  change (last (e :: a :: l) prev) with (last (a :: l) prev).
  rewrite (IH a prev), (IH a e). reflexivity.
Qed.

Lemma shiftl_digits_snoc (l : list digit_t) : forall (prev d : digit_t),
  shiftl_digits prev (l ++ [d])
  = shiftl_digits prev l ++ [SHIFTL d (last l prev) 1 RADIX].
Proof.
  induction l as [|e l IH]; intros prev d; [reflexivity|].
  cbn [app shiftl_digits]. rewrite IH, last_cons_shift. reflexivity.
Qed.

Lemma mp_shiftl1_loop (rp : list digit_t) : forall (d : digit_t) (post : list digit_t),
  for_downto1 (length rp)
    (fun i x => upd x i (SHIFTL (rd x i) (rd x (i - 1)) 1 RADIX))
    (rev rp ++ d :: post)
  = hd 0 (rev rp ++ [d])
    :: shiftl_digits (hd 0 (rev rp ++ [d])) (tl (rev rp ++ [d])) ++ post.
Proof.
  induction rp as [|e rp IH]; intros d post; [reflexivity|].
  cbn [for_downto1 length].
  replace (S (length rp)) with (length (rev (e :: rp)))
    by (rewrite length_rev; reflexivity).
  rewrite rd_app_length, upd_app_length.
  replace (rd (rev (e :: rp) ++ d :: post) (length (rev (e :: rp)) - 1)) with e.
  2:{ cbn [rev]. rewrite <- app_assoc. cbn [app].
      rewrite length_snoc, Nat.sub_succ, Nat.sub_0_r.
      symmetry. apply rd_app_length. }
  cbn [rev]. rewrite <- !app_assoc. cbn [app].
  rewrite IH.
  assert (E : exists x0 l, rev rp ++ [e] = x0 :: l /\ last l x0 = e).
  { destruct (rev rp) as [|x0 l]; [exists e, []; split; reflexivity|].
    exists x0, (l ++ [e]). split; [reflexivity|]. apply last_last. }
  destruct E as (x0 & l & E & El).
  change [e; d] with ([e] ++ [d]).
  rewrite (app_assoc (rev rp) [e] [d]), E. cbn [hd tl app].
  rewrite shiftl_digits_snoc, El, <- app_assoc. reflexivity.
Qed.

Lemma val_shiftl_digits (l : list digit_t) : forall prev,
  digits_ok l -> 0 <= prev < wB ->
  length (shiftl_digits prev l) = length l /\
  digits_ok (shiftl_digits prev l) /\
  exists c, 0 <= c <= 1 /\
    val (shiftl_digits prev l) + wB ^ Z.of_nat (length l) * c
    = 2 * val l + prev / 2 ^ 63.
Proof.
  induction l as [|d l IH]; intros prev Hl Hp.
  - cbn [shiftl_digits val length]. split; [reflexivity|]. split; [constructor|].
    exists (prev / 2 ^ 63). change (Z.of_nat 0) with 0. rewrite Z.pow_0_r.
    split; [|lia]. rewrite wB_eq in Hp.
    split; [apply Z.div_pos; lia|].
    apply Z.lt_succ_r. apply Z.div_lt_upper_bound; lia.
  - inversion Hl as [|? ? Hd Hl']; subst.
    destruct (IH d Hl' Hd) as (L & D & c & Hc & V).
    cbn [shiftl_digits val length]. rewrite SHIFTL_spec by exact Hp.
    assert (Hb : 0 <= prev / 2 ^ 63 <= 1).
    { rewrite wB_eq in Hp. split; [apply Z.div_pos; lia|].
      apply Z.lt_succ_r. apply Z.div_lt_upper_bound; lia. }
    assert (Hm : (2 * d) mod wB = 2 * d - wB * (d / 2 ^ 63)).
    { rewrite Z.mod_eq by (rewrite wB_eq; lia). f_equal. f_equal.
      rewrite wB_eq. change 18446744073709551616 with (2 * 2 ^ 63).
      apply Z.div_mul_cancel_l; lia. }
    assert (Hm' : (2 * d) mod wB = 2 * (d mod 2 ^ 63)).
    { rewrite wB_eq. change 18446744073709551616 with (2 * 2 ^ 63).
      apply Z.mul_mod_distr_l; lia. }
    assert (Hr : 0 <= d mod 2 ^ 63 < 2 ^ 63) by (apply Z.mod_pos_bound; lia).
    split; [now rewrite L|]. split.
    + constructor; [rewrite Hm', wB_eq; lia | exact D].
    + exists c. split; [exact Hc|]. rewrite wB_pow_succ, Hm.
      replace (val (shiftl_digits d l))
        with (2 * val l + d / 2 ^ 63 - wB ^ Z.of_nat (length l) * c) by lia.
      ring.
Qed.

Lemma SHIFTL_first (d : digit_t) : SHIFTL d 0 1 RADIX = to_digit (Z.shiftl d 1).
Proof. unfold SHIFTL. rewrite Z.shiftr_0_l. apply Z.lxor_0_r. Qed.

Lemma nwords_minus_1_int (nwords : nat) :
  (1 <= nwords)%nat -> Z.of_nat nwords <= 2 ^ 31 ->
  Z.to_nat (to_int (nwords_minus_1 nwords)) = (nwords - 1)%nat.
Proof.
  intros H1 H2. unfold to_int, nwords_minus_1, to_uint.
  rewrite Z.mod_mod by lia. rewrite Z.mod_small by lia.
  destruct (Z.ltb_spec (Z.of_nat nwords - 1) (2 ^ 31)); lia.
Qed.

Lemma mp_shiftl1_digits (x : list digit_t) (nwords : nat) :
  (1 <= nwords)%nat -> Z.of_nat nwords <= 2 ^ 31 -> length x = nwords ->
  mp_shiftl1 x nwords = shiftl_digits 0 x.
Proof.
  intros H1 H2 L. unfold mp_shiftl1.
  rewrite nwords_minus_1_int by assumption. subst nwords.
  assert (E : exists rp d, x = rev rp ++ [d] /\ (length x - 1)%nat = length rp).
  { destruct (rev x) as [|d rp] eqn:R.
    - apply (f_equal (@length _)) in R. rewrite length_rev in R. simpl in R. lia.
    - exists rp, d. apply (f_equal (@rev _)) in R. rewrite rev_involutive in R.
      split; [exact R|]. rewrite R. cbn [rev]. rewrite length_snoc, length_rev. lia. }
  destruct E as (rp & d & E & El). rewrite El.
  replace x with (rev rp ++ d :: []) at 1 2 by (symmetry; exact E).
  pose proof (mp_shiftl1_loop rp d []) as E'. rewrite E'. clear E'.
  rewrite <- E, app_nil_r.
  destruct x as [|x0 l]; [simpl in H1; lia|].
  cbn [hd tl upd shiftl_digits]. unfold rd; cbn [nth].
  now rewrite SHIFTL_first.
Qed.

Lemma mp_shiftl1_value (x : list digit_t) (nwords : nat) :
  (1 <= nwords)%nat -> Z.of_nat nwords <= 2 ^ 31 ->
  length x = nwords -> digits_ok x ->
  length (mp_shiftl1 x nwords) = nwords /\
  digits_ok (mp_shiftl1 x nwords) /\
  val (mp_shiftl1 x nwords) = (2 * val x) mod wB ^ Z.of_nat nwords.
Proof.
  intros H1 H2 L D. rewrite (mp_shiftl1_digits x nwords H1 H2 L).
  destruct (val_shiftl_digits x 0 D) as (L' & D' & c & Hc & V);
    [pose proof wB_pos; lia|].
  rewrite L in *. split; [exact L'|]. split; [exact D'|].
  pose proof (val_bound _ D') as B. rewrite L' in B.
  change (0 / 2 ^ 63) with 0 in V.
  apply (Z.mod_unique_pos _ _ c); lia.
Qed.

(** X10: on an array of [nwords >= 1] digits [mp_shiftl1] doubles the
    integer modulo [2^(64*nwords)]: the top bit of a digit enters the digit
    above, and the top bit of the array is dropped. *)
Theorem mp_shiftl1_doubles (x : list digit_t) (nwords : nat) :
  (1 <= nwords)%nat -> Z.of_nat nwords <= 2 ^ 31 ->
  length x = nwords -> digits_ok x ->
  length (mp_shiftl1 x nwords) = nwords /\
  digits_ok (mp_shiftl1 x nwords) /\
  val (mp_shiftl1 x nwords) = (2 * val x) mod wB ^ Z.of_nat nwords.
Proof. exact (mp_shiftl1_value x nwords). Qed.

Lemma mp_shiftl1_doubles_witness :
  ((1 <= 3)%nat /\ Z.of_nat 3 <= 2 ^ 31 /\
   length (sample_words 5) = 3%nat /\ digits_ok (sample_words 5)) /\
  (length (mp_shiftl1 (sample_words 5) 3) = 3%nat /\
   digits_ok (mp_shiftl1 (sample_words 5) 3) /\
   val (mp_shiftl1 (sample_words 5) 3)
   = (2 * val (sample_words 5)) mod wB ^ Z.of_nat 3).
Proof.
  assert (D5 : digits_ok (sample_words 5)) by (apply sample_words_ok; lia).
  assert (H1 : (1 <= 3)%nat) by lia.
  assert (H2 : Z.of_nat 3 <= 2 ^ 31) by (vm_compute; discriminate).
  split; [repeat split; assumption|].
  exact (mp_shiftl1_doubles (sample_words 5) 3 H1 H2 eq_refl D5).
Defined.

(** X11: [mp_shiftr1] undoes [mp_shiftl1] on every array whose top bit is
    clear, and [mp_shiftl1] undoes [mp_shiftr1] on every array that holds an
    even integer. *)
Theorem mp_shift_round_trips (x : list digit_t) (nwords : nat) :
  (1 <= nwords)%nat -> Z.of_nat nwords <= 2 ^ 31 ->
  length x = nwords -> digits_ok x ->
  (2 * val x < wB ^ Z.of_nat nwords ->
   mp_shiftr1 (mp_shiftl1 x nwords) nwords = x) /\
  (Z.even (val x) = true ->
   mp_shiftl1 (mp_shiftr1 x nwords) nwords = x).
Proof.
  intros H1 H2 L D.
  assert (H3 : Z.of_nat nwords <= 2 ^ 32) by lia.
  pose proof (val_bound _ D) as B. rewrite L in B.
  destruct (mp_shiftl1_value x nwords H1 H2 L D) as (Ll & Dl & Vl).
  destruct (mp_shiftr1_value x nwords H1 H3 L D) as (Lr & Dr & Vr).
  split.
  - intros Hs.
    destruct (mp_shiftr1_value _ nwords H1 H3 Ll Dl) as (L' & D' & V').
    apply digits_val_inj; [congruence | exact D' | exact D |].
    rewrite V', Vl, Z.mod_small by lia.
    rewrite Z.mul_comm. apply Z.div_mul. lia.
  - intros He.
    destruct (mp_shiftl1_value _ nwords H1 H2 Lr Dr) as (L' & D' & V').
    apply digits_val_inj; [congruence | exact D' | exact D |].
    rewrite V', Vr.
    apply Z.even_spec in He. destruct He as [k Hk]. rewrite Hk in *.
    rewrite (Z.mul_comm 2 k), Z.div_mul by lia.
    rewrite Z.mul_comm. apply Z.mod_small. lia.
Qed.

Lemma mp_shift_round_trips_witness :
  ((1 <= 3)%nat /\ Z.of_nat 3 <= 2 ^ 31 /\
   length [6; 7; 8] = 3%nat /\ digits_ok [6; 7; 8] /\
   2 * val [6; 7; 8] < wB ^ Z.of_nat 3 /\ Z.even (val [6; 7; 8]) = true) /\
  (mp_shiftr1 (mp_shiftl1 [6; 7; 8] 3) 3 = [6; 7; 8] /\
   mp_shiftl1 (mp_shiftr1 [6; 7; 8] 3) 3 = [6; 7; 8]).
Proof.
  assert (D : digits_ok [6; 7; 8])
    by (pose proof wB_eq; repeat constructor; lia).
  assert (H1 : (1 <= 3)%nat) by lia.
  assert (H2 : Z.of_nat 3 <= 2 ^ 31) by (vm_compute; discriminate).
  assert (H3 : 2 * val [6; 7; 8] < wB ^ Z.of_nat 3) by (vm_compute; reflexivity).
  assert (H4 : Z.even (val [6; 7; 8]) = true) by reflexivity.
  split; [repeat split; assumption|].
  destruct (mp_shift_round_trips [6; 7; 8] 3 H1 H2 eq_refl D) as [A B].
  split; [exact (A H3) | exact (B H4)].
Defined.

(** ** Powers of two *)

Lemma fpzero751_loop (rest : list digit_t) : forall (pre : list digit_t),
  for_from (length pre) (length rest) (fun i a => upd a i 0) (pre ++ rest)
  = pre ++ repeat 0 (length rest).
Proof.
  induction rest as [|d rest IH]; intros pre; [reflexivity|].
  cbn [for_from length repeat].
  rewrite upd_app_length, (@snoc_assoc Z pre 0 rest).
  rewrite <- (@length_snoc digit_t pre 0), IH.
  now rewrite <- app_assoc.
Qed.

Lemma fpzero751_eq (a : felm_t) :
  length a = NWORDS_FIELD -> fpzero751 a = felm_zero.
Proof.
  intros L. unfold fpzero751, for_lt.
  pose proof (fpzero751_loop a []) as E. cbn [length app] in E.
  rewrite L in E. exact E.
Qed.

Lemma val_repeat0 (n : nat) : val (repeat 0 n) = 0.
Proof. induction n as [|n IH]; cbn [repeat val]; [reflexivity|]. rewrite IH. ring. Qed.

Lemma power2_loop_zeros (j : nat) : forall (k : nat) (m : Z) (fuel : nat),
  0 <= m < 64 * Z.of_nat j -> (j + 1 <= fuel)%nat ->
  exists r, power2_loop fuel (repeat 0 k ++ repeat 0 j) m k = Some r /\
            length r = (k + j)%nat /\ digits_ok r /\
            val r = wB ^ Z.of_nat k * 2 ^ m.
Proof.
  induction j as [|j IH]; intros k m fuel Hm Hf; [lia|].
  destruct fuel as [|fuel]; [lia|]. cbn [power2_loop].
  destruct (Z.leb_spec 0 m) as [_|]; [|lia].
  unfold RADIX. destruct (Z.ltb_spec m 64) as [Hlt|Hge].
  - cbn [repeat].
    pose proof (upd_app_length (repeat 0 k) 0 (to_digit (Z.shiftl 1 m))
                  (repeat 0 j)) as U.
    rewrite repeat_length in U.
    unfold felm_t, digit_t in *. rewrite U. clear U.
    destruct fuel as [|fuel]; [lia|]. cbn [power2_loop].
    destruct (Z.leb_spec 0 (m - 64)) as [|_]; [lia|].
    eexists. split; [reflexivity|].
    assert (E : to_digit (Z.shiftl 1 m) = 2 ^ m).
    { unfold to_digit. rewrite Z.shiftl_mul_pow2, Z.mul_1_l by lia.
      apply Z.mod_small. split; [apply Z.pow_nonneg; lia|].
      rewrite wB_eq. change 18446744073709551616 with (2 ^ 64).
      apply Z.pow_lt_mono_r; lia. }
    rewrite E. split; [|split].
    + rewrite length_app, repeat_length. cbn [length]. now rewrite repeat_length.
    + apply digits_ok_app. split; [apply digits_ok_repeat0|].
      constructor; [|apply digits_ok_repeat0].
      split; [apply Z.pow_nonneg; lia|].
      rewrite wB_eq. change 18446744073709551616 with (2 ^ 64).
      apply Z.pow_lt_mono_r; lia.
    + rewrite val_app, repeat_length, val_repeat0. cbn [val].
      rewrite val_repeat0. ring.
  - replace (repeat 0 k ++ repeat 0 (S j)) with (repeat 0 (k + 1) ++ repeat 0 j).
    2:{ rewrite repeat_app, <- app_assoc. reflexivity. }
    destruct (IH (k + 1)%nat (m - 64) fuel) as (r & R & L & D & V); [lia | lia |].
    exists r. split; [exact R|]. split; [lia|]. split; [exact D|].
    rewrite V. replace (Z.of_nat (k + 1)) with (Z.of_nat k + 1) by lia.
    rewrite Z.pow_add_r, Z.pow_1_r by lia.
    replace m with (64 + (m - 64)) at 2 by lia.
    rewrite Z.pow_add_r by lia. rewrite wB_eq. change (2 ^ 64) with 18446744073709551616.
    ring.
Qed.

(** X12: for [0 <= mark < 768], and whatever the array held before,
    [power2_setup] ends (13 rounds of fuel are enough) and leaves the
    12-digit array that holds [2^mark]; for a negative [mark] it leaves the
    zero array. *)
Theorem power2_setup_value (x : felm_t) (mark : Z) (fuel : nat) :
  length x = NWORDS_FIELD -> mark < 768 -> (13 <= fuel)%nat ->
  exists r, power2_setup fuel x mark = Some r /\
            felm_wf r /\
            val r = (if mark <? 0 then 0 else 2 ^ mark).
Proof.
  intros L Hm Hf. unfold power2_setup. rewrite (fpzero751_eq x L).
  destruct (Z.ltb_spec mark 0) as [Hneg|Hpos].
  - destruct fuel as [|fuel]; [lia|]. cbn [power2_loop].
    destruct (Z.leb_spec 0 mark) as [|_]; [lia|].
    exists felm_zero. split; [reflexivity|]. split.
    + split; [reflexivity | apply (digits_ok_repeat0 NWORDS_FIELD)].
    + apply (val_repeat0 NWORDS_FIELD).
  - destruct (power2_loop_zeros 12 0 mark fuel) as (r & R & Lr & D & V);
      [lia | lia |].
    exists r. split; [exact R|]. split; [split; [exact Lr | exact D]|].
    rewrite V. change (Z.of_nat 0) with 0. rewrite Z.pow_0_r. ring.
Qed.

Lemma power2_setup_value_witness :
  (length (sample_felm 1) = NWORDS_FIELD /\ 100 < 768 /\ (13 <= 13)%nat) /\
  exists r, power2_setup 13 (sample_felm 1) 100 = Some r /\
            felm_wf r /\
            val r = (if 100 <? 0 then 0 else 2 ^ 100).
Proof.
  assert (H1 : 100 < 768) by lia.
  assert (H2 : (13 <= 13)%nat) by lia.
  split; [repeat split; assumption|].
  exact (power2_setup_value (sample_felm 1) 100 13 eq_refl H1 H2).
Defined.

(** ** The Montgomery layer: conversions, products and inverses *)

Lemma fq_fpinv751_mont_total (m : felm_t) :
  felm_ok m ->
  fq (val (fpinv751_mont m))
  = Zmod.mul (Zmod.inv (fq (val m))) (Zmod.mul (fq Mont_R) (fq Mont_R)).
Proof.
  intros Hm. destruct (Z.eq_dec (val m) 0) as [E|N].
  - destruct (fpinv751_mont_power m Hm) as [_ V]. rewrite V, E.
    rewrite Z.pow_0_l by (vm_compute; reflexivity).
    rewrite Z.mul_0_l, Zmod_0_l, Zmod.of_Z_0, Zmod.inv_0.
    now rewrite Zmod.mul_0_l.
  - exact (fq_fpinv751_mont m Hm N).
Qed.

Lemma fq_val_zero (x : felm_t) :
  felm_ok x -> fq (val x) = Zmod.zero -> val x = 0.
Proof.
  intros Hx E. destruct (Z.eq_dec (val x) 0) as [|N]; [assumption|].
  now destruct (fq_val_nonzero x Hx N).
Qed.

Lemma fq_inv_mul (x y : Zmod p751z) :
  Zmod.inv (Zmod.mul x y) = Zmod.mul (Zmod.inv x) (Zmod.inv y).
Proof.
  destruct (Zmod.eqb x Zmod.zero) eqn:Ex.
  - apply Zmod.eqb_eq in Ex. subst x.
    now rewrite Zmod.mul_0_l, Zmod.inv_0, Zmod.mul_0_l.
  - destruct (Zmod.eqb y Zmod.zero) eqn:Ey.
    + apply Zmod.eqb_eq in Ey. subst y.
      now rewrite Zmod.mul_0_r, Zmod.inv_0, Zmod.mul_0_r.
    + assert (Nx : x <> Zmod.zero) by (intros H; apply Zmod.eqb_eq in H; congruence).
      assert (Ny : y <> Zmod.zero) by (intros H; apply Zmod.eqb_eq in H; congruence).
      field. fq_side.
Qed.

(** X13: the two conversions are inverse to each other on field elements:
    [from_mont] undoes [to_mont], and [to_mont] undoes [from_mont]. *)
Theorem mont_conversion_round_trip (a : felm_t) :
  felm_ok a ->
  from_mont (to_mont a) = a /\ to_mont (from_mont a) = a.
Proof.
  intros Ha. pose proof fq_R_nonzero as NR. split.
  - apply felm_ok_fq_inj; [apply from_mont_ok | exact Ha |].
    rewrite (fq_from_mont _ (felm_ok_wf _ (to_mont_ok a))).
    rewrite (fq_to_mont _ (felm_ok_wf _ Ha)). field. fq_side.
  - apply felm_ok_fq_inj; [apply to_mont_ok | exact Ha |].
    rewrite (fq_to_mont _ (felm_ok_wf _ (from_mont_ok a))).
    rewrite (fq_from_mont _ (felm_ok_wf _ Ha)). field. fq_side.
Qed.

Lemma mont_conversion_round_trip_witness :
  felm_ok (sample_felm 1) /\
  (from_mont (to_mont (sample_felm 1)) = sample_felm 1 /\
   to_mont (from_mont (sample_felm 1)) = sample_felm 1).
Proof.
  split; [exact sample_felm_ok_1|].
  exact (mont_conversion_round_trip (sample_felm 1) sample_felm_ok_1).
Defined.

(** X14: [fpmul751_mont] is commutative and associative on field elements,
    and the Montgomery representation of 1 is its neutral element. *)
Theorem fpmul751_mont_monoid (x y z : felm_t) :
  felm_ok x -> felm_ok y -> felm_ok z ->
  fpmul751_mont x y = fpmul751_mont y x /\
  fpmul751_mont (fpmul751_mont x y) z = fpmul751_mont x (fpmul751_mont y z) /\
  fpmul751_mont x (to_mont felm_one) = x.
Proof.
  intros Hx Hy Hz. pose proof fq_R_nonzero as NR.
  pose proof (felm_ok_wf _ Hx) as Wx. pose proof (felm_ok_wf _ Hy) as Wy.
  pose proof (felm_ok_wf _ Hz) as Wz.
  split; [|split].
  - apply felm_ok_fq_inj; [apply fpmul751_mont_ok | apply fpmul751_mont_ok |].
    rewrite (fq_fpmul751_mont x y Wx Wy), (fq_fpmul751_mont y x Wy Wx). ring.
  - apply felm_ok_fq_inj; [apply fpmul751_mont_ok | apply fpmul751_mont_ok |].
    rewrite (fq_fpmul751_mont _ z (felm_ok_wf _ (fpmul751_mont_ok x y)) Wz).
    rewrite (fq_fpmul751_mont x _ Wx (felm_ok_wf _ (fpmul751_mont_ok y z))).
    rewrite (fq_fpmul751_mont x y Wx Wy), (fq_fpmul751_mont y z Wy Wz). ring.
  - apply felm_ok_fq_inj; [apply fpmul751_mont_ok | exact Hx |].
    rewrite (fq_fpmul751_mont x _ Wx (felm_ok_wf _ (to_mont_ok felm_one))).
    rewrite (fq_to_mont _ (felm_ok_wf _ felm_one_ok)).
    change (val felm_one) with 1. rewrite Zmod.of_Z_1. field. fq_side.
Qed.

Lemma fpmul751_mont_monoid_witness :
  (felm_ok (sample_felm 1) /\ felm_ok (sample_felm 20) /\ felm_ok (sample_felm 1)) /\
  (fpmul751_mont (sample_felm 1) (sample_felm 20)
   = fpmul751_mont (sample_felm 20) (sample_felm 1) /\
   fpmul751_mont (fpmul751_mont (sample_felm 1) (sample_felm 20)) (sample_felm 1)
   = fpmul751_mont (sample_felm 1) (fpmul751_mont (sample_felm 20) (sample_felm 1)) /\
   fpmul751_mont (sample_felm 1) (to_mont felm_one) = sample_felm 1).
Proof.
  split; [exact (conj sample_felm_ok_1 (conj sample_felm_ok_20 sample_felm_ok_1))|].
  exact (fpmul751_mont_monoid (sample_felm 1) (sample_felm 20) (sample_felm 1)
           sample_felm_ok_1 sample_felm_ok_20 sample_felm_ok_1).
Defined.

(** X15: [fpinv751_mont] returns a field element for every field element,
    and returns zero exactly for the input zero: the chain has no error
    path, a non-invertible input is mapped to 0. *)
Theorem fpinv751_mont_zero_iff (m : felm_t) :
  felm_ok m ->
  felm_ok (fpinv751_mont m) /\
  (val (fpinv751_mont m) = 0 <-> val m = 0).
Proof.
  intros Hm. destruct (fpinv751_mont_power m Hm) as [Hi V].
  split; [exact Hi|]. split.
  - intros E. destruct (Z.eq_dec (val m) 0) as [|N]; [assumption|]. exfalso.
    pose proof (fq_fpinv751_mont m Hm N) as F.
    rewrite E, Zmod.of_Z_0 in F. symmetry in F.
    apply (Zmod.mul_0_iff_prime p751z_prime) in F. destruct F as [F|F].
    + exact (Zmod.inv_nz_prime _ p751z_prime (fq_val_nonzero m Hm N) F).
    + apply (Zmod.mul_0_iff_prime p751z_prime) in F.
      destruct F as [F|F]; exact (fq_R_nonzero F).
  - intros E. rewrite V, E.
    rewrite Z.pow_0_l by (vm_compute; reflexivity).
    now rewrite Z.mul_0_l, Zmod_0_l.
Qed.

Lemma fpinv751_mont_zero_iff_witness :
  felm_ok felm_zero /\
  (felm_ok (fpinv751_mont felm_zero) /\
   (val (fpinv751_mont felm_zero) = 0 <-> val felm_zero = 0)).
Proof.
  split; [exact felm_zero_ok|].
  exact (fpinv751_mont_zero_iff felm_zero felm_zero_ok).
Defined.

(** X16: [fpinv751_mont] is an involution on field elements (zero included)
    and commutes with [fpmul751_mont]: the inverse of a Montgomery product
    is the Montgomery product of the inverses. *)
Theorem fpinv751_mont_involution (x y : felm_t) :
  felm_ok x -> felm_ok y ->
  fpinv751_mont (fpinv751_mont x) = x /\
  fpinv751_mont (fpmul751_mont x y)
  = fpmul751_mont (fpinv751_mont x) (fpinv751_mont y).
Proof.
  intros Hx Hy. pose proof fq_R_nonzero as NR.
  destruct (fpinv751_mont_power x Hx) as [Hix _].
  destruct (fpinv751_mont_power y Hy) as [Hiy _].
  pose proof (fpmul751_mont_ok x y) as Hxy.
  destruct (fpinv751_mont_power _ Hix) as [Hiix _].
  destruct (fpinv751_mont_power _ Hxy) as [Hixy _].
  split.
  - apply felm_ok_fq_inj; [exact Hiix | exact Hx |].
    rewrite (fq_fpinv751_mont_total _ Hix), (fq_fpinv751_mont_total _ Hx).
    rewrite !fq_inv_mul, (Zmod.inv_inv_prime _ p751z_prime).
    field. fq_side.
  - apply felm_ok_fq_inj; [exact Hixy | apply fpmul751_mont_ok |].
    rewrite (fq_fpinv751_mont_total _ Hxy).
    rewrite (fq_fpmul751_mont _ _ (felm_ok_wf _ Hix) (felm_ok_wf _ Hiy)).
    rewrite (fq_fpinv751_mont_total _ Hx), (fq_fpinv751_mont_total _ Hy).
    rewrite (fq_fpmul751_mont _ _ (felm_ok_wf _ Hx) (felm_ok_wf _ Hy)).
    rewrite !fq_inv_mul, (Zmod.inv_inv_prime _ p751z_prime).
    generalize (Zmod.inv (fq (val x))) (Zmod.inv (fq (val y))). intros ix iy.
    field. fq_side.
Qed.

Lemma fpinv751_mont_involution_witness :
  (felm_ok (sample_felm 1) /\ felm_ok (sample_felm 20)) /\
  (fpinv751_mont (fpinv751_mont (sample_felm 1)) = sample_felm 1 /\
   fpinv751_mont (fpmul751_mont (sample_felm 1) (sample_felm 20))
   = fpmul751_mont (fpinv751_mont (sample_felm 1)) (fpinv751_mont (sample_felm 20))).
Proof.
  split; [split; [exact sample_felm_ok_1 | exact sample_felm_ok_20]|].
  exact (fpinv751_mont_involution (sample_felm 1) (sample_felm 20)
           sample_felm_ok_1 sample_felm_ok_20).
Defined.

(** ** GF(p751^2): the product, the square and the ring laws *)

Lemma fq_to_val (x : felm_t) (v : Z) :
  felm_ok x -> fq (val x) = fq v -> val x = v mod p751z.
Proof.
  intros Hx E. rewrite <- (felm_ok_val_mod x Hx). now apply congr_iff.
Qed.

Lemma f2elm_ok_fq_inj (a b : f2elm_t) :
  f2elm_ok a -> f2elm_ok b ->
  fq (val (fst a)) = fq (val (fst b)) ->
  fq (val (snd a)) = fq (val (snd b)) -> a = b.
Proof.
  intros [Ha0 Ha1] [Hb0 Hb1] E0 E1.
  rewrite (surjective_pairing a), (surjective_pairing b).
  f_equal; now apply felm_ok_fq_inj.
Qed.

Lemma to_fp2mont_ok (a : f2elm_t) : f2elm_ok (to_fp2mont a).
Proof. split; apply to_mont_ok. Qed.

Lemma from_fp2mont_ok (a : f2elm_t) : f2elm_ok (from_fp2mont a).
Proof. split; apply from_mont_ok. Qed.

Lemma fq_fp2sqr751_mont (a : f2elm_t) :
  f2elm_ok a ->
  f2elm_ok (fp2sqr751_mont a) /\
  fq (val (fst (fp2sqr751_mont a)))
  = Zmod.mul (Zmod.sub (Zmod.mul (fq (val (fst a))) (fq (val (fst a))))
                       (Zmod.mul (fq (val (snd a))) (fq (val (snd a)))))
             (Zmod.inv (fq Mont_R)) /\
  fq (val (snd (fp2sqr751_mont a)))
  = Zmod.mul (Zmod.mul (fq 2) (Zmod.mul (fq (val (fst a))) (fq (val (snd a)))))
             (Zmod.inv (fq Mont_R)).
Proof.
  intros Ha. pose proof Ha as [Ha0 Ha1].
  destruct (mp_add_felm _ _ Ha0 Ha1) as (Wt1 & Vt1).
  destruct (mp_add_felm _ _ Ha0 Ha0) as (Wt3 & Vt3).
  unfold fp2sqr751_mont; cbn [fst snd].
  split; [split; apply fpmul751_mont_ok|]. split.
  - rewrite (fq_fpmul751_mont _ _ Wt1 (felm_ok_wf _ (fpsub751_ok (fst a) (snd a)))).
    rewrite Vt1, val_fpsub751. push_of_Z. ring.
  - rewrite (fq_fpmul751_mont _ _ Wt3 (felm_ok_wf _ Ha1)).
    rewrite Vt3. push_of_Z.
    change (fq 2) with (Zmod.add (@Zmod.one p751z) Zmod.one). ring.
Qed.

(** X17: on reduced components [fp2mul751_mont] is the Montgomery product
    of GF(p751^2) = GF(p751)[i]/(i^2 + 1): the real part is
    [(a0*b0 - a1*b1) * R^-1] and the imaginary part
    [(a0*b1 + a1*b0) * R^-1] modulo p751; between [to_fp2mont] and
    [from_fp2mont] it is the product of the two elements. *)
Theorem fp2mul751_mont_product (a b : f2elm_t) :
  f2elm_ok a -> f2elm_ok b ->
  (val (fst (fp2mul751_mont a b))
   = ((val (fst a) * val (fst b) - val (snd a) * val (snd b)) * Montgomery_Rinv)
     mod p751z /\
   val (snd (fp2mul751_mont a b))
   = ((val (fst a) * val (snd b) + val (snd a) * val (fst b)) * Montgomery_Rinv)
     mod p751z) /\
  (val (fst (from_fp2mont (fp2mul751_mont (to_fp2mont a) (to_fp2mont b))))
   = (val (fst a) * val (fst b) - val (snd a) * val (snd b)) mod p751z /\
   val (snd (from_fp2mont (fp2mul751_mont (to_fp2mont a) (to_fp2mont b))))
   = (val (fst a) * val (snd b) + val (snd a) * val (fst b)) mod p751z).
Proof.
  intros Ha Hb. pose proof fq_R_nonzero as NR.
  pose proof Ha as [Ha0 Ha1]. pose proof Hb as [Hb0 Hb1].
  destruct (fq_fp2mul751_mont a b Ha Hb) as ([Hc0 Hc1] & F0 & F1).
  destruct (fq_fp2mul751_mont _ _ (to_fp2mont_ok a) (to_fp2mont_ok b))
    as ([Hm0 Hm1] & G0 & G1).
  unfold to_fp2mont in G0, G1; cbn [fst snd] in G0, G1.
  rewrite !fq_to_mont in G0, G1 by now apply felm_ok_wf.
  split; split.
  - apply fq_to_val; [exact Hc0|]. rewrite F0. push_of_Z. now rewrite fq_Rinv.
  - apply fq_to_val; [exact Hc1|]. rewrite F1. push_of_Z. now rewrite fq_Rinv.
  - unfold from_fp2mont; cbn [fst snd].
    apply fq_to_val; [apply from_mont_ok|].
    rewrite (fq_from_mont _ (felm_ok_wf _ Hm0)).
    unfold to_fp2mont. rewrite G0. push_of_Z. field. fq_side.
  - unfold from_fp2mont; cbn [fst snd].
    apply fq_to_val; [apply from_mont_ok|].
    rewrite (fq_from_mont _ (felm_ok_wf _ Hm1)).
    unfold to_fp2mont. rewrite G1. push_of_Z. field. fq_side.
Qed.

Lemma fp2mul751_mont_product_witness :
  (f2elm_ok (sample_felm 1, sample_felm 20) /\
   f2elm_ok (sample_felm 40, sample_felm 60)) /\
  ((val (fst (fp2mul751_mont (sample_felm 1, sample_felm 20)
                             (sample_felm 40, sample_felm 60)))
    = ((val (sample_felm 1) * val (sample_felm 40)
        - val (sample_felm 20) * val (sample_felm 60)) * Montgomery_Rinv)
      mod p751z /\
    val (snd (fp2mul751_mont (sample_felm 1, sample_felm 20)
                             (sample_felm 40, sample_felm 60)))
    = ((val (sample_felm 1) * val (sample_felm 60)
        + val (sample_felm 20) * val (sample_felm 40)) * Montgomery_Rinv)
      mod p751z) /\
   (val (fst (from_fp2mont
                (fp2mul751_mont (to_fp2mont (sample_felm 1, sample_felm 20))
                                (to_fp2mont (sample_felm 40, sample_felm 60)))))
    = (val (sample_felm 1) * val (sample_felm 40)
       - val (sample_felm 20) * val (sample_felm 60)) mod p751z /\
    val (snd (from_fp2mont
                (fp2mul751_mont (to_fp2mont (sample_felm 1, sample_felm 20))
                                (to_fp2mont (sample_felm 40, sample_felm 60)))))
    = (val (sample_felm 1) * val (sample_felm 60)
       + val (sample_felm 20) * val (sample_felm 40)) mod p751z)).
Proof.
  split; [exact (conj sample_f2elm_ok sample_f2elm_ok')|].
  exact (fp2mul751_mont_product (sample_felm 1, sample_felm 20)
           (sample_felm 40, sample_felm 60) sample_f2elm_ok sample_f2elm_ok').
Defined.

(** X18: on reduced components [fp2sqr751_mont] is the Montgomery square of
    GF(p751^2): real part [(a0^2 - a1^2) * R^-1], imaginary part
    [2*a0*a1 * R^-1] modulo p751, although it adds [a0 + a1] and [a0 + a0]
    without reduction. *)
Theorem fp2sqr751_mont_square (a : f2elm_t) :
  f2elm_ok a ->
  f2elm_ok (fp2sqr751_mont a) /\
  val (fst (fp2sqr751_mont a))
  = ((val (fst a) * val (fst a) - val (snd a) * val (snd a)) * Montgomery_Rinv)
    mod p751z /\
  val (snd (fp2sqr751_mont a))
  = (2 * val (fst a) * val (snd a) * Montgomery_Rinv) mod p751z.
Proof.
  intros Ha. destruct (fq_fp2sqr751_mont a Ha) as ([Hc0 Hc1] & F0 & F1).
  split; [split; assumption|]. split.
  - apply fq_to_val; [exact Hc0|]. rewrite F0. push_of_Z. now rewrite fq_Rinv.
  - apply fq_to_val; [exact Hc1|]. rewrite F1. push_of_Z. rewrite fq_Rinv. ring.
Qed.

Lemma fp2sqr751_mont_square_witness :
  f2elm_ok (sample_felm 1, sample_felm 20) /\
  (f2elm_ok (fp2sqr751_mont (sample_felm 1, sample_felm 20)) /\
   val (fst (fp2sqr751_mont (sample_felm 1, sample_felm 20)))
   = ((val (sample_felm 1) * val (sample_felm 1)
       - val (sample_felm 20) * val (sample_felm 20)) * Montgomery_Rinv)
     mod p751z /\
   val (snd (fp2sqr751_mont (sample_felm 1, sample_felm 20)))
   = (2 * val (sample_felm 1) * val (sample_felm 20) * Montgomery_Rinv) mod p751z).
Proof.
  split; [exact sample_f2elm_ok|].
  exact (fp2sqr751_mont_square (sample_felm 1, sample_felm 20) sample_f2elm_ok).
Defined.

(** X19: on elements with reduced components [fp2mul751_mont] is
    commutative and associative, and the Montgomery representation of
    [(1, 0)] is its neutral element. *)
Theorem fp2mul751_mont_monoid (a b c : f2elm_t) :
  f2elm_ok a -> f2elm_ok b -> f2elm_ok c ->
  fp2mul751_mont a b = fp2mul751_mont b a /\
  fp2mul751_mont (fp2mul751_mont a b) c = fp2mul751_mont a (fp2mul751_mont b c) /\
  fp2mul751_mont a (to_fp2mont (felm_one, felm_zero)) = a.
Proof.
  intros Ha Hb Hc. pose proof fq_R_nonzero as NR.
  destruct (fq_fp2mul751_mont a b Ha Hb) as (Hab & Fab0 & Fab1).
  destruct (fq_fp2mul751_mont b a Hb Ha) as (Hba & Fba0 & Fba1).
  destruct (fq_fp2mul751_mont b c Hb Hc) as (Hbc & Fbc0 & Fbc1).
  destruct (fq_fp2mul751_mont _ c Hab Hc) as (Habc & Fl0 & Fl1).
  destruct (fq_fp2mul751_mont a _ Ha Hbc) as (Habc' & Fr0 & Fr1).
  destruct (fq_fp2mul751_mont a _ Ha (to_fp2mont_ok (felm_one, felm_zero)))
    as (Ha1 & Fo0 & Fo1).
  unfold to_fp2mont in Fo0, Fo1; cbn [fst snd] in Fo0, Fo1.
  rewrite (fq_to_mont _ (felm_ok_wf _ felm_one_ok)) in Fo0, Fo1.
  rewrite (fq_to_mont _ (felm_ok_wf _ felm_zero_ok)) in Fo0, Fo1.
  change (val felm_one) with 1 in Fo0, Fo1.
  change (val felm_zero) with 0 in Fo0, Fo1.
  rewrite Zmod.of_Z_1, Zmod.of_Z_0 in Fo0, Fo1.
  split; [|split].
  - apply f2elm_ok_fq_inj; [exact Hab | exact Hba | |].
    + rewrite Fab0, Fba0. ring.
    + rewrite Fab1, Fba1. ring.
  - apply f2elm_ok_fq_inj; [exact Habc | exact Habc' | |].
    + rewrite Fl0, Fr0, Fab0, Fab1, Fbc0, Fbc1. ring.
    + rewrite Fl1, Fr1, Fab0, Fab1, Fbc0, Fbc1. ring.
  - apply f2elm_ok_fq_inj; [exact Ha1 | exact Ha | |]; unfold to_fp2mont; cbn [fst snd].
    + rewrite Fo0. field. fq_side.
    + rewrite Fo1. field. fq_side.
Qed.

Lemma fp2mul751_mont_monoid_witness :
  (f2elm_ok (sample_felm 1, sample_felm 20) /\
   f2elm_ok (sample_felm 40, sample_felm 60) /\
   f2elm_ok (sample_felm 1, sample_felm 20)) /\
  (fp2mul751_mont (sample_felm 1, sample_felm 20) (sample_felm 40, sample_felm 60)
   = fp2mul751_mont (sample_felm 40, sample_felm 60) (sample_felm 1, sample_felm 20) /\
   fp2mul751_mont
     (fp2mul751_mont (sample_felm 1, sample_felm 20) (sample_felm 40, sample_felm 60))
     (sample_felm 1, sample_felm 20)
   = fp2mul751_mont (sample_felm 1, sample_felm 20)
       (fp2mul751_mont (sample_felm 40, sample_felm 60) (sample_felm 1, sample_felm 20)) /\
   fp2mul751_mont (sample_felm 1, sample_felm 20) (to_fp2mont (felm_one, felm_zero))
   = (sample_felm 1, sample_felm 20)).
Proof.
  split; [exact (conj sample_f2elm_ok (conj sample_f2elm_ok' sample_f2elm_ok))|].
  exact (fp2mul751_mont_monoid (sample_felm 1, sample_felm 20)
           (sample_felm 40, sample_felm 60) (sample_felm 1, sample_felm 20)
           sample_f2elm_ok sample_f2elm_ok' sample_f2elm_ok).
Defined.

Lemma fp2add751_ok (a b : f2elm_t) : f2elm_ok (fp2add751 a b).
Proof. split; apply fpadd751_ok. Qed.

Lemma fp2sub751_ok (a b : f2elm_t) : f2elm_ok (fp2sub751 a b).
Proof. split; apply fpsub751_ok. Qed.

Lemma fp2neg751_ok (a : f2elm_t) : f2elm_ok (fp2neg751 a).
Proof. split; apply fpneg751_ok. Qed.

Lemma fp2div2_751_ok (a : f2elm_t) : f2elm_ok (fp2div2_751 a).
Proof. split; apply fpdiv2_751_ok. Qed.

Lemma val_fpdiv2_751 (a : felm_t) :
  val (fpdiv2_751 a) = (val a * ((p751z + 1) / 2)) mod p751z.
Proof. apply felm_ok_to_digits_mod. Qed.

Lemma fq_fp2add751 (a b : f2elm_t) :
  fq (val (fst (fp2add751 a b)))
  = Zmod.add (fq (val (fst a))) (fq (val (fst b))) /\
  fq (val (snd (fp2add751 a b)))
  = Zmod.add (fq (val (snd a))) (fq (val (snd b))).
Proof.
  unfold fp2add751; cbn [fst snd]. rewrite !val_fpadd751.
  generalize (val (fst a)) (val (fst b)) (val (snd a)) (val (snd b)).
  intros x0 y0 x1 y1. split; now push_of_Z.
Qed.

Lemma fq_fp2sub751 (a b : f2elm_t) :
  fq (val (fst (fp2sub751 a b)))
  = Zmod.sub (fq (val (fst a))) (fq (val (fst b))) /\
  fq (val (snd (fp2sub751 a b)))
  = Zmod.sub (fq (val (snd a))) (fq (val (snd b))).
Proof.
  unfold fp2sub751; cbn [fst snd]. rewrite !val_fpsub751.
  generalize (val (fst a)) (val (fst b)) (val (snd a)) (val (snd b)).
  intros x0 y0 x1 y1. split; now push_of_Z.
Qed.

Lemma fq_fp2neg751 (a : f2elm_t) :
  fq (val (fst (fp2neg751 a))) = Zmod.opp (fq (val (fst a))) /\
  fq (val (snd (fp2neg751 a))) = Zmod.opp (fq (val (snd a))).
Proof.
  unfold fp2neg751; cbn [fst snd]. rewrite !val_fpneg751.
  generalize (val (fst a)) (val (snd a)).
  intros x0 x1. split; now push_of_Z.
Qed.

Lemma fq_fp2div2_751 (a : f2elm_t) :
  fq (val (fst (fp2div2_751 a)))
  = Zmod.mul (fq (val (fst a))) (Zmod.inv (fq 2)) /\
  fq (val (snd (fp2div2_751 a)))
  = Zmod.mul (fq (val (snd a))) (Zmod.inv (fq 2)).
Proof.
  unfold fp2div2_751; cbn [fst snd]. rewrite !val_fpdiv2_751.
  generalize (val (fst a)) (val (snd a)).
  intros x0 x1. split; push_of_Z; now rewrite fq_half.
Qed.

(** X20: [fp2mul751_mont] distributes over [fp2add751] and over
    [fp2sub751] in its second argument. *)
Theorem fp2mul751_mont_distributes (a b c : f2elm_t) :
  f2elm_ok a -> f2elm_ok b -> f2elm_ok c ->
  fp2mul751_mont a (fp2add751 b c)
  = fp2add751 (fp2mul751_mont a b) (fp2mul751_mont a c) /\
  fp2mul751_mont a (fp2sub751 b c)
  = fp2sub751 (fp2mul751_mont a b) (fp2mul751_mont a c).
Proof.
  intros Ha Hb Hc.
  destruct (fq_fp2mul751_mont a b Ha Hb) as (Hab & Fab0 & Fab1).
  destruct (fq_fp2mul751_mont a c Ha Hc) as (Hac & Fac0 & Fac1).
  destruct (fq_fp2mul751_mont a _ Ha (fp2add751_ok b c)) as (H1 & F10 & F11).
  destruct (fq_fp2mul751_mont a _ Ha (fp2sub751_ok b c)) as (H2 & F20 & F21).
  destruct (fq_fp2add751 b c) as [A0 A1].
  destruct (fq_fp2sub751 b c) as [S0 S1].
  destruct (fq_fp2add751 (fp2mul751_mont a b) (fp2mul751_mont a c)) as [A0' A1'].
  destruct (fq_fp2sub751 (fp2mul751_mont a b) (fp2mul751_mont a c)) as [S0' S1'].
  rewrite A0, A1 in F10, F11. rewrite S0, S1 in F20, F21.
  rewrite Fab0, Fac0 in A0', S0'. rewrite Fab1, Fac1 in A1', S1'.
  split.
  - apply f2elm_ok_fq_inj; [exact H1 | apply fp2add751_ok | |].
    + rewrite F10, A0'. ring.
    + rewrite F11, A1'. ring.
  - apply f2elm_ok_fq_inj; [exact H2 | apply fp2sub751_ok | |].
    + rewrite F20, S0'. ring.
    + rewrite F21, S1'. ring.
Qed.

Lemma fp2mul751_mont_distributes_witness :
  (f2elm_ok (sample_felm 1, sample_felm 20) /\
   f2elm_ok (sample_felm 40, sample_felm 60) /\
   f2elm_ok (sample_felm 1, sample_felm 20)) /\
  (fp2mul751_mont (sample_felm 1, sample_felm 20)
     (fp2add751 (sample_felm 40, sample_felm 60) (sample_felm 1, sample_felm 20))
   = fp2add751
       (fp2mul751_mont (sample_felm 1, sample_felm 20) (sample_felm 40, sample_felm 60))
       (fp2mul751_mont (sample_felm 1, sample_felm 20) (sample_felm 1, sample_felm 20)) /\
   fp2mul751_mont (sample_felm 1, sample_felm 20)
     (fp2sub751 (sample_felm 40, sample_felm 60) (sample_felm 1, sample_felm 20))
   = fp2sub751
       (fp2mul751_mont (sample_felm 1, sample_felm 20) (sample_felm 40, sample_felm 60))
       (fp2mul751_mont (sample_felm 1, sample_felm 20) (sample_felm 1, sample_felm 20))).
Proof.
  split; [exact (conj sample_f2elm_ok (conj sample_f2elm_ok' sample_f2elm_ok))|].
  exact (fp2mul751_mont_distributes (sample_felm 1, sample_felm 20)
           (sample_felm 40, sample_felm 60) (sample_felm 1, sample_felm 20)
           sample_f2elm_ok sample_f2elm_ok' sample_f2elm_ok).
Defined.

(** X21: [fp2mul751_mont] commutes with [fp2neg751] and with
    [fp2div2_751] in its second argument, and [fp2div2_751] undoes the
    doubling [fp2add751 b b]. *)
Theorem fp2mul751_mont_neg_div2 (a b : f2elm_t) :
  f2elm_ok a -> f2elm_ok b ->
  fp2mul751_mont a (fp2neg751 b) = fp2neg751 (fp2mul751_mont a b) /\
  fp2mul751_mont a (fp2div2_751 b) = fp2div2_751 (fp2mul751_mont a b) /\
  fp2div2_751 (fp2add751 b b) = b.
Proof.
  intros Ha Hb.
  assert (N2 : fq 2 <> Zmod.zero) by (apply fq_nonzero; split; reflexivity).
  destruct (fq_fp2mul751_mont a b Ha Hb) as (Hab & Fab0 & Fab1).
  destruct (fq_fp2mul751_mont a _ Ha (fp2neg751_ok b)) as (H3 & F30 & F31).
  destruct (fq_fp2mul751_mont a _ Ha (fp2div2_751_ok b)) as (H4 & F40 & F41).
  destruct (fq_fp2neg751 b) as [N0 N1].
  destruct (fq_fp2div2_751 b) as [D0 D1].
  destruct (fq_fp2add751 b b) as [B0 B1].
  destruct (fq_fp2neg751 (fp2mul751_mont a b)) as [N0' N1'].
  destruct (fq_fp2div2_751 (fp2mul751_mont a b)) as [D0' D1'].
  destruct (fq_fp2div2_751 (fp2add751 b b)) as [E0 E1].
  rewrite N0, N1 in F30, F31. rewrite D0, D1 in F40, F41.
  rewrite Fab0 in N0', D0'. rewrite Fab1 in N1', D1'.
  rewrite B0 in E0. rewrite B1 in E1.
  split; [|split].
  - apply f2elm_ok_fq_inj; [exact H3 | apply fp2neg751_ok | |].
    + rewrite F30, N0'. ring.
    + rewrite F31, N1'. ring.
  - apply f2elm_ok_fq_inj; [exact H4 | apply fp2div2_751_ok | |].
    + rewrite F40, D0'. ring.
    + rewrite F41, D1'. ring.
  - apply f2elm_ok_fq_inj; [apply fp2div2_751_ok | exact Hb | |].
    + rewrite E0.
      change (fq 2) with (Zmod.add (@Zmod.one p751z) Zmod.one) in N2 |- *.
      field. exact N2.
    + rewrite E1.
      change (fq 2) with (Zmod.add (@Zmod.one p751z) Zmod.one) in N2 |- *.
      field. exact N2.
Qed.

Lemma fp2mul751_mont_neg_div2_witness :
  (f2elm_ok (sample_felm 1, sample_felm 20) /\
   f2elm_ok (sample_felm 40, sample_felm 60)) /\
  (fp2mul751_mont (sample_felm 1, sample_felm 20)
     (fp2neg751 (sample_felm 40, sample_felm 60))
   = fp2neg751
       (fp2mul751_mont (sample_felm 1, sample_felm 20) (sample_felm 40, sample_felm 60)) /\
   fp2mul751_mont (sample_felm 1, sample_felm 20)
     (fp2div2_751 (sample_felm 40, sample_felm 60))
   = fp2div2_751
       (fp2mul751_mont (sample_felm 1, sample_felm 20) (sample_felm 40, sample_felm 60)) /\
   fp2div2_751 (fp2add751 (sample_felm 40, sample_felm 60) (sample_felm 40, sample_felm 60))
   = (sample_felm 40, sample_felm 60)).
Proof.
  split; [exact (conj sample_f2elm_ok sample_f2elm_ok')|].
  exact (fp2mul751_mont_neg_div2 (sample_felm 1, sample_felm 20)
           (sample_felm 40, sample_felm 60) sample_f2elm_ok sample_f2elm_ok').
Defined.

(** X22: [from_fp2mont] undoes [to_fp2mont] and [to_fp2mont] undoes
    [from_fp2mont] on elements with reduced components. *)
Theorem fp2mont_conversion_round_trip (a : f2elm_t) :
  f2elm_ok a ->
  from_fp2mont (to_fp2mont a) = a /\ to_fp2mont (from_fp2mont a) = a.
Proof.
  intros Ha. pose proof Ha as [Ha0 Ha1]. pose proof fq_R_nonzero as NR.
  split.
  - apply f2elm_ok_fq_inj; [apply from_fp2mont_ok | exact Ha | |];
      unfold from_fp2mont, to_fp2mont; cbn [fst snd].
    + rewrite (fq_from_mont _ (felm_ok_wf _ (to_mont_ok (fst a)))).
      rewrite (fq_to_mont _ (felm_ok_wf _ Ha0)). field. fq_side.
    + rewrite (fq_from_mont _ (felm_ok_wf _ (to_mont_ok (snd a)))).
      rewrite (fq_to_mont _ (felm_ok_wf _ Ha1)). field. fq_side.
  - apply f2elm_ok_fq_inj; [apply to_fp2mont_ok | exact Ha | |];
      unfold from_fp2mont, to_fp2mont; cbn [fst snd].
    + rewrite (fq_to_mont _ (felm_ok_wf _ (from_mont_ok (fst a)))).
      rewrite (fq_from_mont _ (felm_ok_wf _ Ha0)). field. fq_side.
    + rewrite (fq_to_mont _ (felm_ok_wf _ (from_mont_ok (snd a)))).
      rewrite (fq_from_mont _ (felm_ok_wf _ Ha1)). field. fq_side.
Qed.

Lemma fp2mont_conversion_round_trip_witness :
  f2elm_ok (sample_felm 1, sample_felm 20) /\
  (from_fp2mont (to_fp2mont (sample_felm 1, sample_felm 20))
   = (sample_felm 1, sample_felm 20) /\
   to_fp2mont (from_fp2mont (sample_felm 1, sample_felm 20))
   = (sample_felm 1, sample_felm 20)).
Proof.
  split; [exact sample_f2elm_ok|].
  exact (fp2mont_conversion_round_trip (sample_felm 1, sample_felm 20)
           sample_f2elm_ok).
Defined.

(** ** GF(p751^2): the inverse *)

Lemma fq_fp2inv751_mont (a : f2elm_t) :
  f2elm_ok a ->
  f2elm_ok (fp2inv751_mont a) /\
  fq (val (fst (fp2inv751_mont a)))
  = Zmod.mul (Zmod.mul (fq (val (fst a)))
                (Zmod.inv (Zmod.add (Zmod.mul (fq (val (fst a))) (fq (val (fst a))))
                                    (Zmod.mul (fq (val (snd a))) (fq (val (snd a)))))))
             (Zmod.mul (fq Mont_R) (fq Mont_R)) /\
  fq (val (snd (fp2inv751_mont a)))
  = Zmod.mul (Zmod.mul (Zmod.opp (fq (val (snd a))))
                (Zmod.inv (Zmod.add (Zmod.mul (fq (val (fst a))) (fq (val (fst a))))
                                    (Zmod.mul (fq (val (snd a))) (fq (val (snd a)))))))
             (Zmod.mul (fq Mont_R) (fq Mont_R)).
Proof.
  intros Ha. pose proof Ha as [Ha0 Ha1]. pose proof fq_R_nonzero as NR.
  set (x := fq (val (fst a))). set (y := fq (val (snd a))).
  set (n := fpadd751 (fpsqr751_mont (fst a)) (fpsqr751_mont (snd a))).
  assert (Hn : felm_ok n) by apply fpadd751_ok.
  assert (Fn : fq (val n)
               = Zmod.mul (Zmod.add (Zmod.mul x x) (Zmod.mul y y))
                          (Zmod.inv (fq Mont_R))).
  { unfold n. rewrite val_fpadd751. push_of_Z.
    rewrite !fpsqr751_mont_fpmul.
    rewrite !fq_fpmul751_mont by now apply felm_ok_wf.
    fold x y. ring. }
  pose proof (fpinv751_mont_power n Hn) as [Hni _].
  pose proof (fq_fpinv751_mont_total n Hn) as Fni. rewrite Fn in Fni.
  rewrite fq_inv_mul, (Zmod.inv_inv_prime _ p751z_prime) in Fni.
  set (ninv := fpinv751_mont n) in *.
  set (o0 := fpmul751_mont (fst a) ninv).
  set (o1 := fpmul751_mont (fpneg751 (snd a)) ninv).
  assert (Einv : fp2inv751_mont a = (o0, o1)) by reflexivity.
  rewrite Einv; cbn [fst snd].
  split; [split; apply fpmul751_mont_ok|]. split.
  - unfold o0. rewrite fq_fpmul751_mont by now apply felm_ok_wf.
    fold x. rewrite Fni.
    generalize (Zmod.inv (Zmod.add (Zmod.mul x x) (Zmod.mul y y))). intros iN.
    field. fq_side.
  - unfold o1.
    rewrite fq_fpmul751_mont by (apply felm_ok_wf; assumption || apply fpneg751_ok).
    rewrite val_fpneg751. push_of_Z. fold y. rewrite Fni.
    generalize (Zmod.inv (Zmod.add (Zmod.mul x x) (Zmod.mul y y))). intros iN.
    field. fq_side.
Qed.

Lemma fq_norm_zero (x y : Zmod p751z) :
  Zmod.add (Zmod.mul x x) (Zmod.mul y y) = Zmod.zero ->
  x = Zmod.zero /\ y = Zmod.zero.
Proof.
  intros E.
  destruct (Zmod.eqb x Zmod.zero) eqn:Ex; destruct (Zmod.eqb y Zmod.zero) eqn:Ey;
    try (apply Zmod.eqb_eq in Ex); try (apply Zmod.eqb_eq in Ey);
    try (split; assumption); exfalso.
  - apply (fq_norm_nonzero x y); [right|exact E].
    intros H. apply Zmod.eqb_eq in H. congruence.
  - apply (fq_norm_nonzero x y); [left|exact E].
    intros H. apply Zmod.eqb_eq in H. congruence.
  - apply (fq_norm_nonzero x y); [left|exact E].
    intros H. apply Zmod.eqb_eq in H. congruence.
Qed.

(** X23: [fp2inv751_mont] returns reduced components for every input with
    reduced components, maps the zero element to the zero element (there
    is no error path), and is an involution. *)
Theorem fp2inv751_mont_involution (a : f2elm_t) :
  f2elm_ok a ->
  f2elm_ok (fp2inv751_mont a) /\
  fp2inv751_mont (fp2inv751_mont a) = a /\
  fp2inv751_mont (felm_zero, felm_zero) = (felm_zero, felm_zero).
Proof.
  intros Ha. pose proof fq_R_nonzero as NR.
  destruct (fq_fp2inv751_mont a Ha) as (Hi & F0 & F1).
  destruct (fq_fp2inv751_mont _ Hi) as (Hii & G0 & G1).
  assert (Hz : f2elm_ok (felm_zero, felm_zero)) by (split; apply felm_zero_ok).
  destruct (fq_fp2inv751_mont _ Hz) as (Hiz & Z0 & Z1).
  split; [exact Hi|]. split.
  - rewrite F0, F1 in G0, G1.
    set (x := fq (val (fst a))) in *. set (y := fq (val (snd a))) in *.
    set (N := Zmod.add (Zmod.mul x x) (Zmod.mul y y)) in *.
    set (RR := Zmod.mul (fq Mont_R) (fq Mont_R)) in *.
    assert (EN : Zmod.add
                   (Zmod.mul (Zmod.mul (Zmod.mul x (Zmod.inv N)) RR)
                             (Zmod.mul (Zmod.mul x (Zmod.inv N)) RR))
                   (Zmod.mul (Zmod.mul (Zmod.mul (Zmod.opp y) (Zmod.inv N)) RR)
                             (Zmod.mul (Zmod.mul (Zmod.opp y) (Zmod.inv N)) RR))
                 = Zmod.mul (Zmod.mul N (Zmod.mul (Zmod.inv N) (Zmod.inv N)))
                            (Zmod.mul RR RR))
      by (unfold N; ring).
    rewrite EN in G0, G1.
    rewrite !fq_inv_mul, (Zmod.inv_inv_prime _ p751z_prime) in G0, G1.
    apply f2elm_ok_fq_inj; [exact Hii | exact Ha | |].
    + rewrite G0. fold x.
      destruct (Zmod.eqb N Zmod.zero) eqn:EN0.
      * apply Zmod.eqb_eq in EN0. destruct (fq_norm_zero x y EN0) as [-> _]. ring.
      * assert (NN : N <> Zmod.zero) by (intros H; apply Zmod.eqb_eq in H; congruence).
        clearbody N. unfold RR. field. fq_side.
    + rewrite G1. fold y.
      destruct (Zmod.eqb N Zmod.zero) eqn:EN0.
      * apply Zmod.eqb_eq in EN0. destruct (fq_norm_zero x y EN0) as [_ ->]. ring.
      * assert (NN : N <> Zmod.zero) by (intros H; apply Zmod.eqb_eq in H; congruence).
        clearbody N. unfold RR. field. fq_side.
  - apply f2elm_ok_fq_inj; [exact Hiz | exact Hz | |].
    + rewrite Z0. cbn [fst snd]. change (val felm_zero) with 0.
      rewrite Zmod.of_Z_0. ring.
    + rewrite Z1. cbn [fst snd]. change (val felm_zero) with 0.
      rewrite Zmod.of_Z_0. ring.
Qed.

Lemma fp2inv751_mont_involution_witness :
  f2elm_ok (sample_felm 1, sample_felm 20) /\
  (f2elm_ok (fp2inv751_mont (sample_felm 1, sample_felm 20)) /\
   fp2inv751_mont (fp2inv751_mont (sample_felm 1, sample_felm 20))
   = (sample_felm 1, sample_felm 20) /\
   fp2inv751_mont (felm_zero, felm_zero) = (felm_zero, felm_zero)).
Proof.
  split; [exact sample_f2elm_ok|].
  exact (fp2inv751_mont_involution (sample_felm 1, sample_felm 20) sample_f2elm_ok).
Defined.

(** ** Selection and swap for an arbitrary mask *)

Lemma cswap_fst_bit_select (option p q : digit_t) :
  cswap_fst option p q = bit_select option p q.
Proof.
  unfold cswap_fst, bit_select. apply Z.bits_inj'. intros n Hn.
  rewrite Z.lxor_spec, Z.lor_spec, !Z.land_spec, Z.lxor_spec, Z.lnot_spec by exact Hn.
  destruct (Z.testbit option n), (Z.testbit p n), (Z.testbit q n); reflexivity.
Qed.

Lemma cswap_snd_bit_select (option p q : digit_t) :
  cswap_snd option p q = bit_select option q p.
Proof.
  unfold cswap_snd, bit_select. apply Z.bits_inj'. intros n Hn.
  rewrite Z.lxor_spec, Z.lor_spec, !Z.land_spec, Z.lxor_spec, Z.lnot_spec by exact Hn.
  destruct (Z.testbit option n), (Z.testbit p n), (Z.testbit q n); reflexivity.
Qed.

Lemma bit_select_same (option p : digit_t) : bit_select option p p = p.
Proof.
  unfold bit_select. apply Z.bits_inj'. intros n Hn.
  rewrite Z.lor_spec, !Z.land_spec, Z.lnot_spec by exact Hn.
  destruct (Z.testbit option n), (Z.testbit p n); reflexivity.
Qed.

Lemma map2_fst_bit_select (option : digit_t) (x : list digit_t) : forall y,
  map2 (cswap_fst option) x y = map2 (bit_select option) x y.
Proof.
  induction x as [|p x IH]; intros [|q y]; cbn [map2]; try reflexivity.
  now rewrite cswap_fst_bit_select, IH.
Qed.

Lemma map2_snd_bit_select (option : digit_t) (x : list digit_t) : forall y,
  length x = length y ->
  map2 (cswap_snd option) x y = map2 (bit_select option) y x.
Proof.
  induction x as [|p x IH]; intros [|q y] L; cbn [map2]; try reflexivity;
    try discriminate.
  rewrite cswap_snd_bit_select, IH; [reflexivity | now injection L].
Qed.

Lemma map2_bit_select_same (option : digit_t) (x : list digit_t) :
  map2 (bit_select option) x x = x.
Proof.
  induction x as [|p x IH]; cbn [map2]; [reflexivity|].
  now rewrite bit_select_same, IH.
Qed.

(** X24: for every mask, also one that is neither 0 nor all-ones,
    [select_f2elm] is the bitwise multiplexer: each bit of each output
    digit is the bit of [y] where the mask has a 1 and the bit of [x] where
    it has a 0; what [z] held before is overwritten, and selecting between
    [x] and [x] returns [x]. *)
Theorem select_f2elm_bitwise (x y z : f2elm_t) (option : digit_t) :
  f2elm_sized x -> f2elm_sized y -> f2elm_sized z ->
  select_f2elm x y z option
  = (map2 (bit_select option) (fst x) (fst y),
     map2 (bit_select option) (snd x) (snd y)) /\
  select_f2elm x x z option = x.
Proof.
  intros Hx Hy Hz. split.
  - rewrite (select_f2elm_closed x y z option Hx Hy Hz).
    now rewrite !map2_fst_bit_select.
  - rewrite (select_f2elm_closed x x z option Hx Hx Hz).
    rewrite !map2_fst_bit_select, !map2_bit_select_same.
    now destruct x.
Qed.

Lemma sample_f2elm_sized (j k : Z) : f2elm_sized (sample_felm j, sample_felm k).
Proof. split; reflexivity. Defined.

Lemma select_f2elm_bitwise_witness :
  (f2elm_sized (sample_felm 1, sample_felm 20) /\
   f2elm_sized (sample_felm 40, sample_felm 60) /\
   f2elm_sized (sample_felm 7, sample_felm 9)) /\
  (select_f2elm (sample_felm 1, sample_felm 20) (sample_felm 40, sample_felm 60)
                (sample_felm 7, sample_felm 9) 0x0F0F
   = (map2 (bit_select 0x0F0F) (sample_felm 1) (sample_felm 40),
      map2 (bit_select 0x0F0F) (sample_felm 20) (sample_felm 60)) /\
   select_f2elm (sample_felm 1, sample_felm 20) (sample_felm 1, sample_felm 20)
                (sample_felm 7, sample_felm 9) 0x0F0F
   = (sample_felm 1, sample_felm 20)).
Proof.
  split;
    [exact (conj (sample_f2elm_sized 1 20)
                 (conj (sample_f2elm_sized 40 60) (sample_f2elm_sized 7 9)))|].
  exact (select_f2elm_bitwise (sample_felm 1, sample_felm 20)
           (sample_felm 40, sample_felm 60) (sample_felm 7, sample_felm 9) 0x0F0F
           (sample_f2elm_sized 1 20) (sample_f2elm_sized 40 60)
           (sample_f2elm_sized 7 9)).
Defined.

(** X25: for every mask [swap_points] and [swap_points_basefield] exchange
    exactly the bit positions at which the mask has a 1: the first point
    receives, limb by limb, the multiplexed bits of [(P, Q)] and the second
    those of [(Q, P)].  So the first output coordinates are what
    [select_f2elm] selects, and swapping the arguments swaps the results. *)
Theorem swap_points_bitwise (option : digit_t) (P Q : point_proj)
        (Pb Qb : point_basefield_proj) (z : f2elm_t) :
  point_sized P -> point_sized Q ->
  point_basefield_sized Pb -> point_basefield_sized Qb -> f2elm_sized z ->
  (swap_points P Q option
   = (mkPoint (map2 (bit_select option) (fst (pX P)) (fst (pX Q)),
               map2 (bit_select option) (snd (pX P)) (snd (pX Q)))
              (map2 (bit_select option) (fst (pZ P)) (fst (pZ Q)),
               map2 (bit_select option) (snd (pZ P)) (snd (pZ Q))),
      mkPoint (map2 (bit_select option) (fst (pX Q)) (fst (pX P)),
               map2 (bit_select option) (snd (pX Q)) (snd (pX P)))
              (map2 (bit_select option) (fst (pZ Q)) (fst (pZ P)),
               map2 (bit_select option) (snd (pZ Q)) (snd (pZ P)))) /\
   swap_points_basefield Pb Qb option
   = (mkPointBF (map2 (bit_select option) (bX Pb) (bX Qb))
                (map2 (bit_select option) (bZ Pb) (bZ Qb)),
      mkPointBF (map2 (bit_select option) (bX Qb) (bX Pb))
                (map2 (bit_select option) (bZ Qb) (bZ Pb)))) /\
  (pX (fst (swap_points P Q option)) = select_f2elm (pX P) (pX Q) z option /\
   pZ (fst (swap_points P Q option)) = select_f2elm (pZ P) (pZ Q) z option) /\
  (swap_points Q P option
   = (snd (swap_points P Q option), fst (swap_points P Q option)) /\
   swap_points_basefield Qb Pb option
   = (snd (swap_points_basefield Pb Qb option),
      fst (swap_points_basefield Pb Qb option))).
Proof.
  intros HP HQ HPb HQb Hz.
  pose proof HP as [[LP1 LP2] [LP3 LP4]]. pose proof HQ as [[LQ1 LQ2] [LQ3 LQ4]].
  pose proof HPb as [LPb1 LPb2]. pose proof HQb as [LQb1 LQb2].
  assert (E : swap_points P Q option
   = (mkPoint (map2 (bit_select option) (fst (pX P)) (fst (pX Q)),
               map2 (bit_select option) (snd (pX P)) (snd (pX Q)))
              (map2 (bit_select option) (fst (pZ P)) (fst (pZ Q)),
               map2 (bit_select option) (snd (pZ P)) (snd (pZ Q))),
      mkPoint (map2 (bit_select option) (fst (pX Q)) (fst (pX P)),
               map2 (bit_select option) (snd (pX Q)) (snd (pX P)))
              (map2 (bit_select option) (fst (pZ Q)) (fst (pZ P)),
               map2 (bit_select option) (snd (pZ Q)) (snd (pZ P))))).
  { rewrite (swap_points_closed option P Q HP HQ).
    rewrite !map2_fst_bit_select.
    rewrite !map2_snd_bit_select by congruence. reflexivity. }
  assert (E' : swap_points Q P option
   = (mkPoint (map2 (bit_select option) (fst (pX Q)) (fst (pX P)),
               map2 (bit_select option) (snd (pX Q)) (snd (pX P)))
              (map2 (bit_select option) (fst (pZ Q)) (fst (pZ P)),
               map2 (bit_select option) (snd (pZ Q)) (snd (pZ P))),
      mkPoint (map2 (bit_select option) (fst (pX P)) (fst (pX Q)),
               map2 (bit_select option) (snd (pX P)) (snd (pX Q)))
              (map2 (bit_select option) (fst (pZ P)) (fst (pZ Q)),
               map2 (bit_select option) (snd (pZ P)) (snd (pZ Q))))).
  { rewrite (swap_points_closed option Q P HQ HP).
    rewrite !map2_fst_bit_select.
    rewrite !map2_snd_bit_select by congruence. reflexivity. }
  assert (B : swap_points_basefield Pb Qb option
   = (mkPointBF (map2 (bit_select option) (bX Pb) (bX Qb))
                (map2 (bit_select option) (bZ Pb) (bZ Qb)),
      mkPointBF (map2 (bit_select option) (bX Qb) (bX Pb))
                (map2 (bit_select option) (bZ Qb) (bZ Pb)))).
  { rewrite (swap_points_basefield_closed option Pb Qb HPb HQb).
    rewrite !map2_fst_bit_select.
    rewrite !map2_snd_bit_select by congruence. reflexivity. }
  assert (B' : swap_points_basefield Qb Pb option
   = (mkPointBF (map2 (bit_select option) (bX Qb) (bX Pb))
                (map2 (bit_select option) (bZ Qb) (bZ Pb)),
      mkPointBF (map2 (bit_select option) (bX Pb) (bX Qb))
                (map2 (bit_select option) (bZ Pb) (bZ Qb)))).
  { rewrite (swap_points_basefield_closed option Qb Pb HQb HPb).
    rewrite !map2_fst_bit_select.
    rewrite !map2_snd_bit_select by congruence. reflexivity. }
  split; [split; [exact E | exact B]|]. split; [split|split].
  - rewrite E. cbn [fst pX].
    rewrite (select_f2elm_closed (pX P) (pX Q) z option
               (conj LP1 LP2) (conj LQ1 LQ2) Hz).
    now rewrite !map2_fst_bit_select.
  - rewrite E. cbn [fst pZ].
    rewrite (select_f2elm_closed (pZ P) (pZ Q) z option
               (conj LP3 LP4) (conj LQ3 LQ4) Hz).
    now rewrite !map2_fst_bit_select.
  - rewrite E', E. reflexivity.
  - rewrite B', B. reflexivity.
Qed.

Lemma sample_P_sized : point_sized sample_P.
Proof. repeat split. Defined.

Lemma sample_Q_sized : point_sized sample_Q.
Proof. repeat split. Defined.

Lemma sample_Pb_sized : point_basefield_sized sample_Pb.
Proof. split; reflexivity. Defined.

Lemma sample_Qb_sized : point_basefield_sized sample_Qb.
Proof. split; reflexivity. Defined.

Lemma swap_points_bitwise_witness :
  (point_sized sample_P /\ point_sized sample_Q /\
   point_basefield_sized sample_Pb /\ point_basefield_sized sample_Qb /\
   f2elm_sized (sample_felm 7, sample_felm 9)) /\
  (pX (fst (swap_points sample_P sample_Q 0x0F0F))
   = select_f2elm (pX sample_P) (pX sample_Q) (sample_felm 7, sample_felm 9) 0x0F0F /\
   swap_points sample_Q sample_P 0x0F0F
   = (snd (swap_points sample_P sample_Q 0x0F0F),
      fst (swap_points sample_P sample_Q 0x0F0F))).
Proof.
  split;
    [exact (conj sample_P_sized (conj sample_Q_sized
              (conj sample_Pb_sized (conj sample_Qb_sized (sample_f2elm_sized 7 9)))))|].
  pose proof (swap_points_bitwise 0x0F0F sample_P sample_Q sample_Pb sample_Qb
                (sample_felm 7, sample_felm 9)
                sample_P_sized sample_Q_sized sample_Pb_sized sample_Qb_sized
                (sample_f2elm_sized 7 9)) as H.
  exact (conj (proj1 (proj1 (proj2 H))) (proj1 (proj2 (proj2 H)))).
Defined.

(** ** Copying and zeroing elements *)

(** X26: on arrays of [NWORDS_FIELD] digits per component, and whatever the
    destination held, [fpcopy751] and [fp2copy751] return the source, and
    [fpzero751] and [fp2zero751] return the all-zero element. *)
Theorem copy_and_zero_elements (a c : f2elm_t) :
  f2elm_sized a -> f2elm_sized c ->
  (fpcopy751 (fst a) (fst c) = fst a /\ fp2copy751 a c = a) /\
  (fpzero751 (fst c) = felm_zero /\ fp2zero751 c = (felm_zero, felm_zero)).
Proof.
  intros [La0 La1] [Lc0 Lc1]. unfold fp2copy751, fp2zero751.
  rewrite !fpcopy751_eq, !fpzero751_eq by assumption.
  repeat split. now destruct a.
Qed.

Lemma copy_and_zero_elements_witness :
  (f2elm_sized (sample_felm 1, sample_felm 20) /\
   f2elm_sized (sample_felm 40, sample_felm 60)) /\
  ((fpcopy751 (sample_felm 1) (sample_felm 40) = sample_felm 1 /\
    fp2copy751 (sample_felm 1, sample_felm 20) (sample_felm 40, sample_felm 60)
    = (sample_felm 1, sample_felm 20)) /\
   (fpzero751 (sample_felm 40) = felm_zero /\
    fp2zero751 (sample_felm 40, sample_felm 60) = (felm_zero, felm_zero))).
Proof.
  split; [exact (conj (sample_f2elm_sized 1 20) (sample_f2elm_sized 40 60))|].
  exact (copy_and_zero_elements (sample_felm 1, sample_felm 20)
           (sample_felm 40, sample_felm 60)
           (sample_f2elm_sized 1 20) (sample_f2elm_sized 40 60)).
Defined.

(** ** The global constants *)

(** X27: the three global constants fit together: [p751] holds the prime
    [2^372 * 3^239 - 1], which is 3 modulo 4; [p751p1] holds [p751 + 1];
    and [Montgomery_R2] holds [(2^768)^2 mod p751], reduced. *)
Theorem global_constants_consistent :
  Z.prime (val p751) /\
  val p751 = 2 ^ 372 * 3 ^ 239 - 1 /\
  val p751 mod 4 = 3 /\
  val p751p1 = val p751 + 1 /\
  felm_ok Montgomery_R2 /\
  val Montgomery_R2 = (Mont_R * Mont_R) mod val p751.
Proof.
  split; [exact p751z_prime|].
  split; [vm_compute; reflexivity|].
  split; [vm_compute; reflexivity|].
  split; [vm_compute; reflexivity|].
  split; [exact Montgomery_R2_wf|].
  vm_compute. reflexivity.
Qed.
